(** * fabric-format: the ANTLR build pipeline for the JavaScript target

    A shallow embedding of [scripts/build_antlr_js.py] and the properties
    its specification states about it.

    Texts.  A Python [str] is modelled as a list of characters.  The
    characters are the code points U+0000 to U+00FF, Rocq's [ascii]; the
    grammar files and the generated artifacts the script handles are ASCII
    texts.  The classes [\s] and [\w] of Python's [re] module and the
    whitespace of [str.rstrip] are defined on the whole range as Python 3
    defines them for [str] patterns.

    Regular expressions.  The script uses [re.match], [re.sub] and
    [re.findall] on eight patterns.  [Re] below models the fragment of
    Python's regular expression language these patterns are written in:
    a pattern text is parsed by [re_compile], with the outcomes "compiled",
    "re.error" and "outside the fragment", and matched by a backtracking
    matcher with Python's priorities (greedy quantifiers, leftmost match).

    Files.  The file system is a map from the paths the script builds out
    of its configuration constants to files.  The script reads and writes
    its files as UTF-8 texts, in text mode: a file is kept as the text its
    bytes decode to, with the line ends as they are stored, or as a file
    whose bytes are not UTF-8; reading translates the line ends CR LF and
    CR to LF, and writing stores the line ends as they are, as on a POSIX
    system.  Directories and permissions are not modelled, and neither is
    console output. *)

From Stdlib Require Import List Ascii String Arith Bool Lia ZArith.
From Equations Require Import Equations.
Import ListNotations.

Set Implicit Arguments.

(** ** Texts *)

Definition str := list ascii.

Definition of_string (s : string) : list ascii := list_ascii_of_string s.
Coercion of_string : string >-> list.

#[local] Open Scope string_scope.
#[local] Open Scope list_scope.

Definition str_eqb (a b : str) : bool :=
  if list_eq_dec ascii_dec a b then true else false.

Lemma str_eqb_eq a b : str_eqb a b = true <-> a = b.
Proof. unfold str_eqb. destruct (list_eq_dec ascii_dec a b); split; congruence. Qed.

Lemma str_eqb_refl a : str_eqb a a = true.
Proof. apply str_eqb_eq. reflexivity. Qed.

(** The code point of a character. *)
Definition ord (c : ascii) : nat := nat_of_ascii c.

Definition between (lo hi : nat) (c : ascii) : bool :=
  Nat.leb lo (ord c) && Nat.leb (ord c) hi.

(** [str.isspace] on one character, which is also the class [\s] of a
    [str] pattern: TAB to CR, FS to US, space, NEL and NBSP. *)
Definition isspace (c : ascii) : bool :=
  between 9 13 c || between 28 32 c || Nat.eqb (ord c) 133 || Nat.eqb (ord c) 160.

(** [str.isalnum] on one character: ASCII letters and digits, and the
    letters, digits and numeric characters of the Latin-1 supplement. *)
Definition isalnum (c : ascii) : bool :=
  between 48 57 c || between 65 90 c || between 97 122 c
  || Nat.eqb (ord c) 170 || Nat.eqb (ord c) 178 || Nat.eqb (ord c) 179 || Nat.eqb (ord c) 181
  || Nat.eqb (ord c) 185 || Nat.eqb (ord c) 186 || between 188 190 c
  || between 192 214 c || between 216 246 c || between 248 255 c.

(** The class [\w] of a [str] pattern. *)
Definition isword (c : ascii) : bool := isalnum c || Ascii.eqb c "_".

Definition is_ascii_alnum (c : ascii) : bool :=
  between 48 57 c || between 65 90 c || between 97 122 c.

(** ** Outcomes of a call *)

Inductive dir := GRAMMAR_SOURCE_DIR | GRAMMAR_TRANSFORMED_DIR | GENERATED_DIR.

Inductive path :=
| InDir (d : dir) (filename : string)   (* [d / filename] *)
| ANTLR_JAR.

Inductive exn :=
| re_error                       (* [re.error]: the pattern does not compile *)
| FileNotFoundError (p : path)
| UnicodeDecodeError (p : path). (* the bytes of the file [p] are not UTF-8 *)

(** A call returns a value, raises, or leaves the modelled fragment of
    Python (a pattern [re_compile] does not cover). *)
Inductive outcome (A : Type) :=
| Ret (a : A)
| Raise (e : exn)
| Unmodelled.
Arguments Ret {A} a.
Arguments Raise {A} e.
Arguments Unmodelled {A}.

Definition bind {A B} (x : outcome A) (f : A -> outcome B) : outcome B :=
  match x with
  | Ret a => f a
  | Raise e => Raise e
  | Unmodelled => Unmodelled
  end.

Notation "x <- c1 ;; c2" := (bind c1 (fun x => c2))
  (at level 61, c1 at next level, right associativity).

(** ** A fragment of Python's [re] *)

Module Re.

(** One-character matchers. *)
Inductive charset :=
| CChar (c : ascii)                       (* a literal character *)
| CSpace                                  (* [\s] *)
| CWord                                   (* [\w] *)
| CRanges (rs : list (ascii * ascii)).    (* [[a-zA-Z_0-9]] *)

Definition charset_mem (cs : charset) (c : ascii) : bool :=
  match cs with
  | CChar c' => Ascii.eqb c c'
  | CSpace => isspace c
  | CWord => isword c
  | CRanges rs => existsb (fun r => between (ord (fst r)) (ord (snd r)) c) rs
  end.

(** Patterns: concatenations of characters, greedy repetitions of one
    character, optional items and numbered capturing groups. *)
Inductive regex :=
| Eps
| One (cs : charset)
| Star (cs : charset)              (* [x*] *)
| Plus (cs : charset)              (* [x+] *)
| Opt (r : regex)                  (* [r?] *)
| Group (n : nat) (r : regex)      (* [(r)], the n-th opening parenthesis *)
| Cat (r1 r2 : regex).

Definition seq (items : list regex) : regex := fold_right Cat Eps items.

(** *** Parsing a pattern *)

Inductive compiled :=
| Compiled (r : regex)
| Invalid          (* Python raises [re.error] *)
| Unsupported.     (* valid or not, the pattern is outside the fragment *)

Inductive cls_state :=
| ClsEmpty
| ClsChar (c : ascii)      (* [c] read, may start a range *)
| ClsDash (c : ascii).     (* [c-] read *)

Inductive mode :=
| Normal
| Escaped                                              (* after a backslash *)
| InClass (done : list (ascii * ascii)) (st : cls_state).   (* inside [[...]] *)

(** The parser state: the enclosing groups (number and the items read
    before the group opened), the items of the sequence being read, last
    first, and the number of the next group. *)
Record pstate := {
  frames : list (nat * list regex);
  cur : list regex;
  next_group : nat;
  md : mode
}.

Inductive presult :=
| Go (st : pstate)
| Stop (c : compiled).

Definition push_item (st : pstate) (item : regex) : presult :=
  Go {| frames := frames st; cur := item :: cur st;
        next_group := next_group st; md := Normal |}.

Definition quantify (q : ascii) (item : regex) : option regex :=
  match item with
  | One cs =>
      Some (if Ascii.eqb q "?" then Opt (One cs)
            else if Ascii.eqb q "*" then Star cs else Plus cs)
  | Group n r => if Ascii.eqb q "?" then Some (Opt (Group n r)) else None
  | _ => None
  end.

Definition is_quantifier (c : ascii) : bool :=
  Ascii.eqb c "?" || Ascii.eqb c "*" || Ascii.eqb c "+".

(** Characters with a meaning of their own that the fragment leaves out. *)
Definition is_reserved (c : ascii) : bool :=
  Ascii.eqb c "." || Ascii.eqb c "^" || Ascii.eqb c "$" || Ascii.eqb c "|"
  || Ascii.eqb c "{".

Definition step_normal (st : pstate) (c : ascii) : presult :=
  if Ascii.eqb c "\" then
    Go {| frames := frames st; cur := cur st;
          next_group := next_group st; md := Escaped |}
  else if Ascii.eqb c "[" then
    Go {| frames := frames st; cur := cur st;
          next_group := next_group st; md := InClass [] ClsEmpty |}
  else if Ascii.eqb c "(" then
    Go {| frames := (next_group st, cur st) :: frames st; cur := [];
          next_group := S (next_group st); md := Normal |}
  else if Ascii.eqb c ")" then
    match frames st with
    | [] => Stop Invalid                       (* unbalanced parenthesis *)
    | (n, outer) :: fs =>
        Go {| frames := fs; cur := Group n (seq (rev (cur st))) :: outer;
              next_group := next_group st; md := Normal |}
    end
  else if is_quantifier c then
    match cur st with
    | [] =>
        match frames st with
        | _ :: _ => if Ascii.eqb c "?" then Stop Unsupported   (* [(?...)] *)
                    else Stop Invalid
        | [] => Stop Invalid                   (* nothing to repeat *)
        end
    | item :: rest =>
        match quantify c item with
        | Some item' =>
            Go {| frames := frames st; cur := item' :: rest;
                  next_group := next_group st; md := Normal |}
        | None => Stop Unsupported
        end
    end
  else if is_reserved c then Stop Unsupported
  else push_item st (One (CChar c)).

Definition step_escaped (st : pstate) (c : ascii) : presult :=
  if Ascii.eqb c "s" then push_item st (One CSpace)
  else if Ascii.eqb c "w" then push_item st (One CWord)
  else if is_ascii_alnum c then Stop Unsupported
  else push_item st (One (CChar c)).

Definition step_class (st : pstate) (done : list (ascii * ascii))
    (cs : cls_state) (c : ascii) : presult :=
  let continue d s :=
    Go {| frames := frames st; cur := cur st;
          next_group := next_group st; md := InClass d s |} in
  if Ascii.eqb c "]" then
    match cs with
    | ClsEmpty =>
        match done with
        | [] => Stop Unsupported
        | _ => push_item st (One (CRanges done))
        end
    | ClsChar a => push_item st (One (CRanges (done ++ [(a, a)])))
    | ClsDash _ => Stop Unsupported
    end
  else if Ascii.eqb c "-" then
    match cs with
    | ClsChar a => continue done (ClsDash a)
    | _ => Stop Unsupported
    end
  else if is_ascii_alnum c || Ascii.eqb c "_" then
    match cs with
    | ClsEmpty => continue done (ClsChar c)
    | ClsChar a => continue (done ++ [(a, a)]) (ClsChar c)
    | ClsDash a =>
        if Nat.leb (ord a) (ord c) then continue (done ++ [(a, c)]) ClsEmpty
        else Stop Invalid                      (* bad character range *)
    end
  else Stop Unsupported.

Definition parse_step (st : pstate) (c : ascii) : presult :=
  match md st with
  | Normal => step_normal st c
  | Escaped => step_escaped st c
  | InClass done cs => step_class st done cs c
  end.

Definition finish (st : pstate) : compiled :=
  match md st, frames st with
  | Normal, [] => Compiled (seq (rev (cur st)))
  | _, _ => Invalid      (* open escape, character set or group *)
  end.

Fixpoint parse (st : pstate) (p : str) : compiled :=
  match p with
  | [] => finish st
  | c :: p' =>
      match parse_step st c with
      | Go st' => parse st' p'
      | Stop r => r
      end
  end.

Definition re_compile (pattern : str) : compiled :=
  parse {| frames := []; cur := []; next_group := 1; md := Normal |} pattern.

(** *** Matching *)

(** The groups that took part in a match, the latest binding first. *)
Definition groups := list (nat * str).

(** A match object: [m.end()] and the captured groups. *)
Record match_obj := { m_end : nat; m_groups : groups }.

Fixpoint lookup (n : nat) (g : groups) : option str :=
  match g with
  | [] => None
  | (k, v) :: g' => if Nat.eqb k n then Some v else lookup n g'
  end.

(** [m.group(n)]; [None] when the group took no part in the match. *)
Definition group (mo : match_obj) (n : nat) : option str :=
  lookup n (m_groups mo).

(** [x or ''] *)
Definition or_empty (x : option str) : str :=
  match x with Some v => v | None => [] end.

Section Matcher.
Variable R : Type.

(** [x*] followed by [k]: the longest run first, then shorter ones. *)
Fixpoint star (cs : charset) (s : str) (k : str -> option R) : option R :=
  match s with
  | c :: s' =>
      if charset_mem cs c then
        match star cs s' k with
        | Some res => Some res
        | None => k s
        end
      else k s
  | [] => k []
  end.

(** [matcher r s g k]: match [r] at the start of [s], then [k] on what
    is left; the first success in Python's backtracking order. *)
Fixpoint matcher (r : regex) (s : str) (g : groups)
    (k : str -> groups -> option R) : option R :=
  match r with
  | Eps => k s g
  | One cs =>
      match s with
      | c :: s' => if charset_mem cs c then k s' g else None
      | [] => None
      end
  | Star cs => star cs s (fun s' => k s' g)
  | Plus cs =>
      match s with
      | c :: s' =>
          if charset_mem cs c then star cs s' (fun s'' => k s'' g) else None
      | [] => None
      end
  | Opt r' =>
      match matcher r' s g k with
      | Some res => Some res
      | None => k s g
      end
  | Group n r' =>
      matcher r' s g
        (fun s' g' => k s' ((n, firstn (List.length s - List.length s') s) :: g'))
  | Cat r1 r2 => matcher r1 s g (fun s' g' => matcher r2 s' g' k)
  end.
End Matcher.

(** [pattern.match(s)] for a compiled pattern. *)
Definition match_at (r : regex) (s : str) : option match_obj :=
  matcher r s []
    (fun s' g => Some {| m_end := List.length s - List.length s'; m_groups := g |}).

(** The pieces [pattern.finditer(s)] cuts [s] into: the matches, left to
    right and not overlapping, and the characters between them.  [skip]
    counts the characters still covered by the last match.  An empty match
    is reported and the scan moves on by one character (Python 3.7 and
    later); in this fragment a pattern whose first match at a position is
    empty has no other match there. *)
Inductive piece :=
| Chr (c : ascii)
| Hit (mo : match_obj).

Fixpoint scan (r : regex) (skip : nat) (s : str) : list piece :=
  match s with
  | [] =>
      match skip with
      | 0 => match match_at r [] with Some mo => [Hit mo] | None => [] end
      | S _ => []
      end
  | c :: s' =>
      match skip with
      | S k => scan r k s'
      | 0 =>
          match match_at r s with
          | Some mo =>
              Hit mo :: match m_end mo with
                        | 0 => Chr c :: scan r 0 s'
                        | S k => scan r k s'
                        end
          | None => Chr c :: scan r 0 s'
          end
      end
  end.

(** The text a piece becomes under [sub]. *)
Definition piece_text (repl : match_obj -> str) (pc : piece) : str :=
  match pc with
  | Chr c => [c]
  | Hit mo => repl mo
  end.

Definition sub_compiled (r : regex) (repl : match_obj -> str) (s : str) : str :=
  flat_map (piece_text repl) (scan r 0 s).

Definition findall_compiled (r : regex) (s : str) : list str :=
  flat_map (fun p => match p with
                     | Chr _ => []
                     | Hit mo => [or_empty (group mo 1)]
                     end)
           (scan r 0 s).

Definition with_pattern {A} (pattern : str) (f : regex -> A) : outcome A :=
  match re_compile pattern with
  | Compiled r => Ret (f r)
  | Invalid => Raise re_error
  | Unsupported => Unmodelled
  end.

(** [re.match(pattern, s)] *)
Definition re_match (pattern s : str) : outcome (option match_obj) :=
  with_pattern pattern (fun r => match_at r s).

(** [re.sub(pattern, repl, s)] with a function [repl]. *)
Definition re_sub (pattern : str) (repl : match_obj -> str) (s : str) : outcome str :=
  with_pattern pattern (fun r => sub_compiled r repl s).

(** [re.findall(pattern, s)] for a pattern with one group. *)
Definition re_findall (pattern s : str) : outcome (list str) :=
  with_pattern pattern (fun r => findall_compiled r s).

End Re.
Import Re.

(** ** Block Stripper *)

(** Lines 81-86: from [content[j:]] with [brace_count] open braces, the
    text [content[j:]] at the end of the loop. *)
Fixpoint find_close (brace_count : nat) (s : str) : str :=
  match brace_count, s with
  | 0, _ => s
  | _, [] => []
  | S n, c :: s' =>
      if Ascii.eqb c "{" then find_close (S (S n)) s'
      else if Ascii.eqb c "}" then find_close n s'
      else find_close (S n) s'
  end.

(** [c in ' \t\n\r'] *)
Definition is_blank (c : ascii) : bool :=
  Ascii.eqb c " " || Ascii.eqb c "009" || Ascii.eqb c "010" || Ascii.eqb c "013".

(** Lines 88-89: skip the whitespace after the block. *)
Fixpoint skip_ws (s : str) : str :=
  match s with
  | c :: s' => if is_blank c then skip_ws s' else s
  | [] => []
  end.

(** [rf'@{block_name}\s*\{{'] *)
Definition block_pattern (block_name : str) : str :=
  "@" ++ block_name ++ "\s*\{".

Lemma find_close_length n s : List.length (find_close n s) <= List.length s.
Proof.
  revert n. induction s as [|c s IH]; intros [|n]; simpl; auto.
  destruct (Ascii.eqb c "{"); [|destruct (Ascii.eqb c "}")];
    match goal with |- context [find_close ?k s] => specialize (IH k) end; lia.
Qed.

Lemma skip_ws_length s : List.length (skip_ws s) <= List.length s.
Proof.
  induction s as [|c s IH]; simpl; auto.
  destruct (is_blank c); simpl; lia.
Qed.

(** The text that follows a block opened at the start of [s], where the
    opening pattern matched [n] characters: [content[j:]] at line 90. *)
Definition after_block (n : nat) (s : str) : str :=
  skip_ws (find_close 1 (skipn n s)).

Lemma after_block_length n c s :
  List.length (after_block n (c :: s)) < List.length (c :: s).
Proof.
  unfold after_block.
  pose proof (skip_ws_length (find_close 1 (skipn n (c :: s)))) as H1.
  pose proof (find_close_length 1 (skipn n (c :: s))) as H2.
  destruct n as [|n].
  - simpl in *.
    destruct (Ascii.eqb c "{"); [|destruct (Ascii.eqb c "}")];
      match goal with |- context [find_close ?k s] =>
        pose proof (find_close_length k s) end;
      match goal with |- context [skip_ws ?x] =>
        pose proof (skip_ws_length x) end; lia.
  - simpl skipn in *. pose proof (length_skipn n s). simpl. lia.
Qed.

(** The loop of lines 75-93 on [content[i:]]; the result is what the loop
    appends to [result] from there on. *)
Equations remove_loop (pattern : str) (s : str) : outcome str by wf (List.length s) lt :=
  remove_loop pattern [] := Ret [];
  remove_loop pattern (c :: s') with re_match pattern (c :: s') => {
    | Ret (Some mo) := remove_loop pattern (after_block (m_end mo) (c :: s'));
    | Ret None := (rest <- remove_loop pattern s' ;; Ret (c :: rest));
    | Raise e := Raise e;
    | Unmodelled := Unmodelled }.
Next Obligation. apply after_block_length. Qed.

Definition remove_block (content block_name : str) : outcome str :=
  remove_loop (block_pattern block_name) content.

(** ** Call Rewriter *)

(** [m.group(n)] as a text.  It is used below for the groups 1 and 2 of
    patterns in which neither group is optional, so the group takes part
    in every match and [m.group(n)] is a string. *)
Definition group_text (mo : match_obj) (n : nat) : str := or_empty (group mo n).

Definition transform_predicates_for_js (content : str) : outcome str :=
  (* Special case: dollar-quoted string tag handling *)
  content <- re_sub "\{tags\.push\(getText\(\)\);?\}"
               (fun _ => "{this.pushDollarTag();}") content ;;
  content <- re_sub "\{getText\(\)\.equals\(tags\.peek\(\)\)\}\?"
               (fun _ => "{this.matchesDollarTag()}?") content ;;
  content <- re_sub "\{tags\.pop\(\);?\}"
               (fun _ => "{this.popDollarTag();}") content ;;
  (* method calls in predicates *)
  content <- re_sub "\{(!?)(\w+)\(\)\}(\?)?"
               (fun m => "{" ++ group_text m 1 ++ "this." ++ group_text m 2
                         ++ "()" ++ "}" ++ or_empty (group m 3)) content ;;
  (* method calls in actions *)
  content <- re_sub "\{(\w+)\(\);\}"
               (fun m => "{this." ++ group_text m 1 ++ "();}") content ;;
  (* variable access in predicates *)
  content <- re_sub "\{(!?)([a-zA-Z][a-zA-Z_0-9]*)\}(\?)"
               (fun m => "{" ++ group_text m 1 ++ "this." ++ group_text m 2
                         ++ "}" ++ group_text m 3) content ;;
  Ret content.

(** ** The world of the pipeline *)

Definition path_eqb (p q : path) : bool :=
  match p, q with
  | InDir GRAMMAR_SOURCE_DIR f, InDir GRAMMAR_SOURCE_DIR f'
  | InDir GRAMMAR_TRANSFORMED_DIR f, InDir GRAMMAR_TRANSFORMED_DIR f'
  | InDir GENERATED_DIR f, InDir GENERATED_DIR f' => String.eqb f f'
  | ANTLR_JAR, ANTLR_JAR => true
  | _, _ => false
  end.

(** What a file holds: bytes that are the UTF-8 encoding of a text, kept
    as that text with its line ends as they are stored, or bytes that are
    not UTF-8. *)
Inductive file :=
| Utf8 (text : str)
| NotUtf8.

Definition filesystem := path -> option file.

(** What [subprocess.run] gives for the ANTLR command line. *)
Record completed_process := {
  returncode : Z;
  stderr : str
}.

(** The state the stages share: the files, and the behaviour of the
    external tool, a function of the files it is started on: what
    [subprocess.run] gives ([subprocess.run] raises when there is no
    [java] to start, or when the output of the tool cannot be decoded),
    and the files once the call is over. *)
Record world := {
  files : filesystem;
  subprocess_run : filesystem -> outcome completed_process * filesystem
}.

(** Stateful code: a function of the world that returns an outcome and
    the world it leaves. *)
Definition M (A : Type) : Type := world -> outcome A * world.

Definition ret {A} (a : A) : M A := fun w => (Ret a, w).

Definition lift {A} (x : outcome A) : M A := fun w => (x, w).

Definition bindM {A B} (x : M A) (f : A -> M B) : M B :=
  fun w =>
    match x w with
    | (Ret a, w') => f a w'
    | (Raise e, w') => (Raise e, w')
    | (Unmodelled, w') => (Unmodelled, w')
    end.

Notation "x <~ c1 ;; c2" := (bindM c1 (fun x => c2))
  (at level 61, c1 at next level, right associativity).
Notation "c1 ;;; c2" := (bindM c1 (fun _ => c2))
  (at level 61, right associativity).

(** [p.exists()] *)
Definition exists_ (p : path) : M bool :=
  fun w => (Ret (match files w p with Some _ => true | None => false end), w).

Definition CR : ascii := "013".
Definition LF : ascii := "010".

(** The text a stream opened in text mode gives for the decoded text [s]
    ([newline=None], universal newlines): the line ends CR LF and CR are
    read as LF. *)
Fixpoint universal_newlines (s : str) : str :=
  match s with
  | [] => []
  | c :: s' =>
      if Ascii.eqb c CR then
        LF :: match s' with
              | d :: s'' =>
                  if Ascii.eqb d LF then universal_newlines s''
                  else universal_newlines s'
              | [] => []
              end
      else c :: universal_newlines s'
  end.

(** [p.read_text(encoding='utf-8')] *)
Definition read_text (p : path) : M str :=
  fun w =>
    match files w p with
    | Some (Utf8 text) => (Ret (universal_newlines text), w)
    | Some NotUtf8 => (Raise (UnicodeDecodeError p), w)
    | None => (Raise (FileNotFoundError p), w)
    end.

(** [p.write_text(content, encoding='utf-8')]; every text of the model
    has a UTF-8 encoding, and [os.linesep] is LF. *)
Definition write_text (p : path) (content : str) : M unit :=
  fun w =>
    (Ret tt,
     {| files := fun q => if path_eqb q p then Some (Utf8 content) else files w q;
        subprocess_run := subprocess_run w |}).

(** ** Grammar Transform Stage *)

(** The body of the loop of [transform_grammar] for one file; [None]
    when the loop goes on, [Some b] when the function returns [b]. *)
Definition transform_file (filename : string) : M (option bool) :=
  let source_path := InDir GRAMMAR_SOURCE_DIR filename in
  let output_path := InDir GRAMMAR_TRANSFORMED_DIR filename in
  found <~ exists_ source_path ;;
  if negb found then ret (Some false)
  else
    content <~ read_text source_path ;;
    content <~ lift (remove_block content "header") ;;
    content <~ lift (remove_block content "members") ;;
    content <~ lift (transform_predicates_for_js content) ;;
    write_text output_path content ;;;
    ret None.

Fixpoint transform_files (filenames : list string) : M bool :=
  match filenames with
  | [] => ret true
  | filename :: rest =>
      r <~ transform_file filename ;;
      match r with
      | Some b => ret b
      | None => transform_files rest
      end
  end.

Definition transform_grammar : M bool :=
  transform_files ["SqlBaseLexer.g4"; "SqlBaseParser.g4"]%string.

(** ** Generator Invocation Stage *)

(** [subprocess.run(cmd, capture_output=True, text=True)]: whatever the
    call gives, the files are then as the tool left them. *)
Definition run_antlr : M completed_process :=
  fun w =>
    let (result, files') := subprocess_run w (files w) in
    (result, {| files := files'; subprocess_run := subprocess_run w |}).

Definition generate_antlr : M bool :=
  found <~ exists_ ANTLR_JAR ;;
  if negb found then ret false
  else
    result <~ run_antlr ;;
    if negb (Z.eqb (returncode result) 0) then ret false
    else ret true.

(** ** Predicate Injection Stage *)

Definition dquote : ascii := "034".

Definition lexer_predicates_js : str :=
  "

// ============================================================================
// Lexer Predicate Implementations (from Java @members)
// Based on sparkfmt-core/KNOWN_PREDICATES.json
// ============================================================================

// State
SqlBaseLexer.prototype.has_unclosed_bracketed_comment = false;
SqlBaseLexer.prototype.complex_type_level_counter = 0;
SqlBaseLexer.prototype.dollar_tags = [];

/**
 * Check if current token forms a valid decimal number.
 * Returns false if followed by letter/digit/underscore (would be part of identifier).
 */
SqlBaseLexer.prototype.isValidDecimal = function() {
    const nextChar = this._input.LA(1);
    // Check if next char is A-Z, a-z, 0-9, or _
    if ((nextChar >= 65 && nextChar <= 90) ||   // A-Z
        (nextChar >= 97 && nextChar <= 122) ||  // a-z
        (nextChar >= 48 && nextChar <= 57) ||   // 0-9
        nextChar === 95) {                       // _
        return false;
    }
    return true;
};

/**
 * Check if block comment is a query hint (starts with +).
 * Hints look like: /--+ BROADCAST(t) --/  (using /*+ in actual SQL)
 */
SqlBaseLexer.prototype.isHint = function() {
    return this._input.LA(1) === 43; // '+'
};

/**
 * Check if >> is shift operator vs nested generic closing.
 * Inside MAP<K, ARRAY<V>>, the >> should be two separate > tokens.
 */
SqlBaseLexer.prototype.isShiftRightOperator = function() {
    return this.complex_type_level_counter === 0;
};

/**
 * Increment counter when entering complex type: MAP<, ARRAY<, STRUCT<
 */
SqlBaseLexer.prototype.incComplexTypeLevelCounter = function() {
    this.complex_type_level_counter++;
};

/**
 * Decrement counter when > closes a complex type.
 */
SqlBaseLexer.prototype.decComplexTypeLevelCounter = function() {
    if (this.complex_type_level_counter > 0) {
        this.complex_type_level_counter--;
    }
};

/**
 * Mark that an unclosed block comment was encountered (for error reporting).
 */
SqlBaseLexer.prototype.markUnclosedComment = function() {
    this.has_unclosed_bracketed_comment = true;
};

/**
 * Push dollar-quoted string tag onto stack.
 * For $tag$content$tag$, pushes " ++ [dquote] ++ "tag" ++ [dquote] ++ ".
 */
SqlBaseLexer.prototype.pushDollarTag = function() {
    this.dollar_tags.push(this.getText());
};

/**
 * Pop dollar-quoted string tag from stack.
 */
SqlBaseLexer.prototype.popDollarTag = function() {
    if (this.dollar_tags.length > 0) {
        this.dollar_tags.pop();
    }
};

/**
 * Check if current text matches tag on top of stack.
 */
SqlBaseLexer.prototype.matchesDollarTag = function() {
    if (this.dollar_tags.length === 0) return false;
    return this.getText() === this.dollar_tags[this.dollar_tags.length - 1];
};
".

Definition parser_predicates_js : str :=
  "

// ============================================================================
// Parser Predicate Implementations (from Java @members)
// Based on sparkfmt-core/KNOWN_PREDICATES.json
// ============================================================================

// Configuration flags (can be set before parsing to change behavior)
SqlBaseParser.prototype.legacy_setops_precedence_enabled = false;
SqlBaseParser.prototype.legacy_exponent_literal_as_decimal_enabled = false;
SqlBaseParser.prototype.SQL_standard_keyword_behavior = false;
SqlBaseParser.prototype.double_quoted_identifiers = false;
SqlBaseParser.prototype.parameter_substitution_enabled = true;
SqlBaseParser.prototype.legacy_identifier_clause_only = false;
SqlBaseParser.prototype.single_character_pipe_operator_enabled = true;

/**
 * Check if |> pipe operator is starting.
 * Looks ahead to see if PIPE is followed by GT.
 */
SqlBaseParser.prototype.isOperatorPipeStart = function() {
    // Check if next token after PIPE is GT (>)
    return this._input.LA(2) === SqlBaseParser.GT;
};
".

(** [content.rstrip()]: drop the whitespace at the end. *)
Fixpoint rstrip (content : str) : str :=
  match content with
  | [] => []
  | c :: s' =>
      match rstrip s' with
      | [] => if isspace c then [] else [c]
      | rest => c :: rest
      end
  end.

Definition add_predicate_implementations : M bool :=
  (* Process Lexer *)
  let lexer_path := InDir GENERATED_DIR "SqlBaseLexer.js" in
  found <~ exists_ lexer_path ;;
  if negb found then ret false
  else
    content <~ read_text lexer_path ;;
    let content := rstrip content ++ lexer_predicates_js in
    write_text lexer_path content ;;;
    (* Process Parser *)
    let parser_path := InDir GENERATED_DIR "SqlBaseParser.js" in
    found <~ exists_ parser_path ;;
    if negb found then ret false
    else
      content <~ read_text parser_path ;;
      let content := rstrip content ++ parser_predicates_js in
      write_text parser_path content ;;;
      ret true.

(** ** Coverage Verifier *)

Definition required_lexer_predicates : list str :=
  [ of_string "isValidDecimal"; of_string "isHint"; of_string "isShiftRightOperator";
    of_string "incComplexTypeLevelCounter"; of_string "decComplexTypeLevelCounter";
    of_string "markUnclosedComment"; of_string "pushDollarTag";
    of_string "popDollarTag"; of_string "matchesDollarTag" ].

Definition required_parser_predicates : list str :=
  [ of_string "isOperatorPipeStart" ].

Definition required_parser_flags : list str :=
  [ of_string "legacy_setops_precedence_enabled";
    of_string "legacy_exponent_literal_as_decimal_enabled";
    of_string "SQL_standard_keyword_behavior";
    of_string "double_quoted_identifiers";
    of_string "parameter_substitution_enabled";
    of_string "legacy_identifier_clause_only";
    of_string "single_character_pipe_operator_enabled" ].

Definition mem (x : str) (l : list str) : bool := existsb (str_eqb x) l.

(** [set(required) - impls], in the order of [required]. *)
Definition set_diff (required impls : list str) : list str :=
  filter (fun x => negb (mem x impls)) required.

Fixpoint starts_with (prefix s : str) : bool :=
  match prefix, s with
  | [], _ => true
  | a :: p', b :: s' => Ascii.eqb a b && starts_with p' s'
  | _ :: _, [] => false
  end.

(** [needle in haystack] *)
Fixpoint contains (needle haystack : str) : bool :=
  starts_with needle haystack
  || match haystack with
     | [] => false
     | _ :: h' => contains needle h'
     end.

Inductive issue :=
| LexerMissingImplementations (names : list str)
| ParserMissingMethodImplementations (names : list str)
| ParserMissingFlagDefinitions (names : list str).

Definition note (missing : list str) (mk : list str -> issue) : list issue :=
  match missing with [] => [] | _ => [mk missing] end.

(** The three sets [verify_predicates] computes from the two artifacts. *)
Definition missing_lexer (lexer_content : str) : outcome (list str) :=
  lexer_impls <- re_findall "SqlBaseLexer\.prototype\.(\w+)\s*=" lexer_content ;;
  Ret (set_diff required_lexer_predicates lexer_impls).

Definition missing_parser_predicates (parser_content : str) : outcome (list str) :=
  parser_impls <- re_findall "SqlBaseParser\.prototype\.(\w+)\s*=" parser_content ;;
  Ret (set_diff required_parser_predicates parser_impls).

Definition missing_parser_flags (parser_content : str) : list str :=
  filter (fun f => negb (contains ("prototype." ++ f) parser_content))
         required_parser_flags.

Definition verify_predicates : M bool :=
  let lexer_path := InDir GENERATED_DIR "SqlBaseLexer.js" in
  let parser_path := InDir GENERATED_DIR "SqlBaseParser.js" in
  (* Check lexer *)
  lexer_content <~ read_text lexer_path ;;
  missing_lexer <~ lift (missing_lexer lexer_content) ;;
  let issues := note missing_lexer LexerMissingImplementations in
  (* Check parser *)
  parser_content <~ read_text parser_path ;;
  missing_parser_predicates <~ lift (missing_parser_predicates parser_content) ;;
  let issues := issues ++ note missing_parser_predicates
                            ParserMissingMethodImplementations in
  (* Check parser flags are defined *)
  let missing_parser_flags := missing_parser_flags parser_content in
  let issues := issues ++ note missing_parser_flags ParserMissingFlagDefinitions in
  match issues with
  | _ :: _ => ret false
  | [] => ret true
  end.

(** ** Pipeline Driver *)

Definition steps : list (string * M bool) :=
  [ ("Transform grammar", transform_grammar);
    ("Generate JavaScript", generate_antlr);
    ("Add predicates", add_predicate_implementations);
    ("Verify coverage", verify_predicates) ]%string.

(** The loop of [main], with the record of the calls it makes: the name
    of each stage called and what the call gave. *)
Fixpoint run_steps (steps : list (string * M bool)) (w : world)
    : (outcome Z * world) * list (string * outcome bool) :=
  match steps with
  | [] => ((Ret 0%Z, w), [])
  | (name, func) :: rest =>
      let (r, w') := func w in
      match r with
      | Ret true =>
          let (res, calls) := run_steps rest w' in (res, (name, r) :: calls)
      | Ret false => ((Ret 1%Z, w'), [(name, r)])
      | Raise e => ((Raise e, w'), [(name, r)])
      | Unmodelled => ((Unmodelled, w'), [(name, r)])
      end
  end.

Definition main : M Z := fun w => fst (run_steps steps w).

Definition main_calls (w : world) : list (string * outcome bool) :=
  snd (run_steps steps w).

(** [sys.exit(main())]: the exit code of the process; an exception that
    nothing catches ends the interpreter with code 1. *)
Definition exit_code (w : world) : option Z :=
  match fst (main w) with
  | Ret n => Some n
  | Raise _ => Some 1%Z
  | Unmodelled => None
  end.

(** * Properties *)

(** ** The injection stage and the text it is given *)

Lemma rstrip_split (s : str) :
  exists ws, s = rstrip s ++ ws /\ Forall (fun c => isspace c = true) ws.
Proof.
  induction s as [|c s (ws & Hs & Hws)].
  - exists []. split; [reflexivity | constructor].
  - simpl. destruct (rstrip s) as [|d rest] eqn:E.
    + destruct (isspace c) eqn:Hc.
      * exists (c :: s). split; [reflexivity|].
        constructor; [exact Hc|]. simpl in Hs. rewrite Hs. exact Hws.
      * exists ws. simpl in *. split; [congruence | exact Hws].
    + exists ws. split; [|exact Hws]. simpl. f_equal. exact Hs.
Qed.


Definition lexer_js : path := InDir GENERATED_DIR "SqlBaseLexer.js".
Definition parser_js : path := InDir GENERATED_DIR "SqlBaseParser.js".

Lemma exists_found (w : world) (p : path) (f : file) :
  files w p = Some f -> exists_ p w = (Ret true, w).
Proof. intros H. unfold exists_. rewrite H. reflexivity. Qed.

Lemma read_text_found (w : world) (p : path) (c : str) :
  files w p = Some (Utf8 c) -> read_text p w = (Ret (universal_newlines c), w).
Proof. intros H. unfold read_text. rewrite H. reflexivity. Qed.

Lemma read_text_not_utf8 (w : world) (p : path) :
  files w p = Some NotUtf8 -> read_text p w = (Raise (UnicodeDecodeError p), w).
Proof. intros H. unfold read_text. rewrite H. reflexivity. Qed.

(** A text without CR is read as it is stored. *)
Lemma universal_newlines_id (s : str) : ~ In CR s -> universal_newlines s = s.
Proof.
  induction s as [|c s IH]; intros H; [reflexivity|].
  cbn [universal_newlines]. destruct (Ascii.eqb c CR) eqn:E.
  - apply Ascii.eqb_eq in E. subst c. exfalso. apply H. left. reflexivity.
  - f_equal. apply IH. intros Hin. apply H. right. exact Hin.
Qed.

(** No CR is left in a text as it is read. *)
Lemma universal_newlines_no_CR (s : str) : ~ In CR (universal_newlines s).
Proof.
  remember (List.length s) as n eqn:Hn. revert s Hn.
  induction n as [n IH] using lt_wf_ind. intros s Hn.
  destruct s as [|c s]; [intros []|].
  cbn [universal_newlines]. destruct (Ascii.eqb c CR) eqn:E.
  - intros [H|H]; [discriminate H|]. revert H.
    destruct s as [|d s]; [intros []|].
    destruct (Ascii.eqb d LF).
    + apply (IH (List.length s)); [subst n; simpl; lia | reflexivity].
    + apply (IH (List.length (d :: s))); [subst n; simpl; lia | reflexivity].
  - intros [H|H].
    + subst c. discriminate E.
    + revert H. apply (IH (List.length s)); [subst n; simpl; lia | reflexivity].
Qed.

Lemma path_eqb_refl p : path_eqb p p = true.
Proof. destruct p as [[| |] f|]; simpl; auto using String.eqb_refl. Qed.

Lemma path_eqb_eq p q : path_eqb p q = true -> p = q.
Proof.
  destruct p as [[| |] f|], q as [[| |] f'|]; simpl; try discriminate; auto;
    intros H; apply String.eqb_eq in H; congruence.
Qed.

Lemma files_write_same (w : world) (p : path) (c : str) :
  files (snd (write_text p c w)) p = Some (Utf8 c).
Proof. simpl. rewrite path_eqb_refl. reflexivity. Qed.

Lemma files_write_other (w : world) (p q : path) (c : str) :
  q <> p -> files (snd (write_text p c w)) q = files w q.
Proof.
  intros H. simpl. destruct (path_eqb q p) eqn:E; [|reflexivity].
  apply path_eqb_eq in E. contradiction.
Qed.

Lemma write_text_ret (w : world) (p : path) (c : str) :
  write_text p c w = (Ret tt, snd (write_text p c w)).
Proof. reflexivity. Qed.

Lemma add_predicate_implementations_run (w : world) (lexer parser : str) :
  files w lexer_js = Some (Utf8 lexer) ->
  files w parser_js = Some (Utf8 parser) ->
  exists w',
    add_predicate_implementations w = (Ret true, w')
    /\ files w' lexer_js
       = Some (Utf8 (rstrip (universal_newlines lexer) ++ lexer_predicates_js))
    /\ files w' parser_js
       = Some (Utf8 (rstrip (universal_newlines parser) ++ parser_predicates_js))
    /\ (forall p, p <> lexer_js -> p <> parser_js -> files w' p = files w p).
Proof.
  intros Hl Hp.
  assert (Hne : parser_js <> lexer_js) by discriminate.
  set (w1 := snd (write_text lexer_js
                    (rstrip (universal_newlines lexer) ++ lexer_predicates_js) w)).
  assert (Hp1 : files w1 parser_js = Some (Utf8 parser)).
  { unfold w1. rewrite files_write_other by exact Hne. exact Hp. }
  exists (snd (write_text parser_js
                 (rstrip (universal_newlines parser) ++ parser_predicates_js) w1)).
  split; [|split; [|split]].
  - unfold add_predicate_implementations.
    fold lexer_js. fold parser_js.
    unfold bindM at 1. rewrite (@exists_found _ _ _ Hl). cbn [negb].
    unfold bindM at 1. rewrite (@read_text_found _ _ _ Hl).
    unfold bindM at 1. rewrite write_text_ret. fold w1.
    unfold bindM at 1. rewrite (@exists_found _ _ _ Hp1). cbn [negb].
    unfold bindM at 1. rewrite (@read_text_found _ _ _ Hp1).
    unfold bindM at 1. rewrite write_text_ret. reflexivity.
  - rewrite files_write_other by (intro H; symmetry in H; contradiction).
    unfold w1. apply files_write_same.
  - apply files_write_same.
  - intros p H1 H2. rewrite files_write_other by exact H2.
    unfold w1. apply files_write_other. exact H1.
Qed.


Definition artifacts (lexer parser : str) : filesystem :=
  fun p => if path_eqb p lexer_js then Some (Utf8 lexer)
           else if path_eqb p parser_js then Some (Utf8 parser) else None.

(** No [java] to start: [subprocess.run] raises and no file changes. *)
Definition no_tool : filesystem -> outcome completed_process * filesystem :=
  fun fs => (Raise (FileNotFoundError ANTLR_JAR), fs).

(** A lexer artifact with the line ends CR LF and CR. *)
Definition crlf_lexer : str :=
  "lexer;" ++ CR :: LF :: "more;" ++ CR :: "end;" ++ CR :: LF :: "  ".


(** ** The verifier on a missing artifact *)

(** C3.  With no generated lexer artifact on disk, [verify_predicates]
    returns no status: the [FileNotFoundError] of [read_text] leaves the
    stage, where the other stages test [exists()] and return [False]. *)
Theorem verify_predicates_raises_on_missing_artifact :
  fst (verify_predicates {| files := fun _ => None; subprocess_run := no_tool |})
  = Raise (FileNotFoundError lexer_js)
  /\ fst (add_predicate_implementations
            {| files := fun _ => None; subprocess_run := no_tool |})
     = Ret false.
Proof. split; reflexivity. Qed.

(** ** The driver *)

Definition stage_names : list string :=
  ["Transform grammar"; "Generate JavaScript"; "Add predicates"; "Verify coverage"]%string.

Lemma run_steps_spec (l : list (string * M bool)) (w : world) :
  let calls := snd (run_steps l w) in
  let res := fst (fst (run_steps l w)) in
  map fst calls = firstn (List.length calls) (map fst l)
  /\ Forall (fun c => snd c = Ret true) (removelast calls)
  /\ ((exists name, In (name, Ret false) calls) -> res = Ret 1%Z)
  /\ (res = Ret 0%Z <->
      List.length calls = List.length l /\ Forall (fun c => snd c = Ret true) calls)
  /\ (forall e, res = Raise e <-> exists name, In (name, Raise e) calls)
  /\ (res = Unmodelled <-> exists name, In (name, Unmodelled) calls).
Proof.
  revert w. induction l as [|[name func] l IH]; intros w; cbn zeta.
  - simpl. repeat split; auto; try discriminate;
      try (intros (? & [])); try (intros ? (? & [])).
  - simpl. destruct (func w) as [r w'] eqn:Hf.
    destruct r as [[|]|e|].
    + specialize (IH w'). cbn zeta in IH.
      destruct (run_steps l w') as [[res w''] calls] eqn:Hr. simpl in *.
      destruct IH as (I1 & I2 & I3 & I4 & I5 & I6).
      split; [f_equal; exact I1|].
      split; [destruct calls; [constructor | constructor; [reflexivity | exact I2]]|].
      split; [intros (n & [H|H]); [discriminate | apply I3; eauto]|].
      split; [|split].
      * rewrite I4. split; intros (A & B); split; try lia.
        -- constructor; [reflexivity | exact B].
        -- inversion B; assumption.
      * intros e. rewrite I5. split; intros (n & H); [eauto|].
        destruct H as [H|H]; [discriminate | eauto].
      * rewrite I6. split; intros (n & H); [eauto|].
        destruct H as [H|H]; [discriminate | eauto].
    + simpl. repeat split; auto; try discriminate; try lia.
      * intros (_ & H). inversion H; subst. discriminate.
      * intros (n & [H|[]]). discriminate.
      * intros (n & [H|[]]). discriminate.
    + simpl. repeat split; auto; try discriminate; try lia.
      * intros (n & [H|[]]). discriminate.
      * intros (_ & H). inversion H; subst. discriminate.
      * intros H. inversion H; subst. eauto.
      * intros (n & [H|[]]). congruence.
      * intros (n & [H|[]]). discriminate.
    + simpl. repeat split; auto; try discriminate; try lia.
      * intros (n & [H|[]]). discriminate.
      * intros (_ & H). inversion H; subst. discriminate.
      * intros (n & [H|[]]). discriminate.
      * eauto.
Qed.

(** C8.  [main] calls the stages in the order Transform, Generate, Inject,
    Verify: the Grammar Transform Stage on the world [main] starts in, and
    each later stage on the world the stage before it left, when that
    stage returned [True]; after a stage that did not, no stage is called.
    A stage that returns [False] makes the exit code 1, and the exit code
    is 0 exactly when all four stages return [True]. *)
Theorem main_runs_stages_in_order (w : world) :
  let calls := main_calls w in
  let (r1, w1) := transform_grammar w in
  let (r2, w2) := generate_antlr w1 in
  let (r3, w3) := add_predicate_implementations w2 in
  let (r4, w4) := verify_predicates w3 in
  let c1 := ("Transform grammar"%string, r1) in
  let c2 := ("Generate JavaScript"%string, r2) in
  let c3 := ("Add predicates"%string, r3) in
  let c4 := ("Verify coverage"%string, r4) in
  map fst calls = firstn (List.length calls) stage_names
  /\ (r1 <> Ret true /\ calls = [c1] /\ snd (main w) = w1
      \/ r1 = Ret true /\ r2 <> Ret true
         /\ calls = [c1; c2] /\ snd (main w) = w2
      \/ r1 = Ret true /\ r2 = Ret true /\ r3 <> Ret true
         /\ calls = [c1; c2; c3] /\ snd (main w) = w3
      \/ r1 = Ret true /\ r2 = Ret true /\ r3 = Ret true
         /\ calls = [c1; c2; c3; c4] /\ snd (main w) = w4)
  /\ Forall (fun c => snd c = Ret true) (removelast calls)
  /\ ((exists name, In (name, Ret false) calls) ->
      fst (main w) = Ret 1%Z /\ exit_code w = Some 1%Z)
  /\ (exit_code w = Some 0%Z <->
      r1 = Ret true /\ r2 = Ret true /\ r3 = Ret true /\ r4 = Ret true)
  /\ (exit_code w = Some 0%Z <->
      List.length calls = 4 /\ Forall (fun c => snd c = Ret true) calls).
Proof.
  cbn zeta.
  pose proof (run_steps_spec steps w) as H. cbn zeta in H.
  destruct H as (H1 & H2 & H3 & H4 & H5 & H6).
  assert (X0 : exit_code w = Some 0%Z <-> fst (fst (run_steps steps w)) = Ret 0%Z).
  { unfold exit_code, main.
    destruct (fst (fst (run_steps steps w))) as [n|e|];
      split; intros H; try discriminate; congruence. }
  revert H1 H2 H3 H4 X0. unfold main_calls, exit_code, main, steps. cbn [run_steps].
  destruct (transform_grammar w) as [r1 w1].
  destruct (generate_antlr w1) as [r2 w2].
  destruct (add_predicate_implementations w2) as [r3 w3].
  destruct (verify_predicates w3) as [r4 w4].
  intros H1 H2 H3 H4 X0.
  split; [exact H1|]. split; [|split; [exact H2|split; [|split; [|rewrite <- H4; exact X0]]]].
  - clear. destruct r1 as [[|]|e1|];
      try (left; split; [discriminate | split; reflexivity]).
    right. destruct r2 as [[|]|e2|];
      try (left; split; [reflexivity|]; split; [discriminate | split; reflexivity]).
    right. destruct r3 as [[|]|e3|];
      try (left; split; [reflexivity|]; split; [reflexivity|];
           split; [discriminate | split; reflexivity]).
    right. do 3 (split; [reflexivity|]).
    destruct r4 as [[|]|e4|]; split; reflexivity.
  - intros Hf. rewrite (H3 Hf). split; reflexivity.
  - rewrite X0. clear.
    destruct r1 as [[|]|e1|]; cbn [fst];
      try (split; [discriminate | intros (A & _); discriminate A]).
    destruct r2 as [[|]|e2|]; cbn [fst];
      try (split; [discriminate | intros (_ & A & _); discriminate A]).
    destruct r3 as [[|]|e3|]; cbn [fst];
      try (split; [discriminate | intros (_ & _ & A & _); discriminate A]).
    destruct r4 as [[|]|e4|]; cbn [fst];
      try (split; [discriminate | intros (_ & _ & _ & A); discriminate A]).
    split; [intros _; repeat split | reflexivity].
Qed.

(** ** The two passes on a grammar text *)

(** C7.  On the text [@members {int x;}], a newline,
    [foo : {isHint()}? BAR ;], stripping the [members] block leaves
    [foo : {isHint()}? BAR ;], the block and the newline after it gone,
    and the Call Rewriter then gives [foo : {this.isHint()}? BAR ;]. *)
Theorem strip_members_then_rewrite :
  remove_block "@members {int x;}
foo : {isHint()}? BAR ;" "members" = Ret (of_string "foo : {isHint()}? BAR ;")
  /\ (content <- remove_block "@members {int x;}
foo : {isHint()}? BAR ;" "members" ;; transform_predicates_for_js content)
     = Ret (of_string "foo : {this.isHint()}? BAR ;").
Proof. split; vm_compute; reflexivity. Qed.

(** ** Facts about the matcher *)

Definition all_chars : list ascii := map ascii_of_nat (List.seq 0 256).

Lemma all_chars_complete (c : ascii) : In c all_chars.
Proof.
  unfold all_chars. rewrite <- (ascii_nat_embedding c).
  apply in_map, in_seq. pose proof (nat_ascii_bounded c). lia.
Qed.

Definition disjoint (A B : ascii -> bool) : bool :=
  forallb (fun c => negb (A c && B c)) all_chars.

Lemma disjoint_spec A B c : disjoint A B = true -> A c = true -> B c = false.
Proof.
  unfold disjoint. rewrite forallb_forall. intros H HA.
  specialize (H c (all_chars_complete c)). rewrite HA in H.
  destruct (B c); [discriminate | reflexivity].
Qed.

Fixpoint nullable (r : regex) : bool :=
  match r with
  | Eps | Star _ | Opt _ => true
  | One _ | Plus _ => false
  | Group _ r' => nullable r'
  | Cat r1 r2 => nullable r1 && nullable r2
  end.

(** The characters a match of [r] can start with. *)
Fixpoint first (r : regex) (c : ascii) : bool :=
  match r with
  | Eps => false
  | One cs | Star cs | Plus cs => charset_mem cs c
  | Opt r' | Group _ r' => first r' c
  | Cat r1 r2 => first r1 c || (nullable r1 && first r2 c)
  end.

Fixpoint drop_while (cs : charset) (s : str) : str :=
  match s with
  | c :: s' => if charset_mem cs c then drop_while cs s' else s
  | [] => []
  end.

(** The matcher without backtracking: every quantifier takes all it can. *)
Fixpoint dmatch (r : regex) (s : str) (g : groups) : option (str * groups) :=
  match r with
  | Eps => Some (s, g)
  | One cs =>
      match s with
      | c :: s' => if charset_mem cs c then Some (s', g) else None
      | [] => None
      end
  | Star cs => Some (drop_while cs s, g)
  | Plus cs =>
      match s with
      | c :: s' => if charset_mem cs c then Some (drop_while cs s', g) else None
      | [] => None
      end
  | Opt r' =>
      match dmatch r' s g with
      | Some x => Some x
      | None => Some (s, g)
      end
  | Group n r' =>
      match dmatch r' s g with
      | Some (s', g') => Some (s', (n, firstn (List.length s - List.length s') s) :: g')
      | None => None
      end
  | Cat r1 r2 =>
      match dmatch r1 s g with
      | Some (s', g') => dmatch r2 s' g'
      | None => None
      end
  end.

(** What is known of a continuation: it never fails ([None]), or it fails
    on every text that starts outside [F]. *)
Definition follow := option (ascii -> bool).

Definition follow_of (r : regex) (fl : follow) : follow :=
  if nullable r then option_map (fun F c => first r c || F c) fl
  else Some (first r).

(** Patterns on which the first choice of every quantifier is the only
    one that can succeed. *)
Fixpoint det (r : regex) (fl : follow) : bool :=
  match r with
  | Eps | One _ => true
  | Star cs | Plus cs =>
      match fl with None => true | Some F => disjoint (charset_mem cs) F end
  | Opt r' =>
      det r' fl
      && match fl with
         | None => true
         | Some F => negb (nullable r') && disjoint (first r') F
         end
  | Group _ r' => det r' fl
  | Cat r1 r2 => det r2 fl && det r1 (follow_of r2 fl)
  end.

Section MatcherFacts.
Variable R : Type.
Implicit Types (k : str -> groups -> option R) (r : regex) (s : str) (g : groups).

Definition describes (fl : follow) k : Prop :=
  match fl with
  | None => forall s g, k s g <> None
  | Some F => forall c s g, F c = false -> k (c :: s) g = None
  end.

Lemma matcher_first r : forall c s g k,
  first r c = false ->
  (nullable r = false \/ forall g', k (c :: s) g' = None) ->
  matcher r (c :: s) g k = None.
Proof.
  induction r as [|cs|cs|cs|r IH|n r IH|r1 IH1 r2 IH2];
    intros c s g k Hf Hk; simpl in *.
  - destruct Hk as [Hk|Hk]; [discriminate | apply Hk].
  - rewrite Hf. reflexivity.
  - rewrite Hf. destruct Hk as [Hk|Hk]; [discriminate | apply Hk].
  - rewrite Hf. reflexivity.
  - destruct Hk as [Hk|Hk]; [discriminate|].
    rewrite IH by auto. apply Hk.
  - apply IH; [exact Hf|]. destruct Hk as [Hk|Hk]; [left; exact Hk|].
    right. intros g'. apply Hk.
  - apply orb_false_iff in Hf. destruct Hf as [Hf1 Hf2].
    apply IH1; [exact Hf1|].
    destruct (nullable r1); [right | left; reflexivity].
    simpl in *. intros g'. apply IH2; assumption.
Qed.

Lemma star_total cs s (K : str -> option R) :
  (forall s', K s' <> None) -> star cs s K <> None.
Proof.
  intros HK. induction s as [|c s IH]; simpl; [apply HK|].
  destruct (charset_mem cs c); [|apply HK].
  destruct (star cs s K); [discriminate | contradiction].
Qed.

Lemma matcher_total r : forall s g k,
  nullable r = true -> (forall s' g', k s' g' <> None) ->
  matcher r s g k <> None.
Proof.
  induction r as [|cs|cs|cs|r IH|n r IH|r1 IH1 r2 IH2];
    intros s g k Hn Hk; simpl in *; try discriminate.
  - apply Hk.
  - apply star_total. intros s'. apply Hk.
  - destruct (matcher r s g k); [discriminate | apply Hk].
  - apply IH; [exact Hn|]. intros s' g'. apply Hk.
  - apply andb_true_iff in Hn. destruct Hn as [H1 H2].
    apply IH1; [exact H1|]. intros s' g'. apply IH2; assumption.
Qed.

Lemma describes_follow r fl k :
  describes fl k -> describes (follow_of r fl) (fun s g => matcher r s g k).
Proof.
  unfold follow_of. intros Hk. destruct (nullable r) eqn:Hn.
  - destruct fl as [F|]; simpl in *.
    + intros c s g Hc. apply orb_false_iff in Hc. destruct Hc as [H1 H2].
      apply matcher_first; [exact H1|]. right. intros g'. apply Hk. exact H2.
    + intros s g. apply matcher_total; assumption.
  - simpl. intros c s g Hc. apply matcher_first; auto.
Qed.

Lemma star_drop cs fl (K : str -> option R) s :
  match fl with
  | None => forall s', K s' <> None
  | Some F => disjoint (charset_mem cs) F = true
              /\ forall c s', F c = false -> K (c :: s') = None
  end ->
  star cs s K = K (drop_while cs s).
Proof.
  intros H. induction s as [|c s IH]; simpl; [reflexivity|].
  destruct (charset_mem cs c) eqn:Hc; [|reflexivity].
  rewrite IH. destruct (K (drop_while cs s)) eqn:E; [reflexivity|].
  destruct fl as [F|].
  - destruct H as [Hd HK]. apply HK. eapply disjoint_spec; eassumption.
  - exfalso. eapply H. eassumption.
Qed.

Lemma dmatch_first r : forall s g s' g',
  dmatch r s g = Some (s', g') ->
  (nullable r = true /\ s' = s)
  \/ exists c s0, s = c :: s0 /\ first r c = true.
Proof.
  induction r as [|cs|cs|cs|r IH|n r IH|r1 IH1 r2 IH2];
    intros s g s' g' H; simpl in *.
  - inversion H; subst. left. auto.
  - destruct s as [|c s]; [discriminate|].
    destruct (charset_mem cs c) eqn:Hc; [|discriminate]. right. eauto.
  - destruct s as [|c s]; [left; inversion H; auto|].
    simpl in H. destruct (charset_mem cs c) eqn:Hc.
    + right. eauto.
    + left. inversion H; auto.
  - destruct s as [|c s]; [discriminate|].
    destruct (charset_mem cs c) eqn:Hc; [|discriminate]. right. eauto.
  - destruct (dmatch r s g) as [[s1 g1]|] eqn:E.
    + inversion H; subst. destruct (IH _ _ _ _ E) as [[_ ->]|Hr]; auto.
    + inversion H; subst. left. auto.
  - destruct (dmatch r s g) as [[s1 g1]|] eqn:E; [|discriminate].
    inversion H; subst. exact (IH _ _ _ _ E).
  - destruct (dmatch r1 s g) as [[s1 g1]|] eqn:E; [|discriminate].
    destruct (IH1 _ _ _ _ E) as [[Hn ->]|(c & s0 & -> & Hc)].
    + rewrite Hn. destruct (IH2 _ _ _ _ H) as [[Hn2 ->]|(c & s0 & -> & Hc)].
      * left. auto.
      * right. exists c, s0. rewrite Hc, orb_true_r. auto.
    + right. exists c, s0. rewrite Hc. auto.
Qed.

(** On a pattern that needs no backtracking the matcher is [dmatch]
    followed by the continuation. *)
Theorem matcher_det r : forall fl k s g,
  det r fl = true -> describes fl k ->
  matcher r s g k =
  match dmatch r s g with
  | Some (s', g') => k s' g'
  | None => None
  end.
Proof.
  induction r as [|cs|cs|cs|r IH|n r IH|r1 IH1 r2 IH2];
    intros fl k s g Hd Hk; simpl in *.
  - reflexivity.
  - destruct s as [|c s]; [reflexivity|]. destruct (charset_mem cs c); reflexivity.
  - apply (star_drop cs fl (fun s' => k s' g)).
    destruct fl as [F|]; simpl in *; [split; [exact Hd|]|]; intros; apply Hk; auto.
  - destruct s as [|c s]; [reflexivity|].
    destruct (charset_mem cs c); [|reflexivity].
    apply (star_drop cs fl (fun s' => k s' g)).
    destruct fl as [F|]; simpl in *; [split; [exact Hd|]|]; intros; apply Hk; auto.
  - apply andb_true_iff in Hd. destruct Hd as [Hd1 Hd2].
    rewrite (IH fl k s g Hd1 Hk).
    destruct (dmatch r s g) as [[s1 g1]|] eqn:E; [|reflexivity].
    destruct (k s1 g1) eqn:Ek; [reflexivity|].
    destruct fl as [F|]; simpl in Hk.
    + apply andb_true_iff in Hd2. destruct Hd2 as [Hn Hdis].
      apply negb_true_iff in Hn.
      destruct (dmatch_first _ _ _ E) as [[Hn' _]|(c & s0 & -> & Hc)];
        [congruence|].
      apply Hk. eapply disjoint_spec; eassumption.
    + exfalso. eapply Hk. eassumption.
  - rewrite (IH fl (fun s' g' => k s' ((n, firstn (List.length s - List.length s') s) :: g')) s g Hd).
    + destruct (dmatch r s g) as [[s1 g1]|]; reflexivity.
    + destruct fl as [F|]; simpl in *; intros; apply Hk; auto.
  - apply andb_true_iff in Hd. destruct Hd as [Hd2 Hd1].
    rewrite (IH1 (follow_of r2 fl) _ s g Hd1 (describes_follow r2 fl k Hk)).
    destruct (dmatch r1 s g) as [[s1 g1]|]; [|reflexivity].
    apply (IH2 fl); assumption.
Qed.
End MatcherFacts.

Lemma match_at_det r s :
  det r None = true ->
  match_at r s =
  match dmatch r s [] with
  | Some (s', g') => Some {| m_end := List.length s - List.length s'; m_groups := g' |}
  | None => None
  end.
Proof.
  intros Hd. unfold match_at. apply (matcher_det r None); [exact Hd|].
  simpl. discriminate.
Qed.

(** The texts a pattern matches and the groups a match binds. *)
Inductive Sem : regex -> str -> groups -> Prop :=
| S_eps : Sem Eps [] []
| S_one cs c : charset_mem cs c = true -> Sem (One cs) [c] []
| S_star cs x :
    Forall (fun c => charset_mem cs c = true) x -> Sem (Star cs) x []
| S_plus cs c x :
    charset_mem cs c = true ->
    Forall (fun c => charset_mem cs c = true) x -> Sem (Plus cs) (c :: x) []
| S_opt_some r x gs : Sem r x gs -> Sem (Opt r) x gs
| S_opt_none r : Sem (Opt r) [] []
| S_group n r x gs : Sem r x gs -> Sem (Group n r) x ((n, x) :: gs)
| S_cat r1 r2 x1 x2 gs1 gs2 :
    Sem r1 x1 gs1 -> Sem r2 x2 gs2 -> Sem (Cat r1 r2) (x1 ++ x2) (gs2 ++ gs1).

Lemma drop_while_split cs s :
  exists x, s = x ++ drop_while cs s
            /\ Forall (fun c => charset_mem cs c = true) x.
Proof.
  induction s as [|c s (x & Hx & Hf)]; simpl.
  - exists []. auto.
  - destruct (charset_mem cs c) eqn:Hc.
    + exists (c :: x). split; [simpl; f_equal; exact Hx | auto].
    + exists []. auto.
Qed.

Lemma firstn_consumed (x s' : str) :
  firstn (List.length (x ++ s') - List.length s') (x ++ s') = x.
Proof.
  rewrite length_app, Nat.add_sub.
  rewrite firstn_app, Nat.sub_diag, firstn_all. simpl. apply app_nil_r.
Qed.

Lemma dmatch_sem r : forall s g s' g',
  dmatch r s g = Some (s', g') ->
  exists x gs, s = x ++ s' /\ g' = gs ++ g /\ Sem r x gs.
Proof.
  induction r as [|cs|cs|cs|r IH|n r IH|r1 IH1 r2 IH2];
    intros s g s' g' H; simpl in H.
  - inversion H; subst. exists [], []. repeat split. constructor.
  - destruct s as [|c s]; [discriminate|].
    destruct (charset_mem cs c) eqn:Hc; [|discriminate].
    inversion H; subst. exists [c], []. repeat split. constructor. exact Hc.
  - inversion H; subst. destruct (drop_while_split cs s) as (x & Hx & Hf).
    exists x, []. repeat split; [exact Hx | constructor; exact Hf].
  - destruct s as [|c s]; [discriminate|].
    destruct (charset_mem cs c) eqn:Hc; [|discriminate].
    inversion H; subst. destruct (drop_while_split cs s) as (x & Hx & Hf).
    exists (c :: x), []. repeat split; [simpl; f_equal; exact Hx|].
    constructor; assumption.
  - destruct (dmatch r s g) as [[s1 g1]|] eqn:E.
    + inversion H; subst. destruct (IH _ _ _ _ E) as (x & gs & -> & -> & Hs).
      exists x, gs. repeat split. constructor. exact Hs.
    + inversion H; subst. exists [], []. repeat split. apply S_opt_none.
  - destruct (dmatch r s g) as [[s1 g1]|] eqn:E; [|discriminate].
    inversion H; subst. destruct (IH _ _ _ _ E) as (x & gs & -> & -> & Hs).
    rewrite firstn_consumed.
    exists x, ((n, x) :: gs). repeat split. constructor. exact Hs.
  - destruct (dmatch r1 s g) as [[s1 g1]|] eqn:E; [|discriminate].
    destruct (IH1 _ _ _ _ E) as (x1 & gs1 & -> & -> & Hs1).
    destruct (IH2 _ _ _ _ H) as (x2 & gs2 & -> & -> & Hs2).
    exists (x1 ++ x2), (gs2 ++ gs1).
    rewrite <- !app_assoc. repeat split. constructor; assumption.
Qed.

Lemma sem_nonempty r x gs : Sem r x gs -> nullable r = false -> x <> [].
Proof.
  induction 1; simpl; intros Hn; try discriminate;
    try (intros E; discriminate E); auto.
  apply andb_false_iff in Hn. intros E. apply app_eq_nil in E.
  destruct E as [E1 E2]. destruct Hn as [Hn|Hn]; [apply (IHSem1 Hn E1) | apply (IHSem2 Hn E2)].
Qed.

(** *** How far a match looks *)

(** Patterns for exactly one character. *)
Fixpoint single (r : regex) : bool :=
  match r with
  | One _ => true
  | Group _ r' => single r'
  | Cat r1 Eps => single r1
  | _ => false
  end.

(** Patterns whose match is decided by the text matched and the one
    character after it. *)
Fixpoint simple (r : regex) : bool :=
  match r with
  | Eps | One _ | Star _ | Plus _ => true
  | Opt r' => single r'
  | Group _ r' => simple r'
  | Cat r1 r2 => simple r1 && simple r2
  end.

(** Patterns whose match is decided by the text matched alone. *)
Fixpoint closed (r : regex) : bool :=
  match r with
  | Eps | One _ => true
  | Star _ | Plus _ | Opt _ => false
  | Group _ r' => closed r'
  | Cat r1 r2 => simple r1 && closed r2 && (negb (nullable r2) || closed r1)
  end.

Lemma single_fail r : forall y1 y2 g,
  single r = true -> hd_error y1 = hd_error y2 ->
  dmatch r y1 g = None -> dmatch r y2 g = None.
Proof.
  induction r as [|cs|cs|cs|r IH|n r IH|r1 IH1 r2 IH2];
    intros y1 y2 g Hs Hh H; simpl in *; try discriminate.
  - destruct y1 as [|c1 y1], y2 as [|c2 y2]; try discriminate; auto.
    inversion Hh; subst. destruct (charset_mem cs c2); [discriminate | reflexivity].
  - destruct (dmatch r y1 g) as [[s1 g1]|] eqn:E; [discriminate|].
    rewrite (IH _ _ _ Hs Hh E). reflexivity.
  - destruct r2; try discriminate.
    destruct (dmatch r1 y1 g) as [[s1 g1]|] eqn:E; [discriminate|].
    rewrite (IH1 _ _ _ Hs Hh E). reflexivity.
Qed.

Lemma single_simple r : single r = true -> simple r = true.
Proof.
  induction r as [|cs|cs|cs|r IH|n r IH|r1 IH1 r2 IH2]; simpl; auto;
    try discriminate.
  destruct r2; try discriminate. intros H. rewrite IH1 by exact H. reflexivity.
Qed.

Lemma drop_while_fix cs (x y : str) :
  drop_while cs (x ++ y) = y ->
  Forall (fun c => charset_mem cs c = true) x /\ drop_while cs y = y.
Proof.
  induction x as [|c x IH]; simpl; intros H; [auto|].
  destruct (charset_mem cs c) eqn:Hc.
  - destruct (IH H). auto.
  - exfalso. apply (f_equal (@List.length ascii)) in H.
    simpl in H. rewrite length_app in H. lia.
Qed.

Lemma drop_while_length cs s : List.length (drop_while cs s) <= List.length s.
Proof.
  induction s as [|c s IH]; simpl; auto. destruct (charset_mem cs c); simpl; lia.
Qed.

Lemma drop_while_head cs (y1 y2 : str) :
  hd_error y1 = hd_error y2 -> drop_while cs y1 = y1 -> drop_while cs y2 = y2.
Proof.
  destruct y1 as [|c1 y1], y2 as [|c2 y2]; simpl; try discriminate; auto.
  intros Hh H. inversion Hh; subst. destruct (charset_mem cs c2); [|reflexivity].
  exfalso. pose proof (drop_while_length cs y1) as L. rewrite H in L. simpl in L. lia.
Qed.

Lemma drop_while_app cs (x y : str) :
  Forall (fun c => charset_mem cs c = true) x ->
  drop_while cs (x ++ y) = drop_while cs y.
Proof.
  induction 1 as [|c x Hc _ IH]; simpl; [reflexivity|]. rewrite Hc. exact IH.
Qed.

Lemma hd_error_app (x y1 y2 : str) :
  hd_error y1 = hd_error y2 -> hd_error (x ++ y1) = hd_error (x ++ y2).
Proof. destruct x; simpl; auto. Qed.

Lemma length_app_same (x y : str) : x ++ y = y -> x = [].
Proof.
  intros H. apply (f_equal (@List.length ascii)) in H. rewrite length_app in H.
  destruct x; [reflexivity | simpl in H; lia].
Qed.

Lemma dmatch_look r : forall x y1 y2 g g',
  simple r = true -> hd_error y1 = hd_error y2 ->
  dmatch r (x ++ y1) g = Some (y1, g') ->
  dmatch r (x ++ y2) g = Some (y2, g').
Proof.
  induction r as [|cs|cs|cs|r IH|n r IH|r1 IH1 r2 IH2];
    intros x y1 y2 g g' Hs Hh H; simpl in *.
  - injection H as E1 E2. apply length_app_same in E1. subst. reflexivity.
  - destruct x as [|c x]; simpl in *.
    + exfalso. destruct y1 as [|c y1]; [discriminate|].
      destruct (charset_mem cs c); [|discriminate].
      injection H as E _. apply (f_equal (@List.length ascii)) in E. simpl in E. lia.
    + destruct (charset_mem cs c); [|discriminate].
      injection H as E1 E2. apply length_app_same in E1. subst. reflexivity.
  - injection H as E1 E2. apply drop_while_fix in E1. destruct E1 as [Hf Hy].
    rewrite drop_while_app by exact Hf.
    rewrite (@drop_while_head cs _ _ Hh Hy). subst. reflexivity.
  - destruct x as [|c x]; simpl in *.
    + exfalso. destruct y1 as [|c y1]; [discriminate|].
      destruct (charset_mem cs c); [|discriminate].
      injection H as E _. pose proof (drop_while_length cs y1) as L.
      rewrite E in L. simpl in L. lia.
    + destruct (charset_mem cs c); [|discriminate].
      injection H as E1 E2. apply drop_while_fix in E1. destruct E1 as [Hf Hy].
      rewrite drop_while_app by exact Hf.
      rewrite (@drop_while_head cs _ _ Hh Hy). subst. reflexivity.
  - destruct (dmatch r (x ++ y1) g) as [[s1 g1]|] eqn:E.
    + inversion H; subst.
      rewrite (IH _ _ _ _ _ (@single_simple _ Hs) Hh E). reflexivity.
    + injection H as E1 E2. apply length_app_same in E1. subst. simpl in *.
      rewrite (@single_fail _ _ _ _ Hs Hh E). reflexivity.
  - destruct (dmatch r (x ++ y1) g) as [[s1 g1]|] eqn:E; [|discriminate].
    inversion H; subst. rewrite (IH _ _ _ _ _ Hs Hh E).
    rewrite !firstn_consumed. reflexivity.
  - apply andb_true_iff in Hs. destruct Hs as [Hs1 Hs2].
    destruct (dmatch r1 (x ++ y1) g) as [[s1 g1]|] eqn:E; [|discriminate].
    destruct (@dmatch_sem _ _ _ _ _ E) as (x1 & gs1 & E1 & -> & _).
    destruct (@dmatch_sem _ _ _ _ _ H) as (x2 & gs2 & -> & _ & _).
    rewrite app_assoc in E1. apply app_inv_tail in E1. subst x.
    rewrite <- app_assoc in *.
    rewrite (IH1 x1 (x2 ++ y1) (x2 ++ y2) g (gs1 ++ g) Hs1 (@hd_error_app x2 _ _ Hh) E).
    apply (IH2 _ _ _ _ _ Hs2 Hh H).
Qed.

Lemma closed_simple r : closed r = true -> simple r = true.
Proof.
  induction r as [|cs|cs|cs|r IH|n r IH|r1 IH1 r2 IH2]; simpl; auto;
    try discriminate.
  intros H. apply andb_true_iff in H. destruct H as [H _].
  apply andb_true_iff in H. destruct H as [H1 H2]. rewrite H1, IH2; auto.
Qed.

Lemma hd_error_app_nonempty (x y1 y2 : str) :
  x <> [] -> hd_error (x ++ y1) = hd_error (x ++ y2).
Proof. destruct x; simpl; [contradiction | reflexivity]. Qed.

(** A match of a closed pattern is the same whatever follows it. *)
Lemma dmatch_closed r : forall x y1 y2 g g',
  closed r = true ->
  dmatch r (x ++ y1) g = Some (y1, g') ->
  dmatch r (x ++ y2) g = Some (y2, g').
Proof.
  induction r as [|cs|cs|cs|r IH|n r IH|r1 IH1 r2 IH2];
    intros x y1 y2 g g' Hc H; simpl in *; try discriminate.
  - injection H as E1 E2. apply length_app_same in E1. subst. reflexivity.
  - destruct x as [|c x]; simpl in *.
    + exfalso. destruct y1 as [|c y1]; [discriminate|].
      destruct (charset_mem cs c); [|discriminate].
      injection H as E _. apply (f_equal (@List.length ascii)) in E. simpl in E. lia.
    + destruct (charset_mem cs c); [|discriminate].
      injection H as E1 E2. apply length_app_same in E1. subst. reflexivity.
  - destruct (dmatch r (x ++ y1) g) as [[s1 g1]|] eqn:E; [|discriminate].
    inversion H; subst. rewrite (IH _ _ _ _ _ Hc E).
    rewrite !firstn_consumed. reflexivity.
  - apply andb_true_iff in Hc. destruct Hc as [Hc Hn].
    apply andb_true_iff in Hc. destruct Hc as [Hs1 Hc2].
    destruct (dmatch r1 (x ++ y1) g) as [[s1 g1]|] eqn:E; [|discriminate].
    destruct (@dmatch_sem _ _ _ _ _ E) as (x1 & gs1 & E1 & -> & _).
    destruct (@dmatch_sem _ _ _ _ _ H) as (x2 & gs2 & -> & _ & Hsem2).
    rewrite app_assoc in E1. apply app_inv_tail in E1. subst x.
    rewrite <- app_assoc in *.
    assert (E' : dmatch r1 (x1 ++ x2 ++ y2) g = Some (x2 ++ y2, gs1 ++ g)).
    { destruct (nullable r2) eqn:Hn2; simpl in Hn.
      - apply (IH1 _ _ _ _ _ Hn E).
      - apply (@dmatch_look r1 x1 (x2 ++ y1) (x2 ++ y2) g _ Hs1); [|exact E].
        apply hd_error_app_nonempty. eapply sem_nonempty; eassumption. }
    rewrite E'. apply (IH2 _ _ _ _ _ Hc2 H).
Qed.

Lemma match_at_sem r s mo :
  det r None = true -> match_at r s = Some mo ->
  exists x s', s = x ++ s' /\ m_end mo = List.length x /\ Sem r x (m_groups mo).
Proof.
  intros Hd H. rewrite (@match_at_det r s Hd) in H.
  destruct (dmatch r s []) as [[s' g']|] eqn:E; [|discriminate].
  inversion H; subst; clear H. simpl.
  destruct (@dmatch_sem _ _ _ _ _ E) as (x & gs & Hx & Hg & Hs).
  rewrite app_nil_r in Hg. subst g' s.
  exists x, s'. rewrite length_app, Nat.add_sub. auto.
Qed.

Lemma match_at_closed r x y1 y2 mo :
  det r None = true -> closed r = true ->
  match_at r (x ++ y1) = Some mo -> m_end mo = List.length x ->
  match_at r (x ++ y2) = Some mo.
Proof.
  intros Hd Hc H Hl. rewrite (@match_at_det r (x ++ y1) Hd) in H.
  rewrite (@match_at_det r (x ++ y2) Hd).
  destruct (dmatch r (x ++ y1) []) as [[s' g']|] eqn:E; [|discriminate].
  inversion H; subst; clear H. simpl in Hl.
  destruct (@dmatch_sem _ _ _ _ _ E) as (x' & gs & Ex & Hg & Hs).
  assert (x' = x).
  { assert (List.length x' = List.length x).
    { apply (f_equal (@List.length ascii)) in Ex. rewrite !length_app in *. lia. }
    apply (f_equal (firstn (List.length x))) in Ex.
    rewrite firstn_app, Nat.sub_diag, firstn_all in Ex. simpl in Ex.
    rewrite app_nil_r in Ex. rewrite Ex, <- H.
    rewrite firstn_app, Nat.sub_diag, firstn_all. simpl. rewrite app_nil_r. reflexivity. }
  subst x'. apply app_inv_head in Ex. subst s'.
  rewrite (@dmatch_closed r x y1 y2 [] _ Hc E).
  rewrite !length_app, !Nat.add_sub. reflexivity.
Qed.

Definition pattern_of (pattern : str) : regex :=
  match re_compile pattern with Compiled r => r | _ => Eps end.

Ltac inv_sem :=
  repeat match goal with
  | H : Sem (Cat _ _) _ _ |- _ => inversion H; clear H; subst
  | H : Sem (One _) _ _ |- _ => inversion H; clear H; subst
  | H : Sem (Group _ _) _ _ |- _ => inversion H; clear H; subst
  | H : Sem Eps _ _ |- _ => inversion H; clear H; subst
  | H : Sem (Opt _) _ _ |- _ => inversion H; clear H; subst
  | H : Sem (Plus _) _ _ |- _ => inversion H; clear H; subst
  | H : Sem (Star _) _ _ |- _ => inversion H; clear H; subst
  | H : charset_mem (CChar _) _ = true |- _ => apply Ascii.eqb_eq in H; subst
  | H : Ascii.eqb _ _ = true |- _ => apply Ascii.eqb_eq in H; subst
  end.

(** ** Brace fragments *)

Definition brace (c : ascii) : bool := Ascii.eqb c "{" || Ascii.eqb c "}".

Definition nobrace (s : str) : Prop := Forall (fun c => brace c = false) s.

Definition nospace (s : str) : Prop := Forall (fun c => isspace c = false) s.

(** [{body}] *)
Definition frag (body : str) : str := "{"%char :: body ++ ["}"%char].
Arguments frag : simpl never.

Definition qtail (q : bool) : str := if q then ["?"%char] else [].

Definition starts_q (s : str) : bool :=
  match s with
  | c :: _ => Ascii.eqb c "?"
  | [] => false
  end.

(** The first brace of a text. *)
Fixpoint first_brace (s : str) : option ascii :=
  match s with
  | [] => None
  | c :: s' => if brace c then Some c else first_brace s'
  end.

(** A body that starts with [this.] or [!this.]. *)
Definition thisform (body : str) : Prop :=
  (exists b, body = "this." ++ b) \/ (exists b, body = "!this." ++ b).

(** A text cut into the fragments [{body}], each with the [?] that
    follows it, and the characters between them. *)
Inductive token :=
| TChr (c : ascii)
| TFrag (body : str) (q : bool).

Definition untok (t : token) : str :=
  match t with
  | TChr c => [c]
  | TFrag body q => frag body ++ qtail q
  end.

Definition untoks (ts : list token) : str := flat_map untok ts.

Inductive Toks : str -> list token -> Prop :=
| Toks_nil : Toks [] []
| Toks_chr c s ts :
    (c = "{"%char -> first_brace s <> Some "}"%char) ->
    Toks s ts -> Toks (c :: s) (TChr c :: ts)
| Toks_frag body q s ts :
    nobrace body -> (q = false -> starts_q s = false) ->
    Toks s ts -> Toks (frag body ++ qtail q ++ s) (TFrag body q :: ts).

Lemma Toks_untoks s ts : Toks s ts -> untoks ts = s.
Proof.
  induction 1; simpl; [reflexivity | f_equal; assumption |].
  unfold untoks in *. rewrite IHToks, <- !app_assoc. reflexivity.
Qed.

Lemma first_brace_closes s :
  first_brace s = Some "}"%char ->
  exists body rest, nobrace body /\ s = body ++ "}"%char :: rest.
Proof.
  induction s as [|c s IH]; simpl; [discriminate|].
  destruct (brace c) eqn:Hb.
  - intros H. inversion H; subst. exists [], s. split; [constructor | reflexivity].
  - intros H. destruct (IH H) as (body & rest & Hn & ->).
    exists (c :: body), rest. split; [constructor; assumption | reflexivity].
Qed.

Lemma first_brace_app body c rest :
  nobrace body -> brace c = true -> first_brace (body ++ c :: rest) = Some c.
Proof.
  intros Hn Hc. induction Hn as [|d body Hd _ IH]; simpl.
  - rewrite Hc. reflexivity.
  - rewrite Hd. exact IH.
Qed.

Lemma tokens_exist (s : str) : exists ts, Toks s ts.
Proof.
  remember (List.length s) as n eqn:Hn. revert s Hn.
  induction n as [n IH] using lt_wf_ind. intros s Hn.
  destruct s as [|c s]; [exists []; constructor|].
  destruct (Ascii.eqb_spec c "{") as [->|Hc].
  - destruct (first_brace s) as [b|] eqn:Hf.
    + destruct (Ascii.eqb_spec b "}") as [->|Hb].
      * destruct (first_brace_closes _ Hf) as (body & rest & Hnb & ->).
        destruct rest as [|d rest].
        -- exists [TFrag body false].
           replace ("{"%char :: body ++ ["}"%char])
             with (frag body ++ qtail false ++ [])
             by (unfold frag; simpl; rewrite app_nil_r; reflexivity).
           constructor; [exact Hnb | reflexivity | constructor].
        -- destruct (Ascii.eqb_spec d "?") as [->|Hd].
           ++ destruct (IH (List.length rest)) with (s := rest) as [ts Hts];
                [subst n; simpl; rewrite length_app; simpl; lia | reflexivity|].
              exists (TFrag body true :: ts).
              replace ("{"%char :: body ++ "}"%char :: "?"%char :: rest)
                with (frag body ++ qtail true ++ rest)
                by (unfold frag; simpl; rewrite <- app_assoc; reflexivity).
              constructor; [exact Hnb | discriminate | exact Hts].
           ++ destruct (IH (List.length (d :: rest))) with (s := d :: rest)
                as [ts Hts];
                [subst n; simpl; rewrite length_app; simpl; lia | reflexivity|].
              exists (TFrag body false :: ts).
              replace ("{"%char :: body ++ "}"%char :: d :: rest)
                with (frag body ++ qtail false ++ d :: rest)
                by (unfold frag; simpl; rewrite <- app_assoc; reflexivity).
              constructor; [exact Hnb | | exact Hts].
              intros _. simpl. apply Ascii.eqb_neq. exact Hd.
      * destruct (IH (List.length s)) with (s := s) as [ts Hts];
          [subst n; simpl; lia | reflexivity|].
        exists (TChr "{" :: ts). constructor; [|exact Hts].
        intros _ H. rewrite Hf in H. inversion H. contradiction.
    + destruct (IH (List.length s)) with (s := s) as [ts Hts];
        [subst n; simpl; lia | reflexivity|].
      exists (TChr "{" :: ts). constructor; [|exact Hts].
      intros _ H. rewrite Hf in H. discriminate.
  - destruct (IH (List.length s)) with (s := s) as [ts Hts];
      [subst n; simpl; lia | reflexivity|].
    exists (TChr c :: ts). constructor; [|exact Hts]. intros H. contradiction.
Qed.

(** Token maps that keep the characters and turn a fragment into a
    fragment with the same [?]. *)
Definition shape_pres (h : token -> token) : Prop :=
  forall t,
    match t with
    | TChr c => h t = TChr c
    | TFrag b q => exists b', (nobrace b -> nobrace b') /\ h t = TFrag b' q
    end.

Lemma shape_pres_hd h ts :
  shape_pres h -> hd_error (untoks (map h ts)) = hd_error (untoks ts).
Proof.
  intros Hh. destruct ts as [|t ts]; [reflexivity|].
  specialize (Hh t). simpl. destruct t as [c|b q].
  - rewrite Hh. reflexivity.
  - destruct Hh as (b' & _ & ->). reflexivity.
Qed.

Lemma shape_pres_first_brace h ts :
  shape_pres h -> first_brace (untoks (map h ts)) = first_brace (untoks ts).
Proof.
  intros Hh. induction ts as [|t ts IH]; [reflexivity|].
  pose proof (Hh t) as Ht. simpl. destruct t as [c|b q].
  - rewrite Ht. simpl. rewrite IH. reflexivity.
  - destruct Ht as (b' & _ & ->). reflexivity.
Qed.

Lemma starts_q_hd (a b : str) : hd_error a = hd_error b -> starts_q a = starts_q b.
Proof. destruct a, b; simpl; intros H; inversion H; reflexivity. Qed.

Lemma Toks_map h s ts :
  shape_pres h -> Toks s ts -> Toks (untoks (map h ts)) (map h ts).
Proof.
  intros Hh H. induction H as [|c s ts Hc H IH|body q s ts Hb Hq H IH].
  - constructor.
  - pose proof (Hh (TChr c)) as Ht. simpl in Ht. simpl. rewrite Ht. simpl.
    constructor; [|exact IH].
    intros E. rewrite (shape_pres_first_brace ts Hh), (Toks_untoks H). auto.
  - destruct (Hh (TFrag body q)) as (b' & Hb' & Ht). simpl. rewrite Ht. simpl.
    rewrite <- app_assoc. constructor; [exact (Hb' Hb) | | exact IH].
    intros E. rewrite (starts_q_hd _ _ (shape_pres_hd ts Hh)), (Toks_untoks H). auto.
Qed.

Fixpoint take_nobrace (s : str) : str :=
  match s with
  | c :: s' => if brace c then [] else c :: take_nobrace s'
  | [] => []
  end.

(** The body of a text that starts with a fragment. *)
Definition inner (out : str) : str := take_nobrace (tl out).

Lemma inner_frag b z : nobrace b -> inner (frag b ++ z) = b.
Proof.
  intros Hb. unfold inner, frag. simpl. rewrite <- app_assoc. simpl.
  induction Hb as [|c b Hc _ IH]; simpl; [reflexivity|].
  rewrite Hc, IH. reflexivity.
Qed.

Lemma body_inj (b1 b2 z1 z2 : str) :
  nobrace b1 -> nobrace b2 ->
  b1 ++ "}"%char :: z1 = b2 ++ "}"%char :: z2 -> b1 = b2 /\ z1 = z2.
Proof.
  intros H1. revert b2. induction H1 as [|c b1 Hc _ IH]; intros b2 H2 E.
  - destruct H2 as [|d b2 Hd _]; simpl in E.
    + inversion E. auto.
    + inversion E; subst. discriminate.
  - destruct H2 as [|d b2 Hd H2]; simpl in E.
    + inversion E; subst. discriminate.
    + inversion E; subst. destruct (IH b2 H2 H1) as [-> ->]. auto.
Qed.

Lemma frag_inj (b1 b2 z1 z2 : str) :
  nobrace b1 -> nobrace b2 ->
  frag b1 ++ z1 = frag b2 ++ z2 -> b1 = b2 /\ z1 = z2.
Proof.
  intros H1 H2 E. unfold frag in E. simpl in E. rewrite <- !app_assoc in E.
  simpl in E. inversion E as [E']. apply body_inj; assumption.
Qed.

(** What the six rewriting passes have in common: a match is a fragment
    with or without the [?] after it, it is replaced by a fragment whose
    body starts with [this.] or [!this.], it depends on the text after it
    through a [?] only, and no such fragment is matched. *)
Record frag_rule (p : regex) (repl : match_obj -> str) : Prop := {
  fr_head : forall c s, c <> "{"%char -> match_at p (c :: s) = None;
  fr_nil : match_at p [] = None;
  fr_shape : forall s mo,
    match_at p s = Some mo ->
    exists body body' qq s',
      nobrace body /\ nospace body /\ nobrace body' /\ thisform body'
      /\ (qq = [] \/ qq = ["?"%char])
      /\ s = frag body ++ qq ++ s'
      /\ m_end mo = List.length (frag body ++ qq)
      /\ repl mo = frag body' ++ qq;
  fr_transfer : forall x y1 y2 mo,
    match_at p (x ++ y1) = Some mo -> m_end mo = List.length x ->
    (starts_q y1 = starts_q y2 \/ exists x0, x = x0 ++ ["?"%char]) ->
    match_at p (x ++ y2) = Some mo;
  fr_this : forall body rest,
    thisform body -> match_at p (frag body ++ rest) = None
}.

(** A pass on one token. *)
Definition rw (p : regex) (repl : match_obj -> str) (t : token) : token :=
  match t with
  | TChr _ => t
  | TFrag body q =>
      match match_at p (frag body ++ qtail q) with
      | Some mo => TFrag (inner (repl mo)) q
      | None => t
      end
  end.

Section FragRule.
Variables (p : regex) (repl : match_obj -> str).
Hypothesis rule : frag_rule p repl.

Lemma starts_q_qtail q s :
  (q = false -> starts_q s = false) -> starts_q (qtail q ++ s) = starts_q (qtail q).
Proof. destruct q; simpl; auto. Qed.

Lemma match_local_1 body q s mo :
  nobrace body -> (q = false -> starts_q s = false) ->
  match_at p (frag body ++ qtail q ++ s) = Some mo ->
  match_at p (frag body ++ qtail q) = Some mo.
Proof.
  intros Hb Hq H. pose proof (fr_transfer rule) as T.
  destruct (fr_shape rule _ H) as (b0 & b' & qq & s' & Hb0 & _ & _ & _ & Hqq & E & Hm & _).
  destruct (frag_inj Hb Hb0 E) as [<- E2].
  destruct Hqq as [-> | ->].
  - simpl in E2. subst s'. rewrite app_nil_r in Hm.
    apply (T (frag body) (qtail q ++ s) (qtail q) mo H Hm).
    left. apply starts_q_qtail. exact Hq.
  - destruct q; simpl in E2.
    + inversion E2; subst s'.
      rewrite <- (app_nil_r (frag body ++ qtail true)).
      rewrite app_assoc in H.
      apply (T (frag body ++ qtail true) s [] mo H Hm).
      right. exists (frag body). reflexivity.
    + subst s. simpl in Hq. specialize (Hq eq_refl). discriminate.
Qed.

Lemma match_local_2 body q s mo :
  nobrace body -> (q = false -> starts_q s = false) ->
  match_at p (frag body ++ qtail q) = Some mo ->
  match_at p (frag body ++ qtail q ++ s) = Some mo.
Proof.
  intros Hb Hq H. pose proof (fr_transfer rule) as T.
  destruct (fr_shape rule _ H) as (b0 & b' & qq & s' & Hb0 & _ & _ & _ & Hqq & E & Hm & _).
  destruct (frag_inj Hb Hb0 E) as [<- E2].
  destruct Hqq as [-> | ->].
  - simpl in E2. subst s'. rewrite app_nil_r in Hm.
    apply (T (frag body) (qtail q) (qtail q ++ s) mo H Hm).
    left. symmetry. apply starts_q_qtail. exact Hq.
  - destruct q; simpl in E2; [|discriminate].
    inversion E2; subst s'.
    rewrite app_assoc. rewrite <- (app_nil_r (frag body ++ qtail true)) in H.
    apply (T (frag body ++ qtail true) [] s mo H Hm).
    right. exists (frag body). reflexivity.
Qed.

Lemma match_local body q s :
  nobrace body -> (q = false -> starts_q s = false) ->
  match_at p (frag body ++ qtail q ++ s) = match_at p (frag body ++ qtail q).
Proof.
  intros Hb Hq.
  destruct (match_at p (frag body ++ qtail q ++ s)) as [mo|] eqn:E.
  - symmetry. eapply match_local_1; eassumption.
  - destruct (match_at p (frag body ++ qtail q)) as [mo|] eqn:E'; [|reflexivity].
    erewrite match_local_2 in E by eassumption. discriminate.
Qed.

Lemma rw_shape_pres : shape_pres (rw p repl).
Proof.
  intros [c|body q]; [reflexivity|]. unfold rw.
  destruct (match_at p (frag body ++ qtail q)) as [mo|] eqn:E.
  - destruct (fr_shape rule _ E) as (b0 & b' & qq & s' & _ & _ & Hb' & _ & _ & _ & _ & Hr).
    exists b'. split; [auto|]. rewrite Hr, inner_frag by exact Hb'. reflexivity.
  - exists body. auto.
Qed.

Lemma scan_copy x y :
  Forall (fun c => c <> "{"%char) x ->
  scan p 0 (x ++ y) = map Chr x ++ scan p 0 y.
Proof.
  induction 1 as [|c x Hc _ IH]; simpl; [reflexivity|].
  rewrite (fr_head rule _ Hc), IH. reflexivity.
Qed.

Lemma scan_skip x y : scan p (List.length x) (x ++ y) = scan p 0 y.
Proof. induction x as [|c x IH]; simpl; [reflexivity | exact IH]. Qed.

Lemma flat_map_chr x : flat_map (piece_text repl) (map Chr x) = x.
Proof. induction x as [|c x IH]; simpl; [reflexivity | f_equal; exact IH]. Qed.

Lemma nobrace_no_open x :
  nobrace x -> Forall (fun c => c <> "{"%char) x.
Proof.
  induction 1 as [|c x Hc _ IH]; constructor; [|exact IH].
  intros ->. discriminate.
Qed.

(** A pass rewrites the text token by token. *)
Theorem sub_tokens s ts :
  Toks s ts -> sub_compiled p repl s = untoks (map (rw p repl) ts).
Proof.
  unfold sub_compiled.
  induction 1 as [|c s ts Hc H IH|body q s ts Hb Hq H IH].
  - simpl. rewrite (fr_nil rule). reflexivity.
  - assert (E : match_at p (c :: s) = None).
    { destruct (Ascii.eqb_spec c "{") as [->|Hn]; [|apply (fr_head rule); exact Hn].
      destruct (match_at p ("{"%char :: s)) as [mo|] eqn:E; [|reflexivity].
      exfalso. apply (Hc eq_refl).
      destruct (fr_shape rule _ E) as (b0 & b' & qq & s' & Hb0 & _ & _ & _ & _ & E' & _).
      unfold frag in E'. simpl in E'. inversion E' as [E'']. rewrite <- app_assoc.
      apply first_brace_app; [exact Hb0 | reflexivity]. }
    simpl. rewrite E. simpl. f_equal. exact IH.
  - assert (Hloc := @match_local body q s Hb Hq).
    assert (Hcopy : forall z, Forall (fun c => c <> "{"%char) z ->
              flat_map (piece_text repl) (scan p 0 (z ++ s)) = z ++ untoks (map (rw p repl) ts)).
    { intros z Hz. rewrite (scan_copy _ Hz), flat_map_app, flat_map_chr, IH.
      reflexivity. }
    change (map (rw p repl) (TFrag body q :: ts))
      with (rw p repl (TFrag body q) :: map (rw p repl) ts).
    unfold rw at 1. destruct (match_at p (frag body ++ qtail q)) as [mo|] eqn:E.
    + destruct (fr_shape rule _ E)
        as (b0 & b' & qq & s' & Hb0 & _ & Hb' & _ & Hqq & E' & Hm & Hr).
      destruct (frag_inj Hb Hb0 E') as [<- E2].
      rewrite Hr, inner_frag by exact Hb'.
      unfold frag in *. simpl in *. rewrite Hloc. rewrite Hm.
      replace ((body ++ ["}"%char]) ++ qtail q ++ s)
        with (((body ++ ["}"%char]) ++ qq) ++ s' ++ s)
        by (rewrite <- !app_assoc, (app_assoc qq), <- E2; reflexivity).
      rewrite scan_skip. simpl. rewrite Hr. simpl. f_equal.
      rewrite <- !app_assoc. f_equal. simpl. f_equal. rewrite E2.
      rewrite <- app_assoc. f_equal.
      apply Hcopy.
      destruct Hqq as [-> | ->]; destruct q; simpl in E2; inversion E2; subst;
        repeat constructor; discriminate.
    + unfold frag in *. simpl in *. rewrite Hloc. simpl. f_equal.
      rewrite <- !app_assoc. rewrite (app_assoc body), (app_assoc (body ++ _)).
      rewrite Hcopy; [rewrite <- !app_assoc; reflexivity|].
      apply Forall_app. split; [apply Forall_app; split|].
      * apply nobrace_no_open. exact Hb.
      * repeat constructor. discriminate.
      * destruct q; repeat constructor. discriminate.
Qed.

Lemma sub_toks s ts :
  Toks s ts -> Toks (sub_compiled p repl s) (map (rw p repl) ts).
Proof.
  intros H. rewrite (sub_tokens H). apply Toks_map with (s := s); [|exact H].
  apply rw_shape_pres.
Qed.

End FragRule.

(** ** The six passes of the Call Rewriter *)

Definition P1 : regex := Eval vm_compute in pattern_of "\{tags\.push\(getText\(\)\);?\}".
Definition P2 : regex := Eval vm_compute in pattern_of "\{getText\(\)\.equals\(tags\.peek\(\)\)\}\?".
Definition P3 : regex := Eval vm_compute in pattern_of "\{tags\.pop\(\);?\}".
Definition P4 : regex := Eval vm_compute in pattern_of "\{(!?)(\w+)\(\)\}(\?)?".
Definition P5 : regex := Eval vm_compute in pattern_of "\{(\w+)\(\);\}".
Definition P6 : regex := Eval vm_compute in pattern_of "\{(!?)([a-zA-Z][a-zA-Z_0-9]*)\}(\?)".

Definition R1 (_ : match_obj) : str := "{this.pushDollarTag();}".
Definition R2 (_ : match_obj) : str := "{this.matchesDollarTag()}?".
Definition R3 (_ : match_obj) : str := "{this.popDollarTag();}".
Definition R4 (m : match_obj) : str :=
  "{" ++ group_text m 1 ++ "this." ++ group_text m 2 ++ "()" ++ "}"
  ++ or_empty (group m 3).
Definition R5 (m : match_obj) : str := "{this." ++ group_text m 1 ++ "();}".
Definition R6 (m : match_obj) : str :=
  "{" ++ group_text m 1 ++ "this." ++ group_text m 2 ++ "}" ++ group_text m 3.


Lemma mem_neq cs c d :
  charset_mem cs c = true -> charset_mem cs d = false -> c <> d.
Proof. intros H1 H2 ->. congruence. Qed.

Lemma mem_nobrace cs c :
  charset_mem cs "{" = false -> charset_mem cs "}" = false ->
  charset_mem cs c = true -> brace c = false.
Proof.
  intros H1 H2 H. unfold brace.
  rewrite (proj2 (Ascii.eqb_neq _ _) (@mem_neq cs _ _ H H1)).
  rewrite (proj2 (Ascii.eqb_neq _ _) (@mem_neq cs _ _ H H2)). reflexivity.
Qed.

Lemma all_nobrace cs x :
  charset_mem cs "{" = false -> charset_mem cs "}" = false ->
  Forall (fun c => charset_mem cs c = true) x -> nobrace x.
Proof.
  intros H1 H2 H. induction H as [|c x Hc _ IH]; constructor; [|exact IH].
  eapply mem_nobrace; eassumption.
Qed.

Lemma word_not_space : disjoint isword isspace = true.
Proof. vm_compute. reflexivity. Qed.

Lemma mem_nospace cs c :
  disjoint (charset_mem cs) isspace = true ->
  charset_mem cs c = true -> isspace c = false.
Proof. intros Hd Hc. eapply disjoint_spec; eassumption. Qed.

Lemma all_nospace cs x :
  disjoint (charset_mem cs) isspace = true ->
  Forall (fun c => charset_mem cs c = true) x -> nospace x.
Proof.
  intros Hd H. induction H as [|c x Hc _ IH]; constructor; [|exact IH].
  eapply mem_nospace; eassumption.
Qed.

Lemma nospace_app x y : nospace x -> nospace y -> nospace (x ++ y).
Proof. intros. apply Forall_app. auto. Qed.

Lemma nospace_cons c x : isspace c = false -> nospace x -> nospace (c :: x).
Proof. intros. constructor; assumption. Qed.

Lemma nobrace_app x y : nobrace x -> nobrace y -> nobrace (x ++ y).
Proof. intros. apply Forall_app. auto. Qed.

Lemma nobrace_cons c x : brace c = false -> nobrace x -> nobrace (c :: x).
Proof. intros. constructor; assumption. Qed.

Ltac nobrace_tac :=
  repeat first
    [ apply Forall_nil
    | apply nobrace_cons; [first [reflexivity | eapply mem_nobrace; [| |eassumption]; reflexivity]|]
    | apply nobrace_app
    | eapply all_nobrace; [| |eassumption]; reflexivity ].

Ltac nospace_tac :=
  repeat first
    [ apply Forall_nil
    | apply nospace_cons;
      [first [reflexivity
             | eapply mem_nospace; [|eassumption]; vm_compute; reflexivity]|]
    | apply nospace_app
    | eapply all_nospace; [|eassumption]; vm_compute; reflexivity ].

Lemma det_P4 : det P4 None = true. Proof. vm_compute. reflexivity. Qed.

Ltac shape_done :=
  split; [nobrace_tac|]; split; [nospace_tac|]; split; [nobrace_tac|];
  split; [first [left; eexists; reflexivity | right; eexists; reflexivity]|];
  split; [auto|];
  unfold frag; cbn [app of_string list_ascii_of_string];
  rewrite <- ?app_assoc; cbn [app]; repeat split; reflexivity.

Ltac shape_start H det_lemma :=
  match type of H with
  | match_at ?P ?s = Some ?mo =>
      let x := fresh "x" in let s' := fresh "s'" in
      let Hm := fresh "Hm" in let Hsem := fresh "Hsem" in
      destruct (@match_at_sem P s mo det_lemma H) as (x & s' & -> & Hm & Hsem);
      clear H; destruct mo as [e g];
      unfold group_text, group;
      cbn [m_end m_groups] in *; subst e;
      unfold P in Hsem; inv_sem; rewrite ?app_nil_r;
      cbn [app lookup Nat.eqb or_empty]
  end.

Lemma P4_shape s mo : match_at P4 s = Some mo ->
    exists body body' qq s',
      nobrace body /\ nospace body /\ nobrace body' /\ thisform body'
      /\ (qq = [] \/ qq = ["?"%char])
      /\ s = frag body ++ qq ++ s'
      /\ m_end mo = List.length (frag body ++ qq)
      /\ R4 mo = frag body' ++ qq.
Proof.
  intros H. unfold R4. shape_start H det_P4;
    match goal with
    | Hc : charset_mem CWord ?c = true, Hx : Forall _ ?w |- _ =>
        match goal with
        | |- context ["{"%char :: "!"%char :: _] =>
            match goal with
            | |- context ["}"%char :: "?"%char :: _] =>
                exists ("!" ++ c :: w ++ "()"), ("!this." ++ c :: w ++ "()"), ["?"%char]
            | _ => exists ("!" ++ c :: w ++ "()"), ("!this." ++ c :: w ++ "()"), []
            end
        | _ =>
            match goal with
            | |- context ["}"%char :: "?"%char :: _] =>
                exists (c :: w ++ "()"), ("this." ++ c :: w ++ "()"), ["?"%char]
            | _ => exists (c :: w ++ "()"), ("this." ++ c :: w ++ "()"), []
            end
        end
    end; eexists; shape_done.
Qed.

Lemma P4_head c s : c <> "{"%char -> match_at P4 (c :: s) = None.
Proof.
  intros Hc. rewrite (match_at_det _ _ det_P4). unfold P4. simpl.
  apply Ascii.eqb_neq in Hc. rewrite Hc. reflexivity.
Qed.

Lemma P4_this body rest : thisform body -> match_at P4 (frag body ++ rest) = None.
Proof.
  intros [[b ->]|[b ->]]; rewrite (match_at_det _ _ det_P4); reflexivity.
Qed.

Lemma dmatch_seq_app l1 l2 s g :
  dmatch (seq (l1 ++ l2)) s g =
  match dmatch (seq l1) s g with
  | Some (s1, g1) => dmatch (seq l2) s1 g1
  | None => None
  end.
Proof.
  revert s g. induction l1 as [|a l1 IH]; intros s g; simpl; [reflexivity|].
  destruct (dmatch a s g) as [[s1 g1]|]; [apply IH | reflexivity].
Qed.

Lemma dmatch_end r x y g s1 g1 :
  dmatch r (x ++ y) g = Some (s1, g1) ->
  List.length (x ++ y) - List.length s1 = List.length x -> s1 = y.
Proof.
  intros E Hl. destruct (@dmatch_sem _ _ _ _ _ E) as (x' & gs & Ex & _ & _).
  assert (Hlen : List.length x' = List.length x).
  { rewrite Ex in Hl. rewrite length_app, Nat.add_sub in Hl. exact Hl. }
  apply (f_equal (skipn (List.length x))) in Ex.
  rewrite skipn_app, Nat.sub_diag, skipn_all in Ex. simpl in Ex.
  rewrite <- Hlen, skipn_app, Nat.sub_diag, skipn_all in Ex. simpl in Ex.
  symmetry. exact Ex.
Qed.

(** [(\?)?] at the end of a pattern. *)
Definition Q3 : regex := Opt (Group 3 (Cat (One (CChar "?")) Eps)).

Lemma dmatch_Q3 s g :
  dmatch (seq [Q3]) s g =
  if starts_q s then Some (tl s, (3, ["?"%char]) :: g) else Some (s, g).
Proof.
  destruct s as [|c s]; [reflexivity|].
  unfold Q3, seq. cbn [fold_right dmatch charset_mem starts_q tl].
  destruct (Ascii.eqb_spec c "?") as [->|Hc]; [|reflexivity].
  change ("?"%char :: s) with (["?"%char] ++ s).
  rewrite (firstn_consumed ["?"%char] s). reflexivity.
Qed.

Definition C4 : regex := Eval vm_compute in pattern_of "\{(!?)(\w+)\(\)\}".

Lemma closed_C4 : closed C4 = true. Proof. vm_compute. reflexivity. Qed.

Lemma dmatch_P4 s g :
  dmatch P4 s g =
  match dmatch C4 s g with
  | Some (s1, g1) => dmatch (seq [Q3]) s1 g1
  | None => None
  end.
Proof.
  exact (dmatch_seq_app
           [One (CChar "{"); Group 1 (Cat (Opt (One (CChar "!"))) Eps);
            Group 2 (Cat (Plus CWord) Eps); One (CChar "("); One (CChar ")");
            One (CChar "}")] [Q3] s g).
Qed.

Lemma C4_last x gs : Sem C4 x gs -> forall x0 c, x = x0 ++ [c] -> c = "}"%char.
Proof.
  intros H. unfold C4 in H. inv_sem; intros x0 d E;
    rewrite ?app_nil_r, !app_assoc in E;
    apply app_inj_tail in E; destruct E as [_ E]; congruence.
Qed.

Lemma P4_transfer x y1 y2 mo :
  match_at P4 (x ++ y1) = Some mo -> m_end mo = List.length x ->
  (starts_q y1 = starts_q y2 \/ exists x0, x = x0 ++ ["?"%char]) ->
  match_at P4 (x ++ y2) = Some mo.
Proof.
  intros H Hm Hq.
  rewrite (match_at_det _ _ det_P4) in H. rewrite (match_at_det _ _ det_P4).
  destruct (dmatch P4 (x ++ y1) []) as [[s1 g1]|] eqn:E; [|discriminate].
  inversion H; subst mo; clear H. simpl in Hm.
  pose proof (dmatch_end _ _ _ _ E Hm) as ->.
  assert (E2 : dmatch P4 (x ++ y2) [] = Some (y2, g1)).
  { rewrite dmatch_P4 in E. rewrite dmatch_P4.
    destruct (dmatch C4 (x ++ y1) []) as [[s0 g0]|] eqn:E0; [|discriminate].
    rewrite dmatch_Q3 in E.
    destruct (@dmatch_sem _ _ _ _ _ E0) as (xc & gs & Ex & _ & Hsem).
    destruct (starts_q s0) eqn:Hs0.
    - destruct s0 as [|c s0]; [discriminate|]. simpl in Hs0.
      apply Ascii.eqb_eq in Hs0. subst c. simpl in E. inversion E; subst; clear E.
      change ("?"%char :: y1) with (["?"%char] ++ y1) in Ex.
      rewrite app_assoc in Ex. apply app_inv_tail in Ex. subst x.
      rewrite <- app_assoc in *. cbn [app] in *.
      rewrite (@dmatch_closed C4 xc ("?"%char :: y1) ("?"%char :: y2) [] _ closed_C4 E0).
      rewrite dmatch_Q3. reflexivity.
    - inversion E; subst; clear E. apply app_inv_tail in Ex. subst xc.
      rewrite (@dmatch_closed C4 x y1 y2 [] _ closed_C4 E0).
      rewrite dmatch_Q3.
      destruct Hq as [Hq | (x0 & Hx0)].
      + rewrite <- Hq, Hs0. reflexivity.
      + pose proof (C4_last Hsem _ _ Hx0). discriminate. }
  rewrite E2. rewrite !length_app, !Nat.add_sub. reflexivity.
Qed.

Lemma rule_P4 : frag_rule P4 R4.
Proof.
  constructor.
  - apply P4_head.
  - reflexivity.
  - apply P4_shape.
  - apply P4_transfer.
  - apply P4_this.
Qed.

Lemma closed_transfer p :
  det p None = true -> closed p = true ->
  forall x y1 y2 mo,
    match_at p (x ++ y1) = Some mo -> m_end mo = List.length x ->
    (starts_q y1 = starts_q y2 \/ exists x0, x = x0 ++ ["?"%char]) ->
    match_at p (x ++ y2) = Some mo.
Proof. intros Hd Hc x y1 y2 mo H Hm _. eapply match_at_closed; eassumption. Qed.

Ltac head_tac det_lemma :=
  let c := fresh "c" in let s := fresh "s" in let Hc := fresh "Hc" in
  intros c s Hc; rewrite (match_at_det _ _ det_lemma); simpl;
  apply Ascii.eqb_neq in Hc; rewrite Hc; reflexivity.

Ltac this_tac det_lemma :=
  let b := fresh "b" in
  intros ? ? [[b ->]|[b ->]]; rewrite (match_at_det _ _ det_lemma); reflexivity.

Lemma det_P1 : det P1 None = true. Proof. vm_compute. reflexivity. Qed.
Lemma det_P2 : det P2 None = true. Proof. vm_compute. reflexivity. Qed.
Lemma det_P3 : det P3 None = true. Proof. vm_compute. reflexivity. Qed.
Lemma det_P5 : det P5 None = true. Proof. vm_compute. reflexivity. Qed.
Lemma det_P6 : det P6 None = true. Proof. vm_compute. reflexivity. Qed.

Lemma rule_P1 : frag_rule P1 R1.
Proof.
  constructor.
  - head_tac det_P1.
  - reflexivity.
  - intros s mo H. unfold R1. shape_start H det_P1;
      match goal with
      | |- context [";"%char :: "}"%char :: _] =>
          exists (of_string "tags.push(getText());")
      | _ => exists (of_string "tags.push(getText())")
      end;
      exists (of_string "this.pushDollarTag();"), []; eexists; shape_done.
  - apply closed_transfer; [exact det_P1 | vm_compute; reflexivity].
  - this_tac det_P1.
Qed.

Lemma rule_P2 : frag_rule P2 R2.
Proof.
  constructor.
  - head_tac det_P2.
  - reflexivity.
  - intros s mo H. unfold R2. shape_start H det_P2.
    exists (of_string "getText().equals(tags.peek())"),
           (of_string "this.matchesDollarTag()"), ["?"%char].
    eexists. shape_done.
  - apply closed_transfer; [exact det_P2 | vm_compute; reflexivity].
  - this_tac det_P2.
Qed.

Lemma rule_P3 : frag_rule P3 R3.
Proof.
  constructor.
  - head_tac det_P3.
  - reflexivity.
  - intros s mo H. unfold R3. shape_start H det_P3;
      match goal with
      | |- context [";"%char :: "}"%char :: _] =>
          exists (of_string "tags.pop();")
      | _ => exists (of_string "tags.pop()")
      end;
      exists (of_string "this.popDollarTag();"), []; eexists; shape_done.
  - apply closed_transfer; [exact det_P3 | vm_compute; reflexivity].
  - this_tac det_P3.
Qed.

Lemma rule_P5 : frag_rule P5 R5.
Proof.
  constructor.
  - head_tac det_P5.
  - reflexivity.
  - intros s mo H. unfold R5. shape_start H det_P5.
    match goal with
    | Hc : charset_mem CWord ?c = true, Hx : Forall _ ?w |- _ =>
        exists (c :: w ++ "();"), ("this." ++ c :: w ++ "();"), []
    end.
    eexists. shape_done.
  - apply closed_transfer; [exact det_P5 | vm_compute; reflexivity].
  - this_tac det_P5.
Qed.

Lemma rule_P6 : frag_rule P6 R6.
Proof.
  constructor.
  - head_tac det_P6.
  - reflexivity.
  - intros s mo H. unfold R6. shape_start H det_P6;
      match goal with
      | Hc : charset_mem (CRanges _) ?c = true, Hx : Forall _ ?w |- _ =>
          match goal with
          | |- context ["{"%char :: "!"%char :: _] =>
              exists ("!" ++ c :: w), ("!this." ++ c :: w), ["?"%char]
          | _ => exists (c :: w), ("this." ++ c :: w), ["?"%char]
          end
      end; eexists; shape_done.
  - apply closed_transfer; [exact det_P6 | vm_compute; reflexivity].
  - this_tac det_P6.
Qed.

Lemma compile_P1 : re_compile "\{tags\.push\(getText\(\)\);?\}" = Compiled P1.
Proof. vm_compute. reflexivity. Qed.
Lemma compile_P2 :
  re_compile "\{getText\(\)\.equals\(tags\.peek\(\)\)\}\?" = Compiled P2.
Proof. vm_compute. reflexivity. Qed.
Lemma compile_P3 : re_compile "\{tags\.pop\(\);?\}" = Compiled P3.
Proof. vm_compute. reflexivity. Qed.
Lemma compile_P4 : re_compile "\{(!?)(\w+)\(\)\}(\?)?" = Compiled P4.
Proof. vm_compute. reflexivity. Qed.
Lemma compile_P5 : re_compile "\{(\w+)\(\);\}" = Compiled P5.
Proof. vm_compute. reflexivity. Qed.
Lemma compile_P6 :
  re_compile "\{(!?)([a-zA-Z][a-zA-Z_0-9]*)\}(\?)" = Compiled P6.
Proof. vm_compute. reflexivity. Qed.

(** The six passes in a row. *)
Definition rewrite_all (s : str) : str :=
  sub_compiled P6 R6 (sub_compiled P5 R5 (sub_compiled P4 R4
    (sub_compiled P3 R3 (sub_compiled P2 R2 (sub_compiled P1 R1 s))))).

(** The Call Rewriter raises nothing: its patterns compile. *)
Lemma transform_eq (s : str) :
  transform_predicates_for_js s = Ret (rewrite_all s).
Proof.
  unfold transform_predicates_for_js, re_sub, with_pattern.
  rewrite compile_P1. cbn [bind]. rewrite compile_P2. cbn [bind].
  rewrite compile_P3. cbn [bind]. rewrite compile_P4. cbn [bind].
  rewrite compile_P5. cbn [bind]. rewrite compile_P6. cbn [bind].
  reflexivity.
Qed.

(** The six passes on one token. *)
Definition rw_all (t : token) : token :=
  rw P6 R6 (rw P5 R5 (rw P4 R4 (rw P3 R3 (rw P2 R2 (rw P1 R1 t))))).

Theorem rewrite_all_tokens s ts :
  Toks s ts ->
  rewrite_all s = untoks (map rw_all ts) /\ Toks (rewrite_all s) (map rw_all ts).
Proof.
  intros H0. unfold rewrite_all.
  pose proof (sub_toks rule_P1 H0) as H1.
  pose proof (sub_toks rule_P2 H1) as H2.
  pose proof (sub_toks rule_P3 H2) as H3.
  pose proof (sub_toks rule_P4 H3) as H4.
  pose proof (sub_toks rule_P5 H4) as H5.
  pose proof (sub_toks rule_P6 H5) as H6.
  rewrite !map_map in H6. split; [|exact H6].
  symmetry. apply Toks_untoks. exact H6.
Qed.

(** A token no pass changes. *)
Definition fixed (t : token) : Prop :=
  forall p repl, frag_rule p repl -> rw p repl t = t.

Lemma rw_step p repl t :
  frag_rule p repl -> rw p repl t = t \/ fixed (rw p repl t).
Proof.
  intros rule. destruct t as [c|body q]; [left; reflexivity|]. unfold rw.
  destruct (match_at p (frag body ++ qtail q)) as [mo|] eqn:E; [|left; reflexivity].
  right. destruct (fr_shape rule _ E)
    as (b0 & b' & qq & s' & _ & _ & Hb' & Ht & _ & _ & _ & Hr).
  rewrite Hr, inner_frag by exact Hb'.
  intros p' repl' rule'. unfold rw.
  rewrite (fr_this rule' (qtail q) Ht). reflexivity.
Qed.

Lemma rw_all_step t : rw_all t = t \/ fixed (rw_all t).
Proof.
  unfold rw_all.
  assert (step : forall p repl u,
            frag_rule p repl -> (u = t \/ fixed u) ->
            rw p repl u = t \/ fixed (rw p repl u)).
  { intros p repl u rule [->|Hu].
    - apply rw_step. exact rule.
    - right. rewrite (Hu p repl rule). exact Hu. }
  apply (step _ _ _ rule_P6), (step _ _ _ rule_P5), (step _ _ _ rule_P4),
    (step _ _ _ rule_P3), (step _ _ _ rule_P2), (step _ _ _ rule_P1).
  left. reflexivity.
Qed.

Lemma rw_all_idem t : rw_all (rw_all t) = rw_all t.
Proof.
  destruct (rw_all_step t) as [H|H].
  - rewrite H. exact H.
  - unfold rw_all at 1.
    rewrite (H _ _ rule_P1), (H _ _ rule_P2), (H _ _ rule_P3),
      (H _ _ rule_P4), (H _ _ rule_P5), (H _ _ rule_P6). reflexivity.
Qed.

Lemma rewrite_all_idem s : rewrite_all (rewrite_all s) = rewrite_all s.
Proof.
  destruct (tokens_exist s) as [ts Hts].
  destruct (rewrite_all_tokens Hts) as [E1 H1].
  destruct (rewrite_all_tokens H1) as [E2 _].
  rewrite E2, E1, map_map. f_equal. apply map_ext. intros t. apply rw_all_idem.
Qed.

(** C9.  The Call Rewriter is idempotent: it returns a text on every
    input, and on that text it returns the same text again. *)
Theorem transform_predicates_for_js_idempotent (s : str) :
  exists s',
    transform_predicates_for_js s = Ret s'
    /\ transform_predicates_for_js s' = Ret s'
    /\ (content <- transform_predicates_for_js s ;;
        transform_predicates_for_js content) = transform_predicates_for_js s.
Proof.
  exists (rewrite_all s). rewrite !transform_eq. cbn [bind].
  rewrite !transform_eq, rewrite_all_idem. auto.
Qed.

Lemma dmatch_group n r x s' g g' :
  dmatch r (x ++ s') g = Some (s', g') ->
  dmatch (Group n r) (x ++ s') g = Some (s', (n, x) :: g').
Proof. intros H. cbn [dmatch]. rewrite H, firstn_consumed. reflexivity. Qed.



(** The three fixed idioms have a [.] inside their braces. *)
Definition dotted (p : regex) : Prop :=
  forall s mo, match_at p s = Some mo ->
    exists body s', nobrace body /\ In "."%char body /\ s = frag body ++ s'.

Ltac dotted_tac det_lemma :=
  let s := fresh "s" in let mo := fresh "mo" in let H := fresh "H" in
  intros s mo H;
  match type of H with
  | match_at ?P _ = _ =>
      let x := fresh "x" in let s' := fresh "s'" in
      let Hm := fresh "Hm" in let Hsem := fresh "Hsem" in
      destruct (@match_at_sem P s mo det_lemma H) as (x & s' & -> & Hm & Hsem);
      clear H Hm; unfold P in Hsem; inv_sem; rewrite ?app_nil_r; cbn [app]
  end.

Lemma dotted_P1 : dotted P1.
Proof.
  dotted_tac det_P1;
    [exists (of_string "tags.push(getText());") | exists (of_string "tags.push(getText())")];
    exists s'; (split; [nobrace_tac|]); (split; [cbn; tauto | reflexivity]).
Qed.

Lemma dotted_P2 : dotted P2.
Proof.
  dotted_tac det_P2.
  exists (of_string "getText().equals(tags.peek())"), ("?"%char :: s').
  split; [nobrace_tac|]. split; [cbn; tauto | reflexivity].
Qed.

Lemma dotted_P3 : dotted P3.
Proof.
  dotted_tac det_P3;
    [exists (of_string "tags.pop();") | exists (of_string "tags.pop()")];
    exists s'; (split; [nobrace_tac|]); (split; [cbn; tauto | reflexivity]).
Qed.

Lemma rw_no_dot p repl body q :
  dotted p -> nobrace body -> ~ In "."%char body ->
  rw p repl (TFrag body q) = TFrag body q.
Proof.
  intros Hp Hb Hn. unfold rw.
  destruct (match_at p (frag body ++ qtail q)) as [mo|] eqn:E; [|reflexivity].
  exfalso. destruct (Hp _ _ E) as (b0 & s' & Hb0 & Hin & E').
  destruct (frag_inj Hb Hb0 E') as [<- _]. contradiction.
Qed.

Lemma rw_thisform p repl body q :
  frag_rule p repl -> thisform body -> rw p repl (TFrag body q) = TFrag body q.
Proof.
  intros rule Ht. unfold rw. rewrite (fr_this rule (qtail q) Ht). reflexivity.
Qed.


(** A fragment with whitespace inside its braces through one pass. *)
Lemma rw_space p repl body q :
  frag_rule p repl -> nobrace body -> ~ nospace body ->
  rw p repl (TFrag body q) = TFrag body q.
Proof.
  intros rule Hb Hn. unfold rw.
  destruct (match_at p (frag body ++ qtail q)) as [mo|] eqn:E; [|reflexivity].
  exfalso. destruct (fr_shape rule _ E)
    as (b0 & b' & qq & s' & Hb0 & Hs0 & _ & _ & _ & E' & _).
  destruct (frag_inj Hb Hb0 E') as [<- _]. contradiction.
Qed.

Lemma rw_all_space body q :
  nobrace body -> ~ nospace body -> rw_all (TFrag body q) = TFrag body q.
Proof.
  intros Hb Hn. unfold rw_all.
  rewrite (rw_space q rule_P1 Hb Hn), (rw_space q rule_P2 Hb Hn),
    (rw_space q rule_P3 Hb Hn), (rw_space q rule_P4 Hb Hn),
    (rw_space q rule_P5 Hb Hn), (rw_space q rule_P6 Hb Hn). reflexivity.
Qed.

(** *** A fragment in its context *)

Lemma first_brace_app_l (s u : str) :
  first_brace (s ++ u) =
  match first_brace s with Some b => Some b | None => first_brace u end.
Proof.
  induction s as [|c s IH]; simpl; [reflexivity|].
  destruct (brace c); [reflexivity | exact IH].
Qed.

Lemma Toks_app pre ts1 u ts2 :
  Toks pre ts1 -> Toks u ts2 -> hd_error u = Some "{"%char ->
  Toks (pre ++ u) (ts1 ++ ts2).
Proof.
  intros H1 H2 Hu. induction H1 as [|c s ts Hc H IH|body q s ts Hb Hq H IH].
  - exact H2.
  - simpl. constructor; [|exact IH]. intros E. specialize (Hc E).
    rewrite first_brace_app_l. destruct (first_brace s) as [b|]; [exact Hc|].
    destruct u as [|d u]; [discriminate|]. inversion Hu; subst.
    simpl. discriminate.
  - rewrite <- !app_assoc. simpl. constructor; [exact Hb | | exact IH].
    intros E. specialize (Hq E). destruct s as [|d s]; [|exact Hq].
    destruct u as [|d u]; [discriminate|]. inversion Hu; subst. reflexivity.
Qed.

Lemma rw_all_chr c : rw_all (TChr c) = TChr c.
Proof. reflexivity. Qed.

Lemma untoks_app a b : untoks (a ++ b) = untoks a ++ untoks b.
Proof. unfold untoks. apply flat_map_app. Qed.

Definition tok_body (t : token) : str :=
  match t with TFrag b _ => b | TChr _ => [] end.

Lemma rw_all_shape : shape_pres rw_all.
Proof.
  intros t. unfold rw_all.
  pose proof (rw_shape_pres rule_P1) as S1. pose proof (rw_shape_pres rule_P2) as S2.
  pose proof (rw_shape_pres rule_P3) as S3. pose proof (rw_shape_pres rule_P4) as S4.
  pose proof (rw_shape_pres rule_P5) as S5. pose proof (rw_shape_pres rule_P6) as S6.
  destruct t as [c|b q]; [reflexivity|].
  destruct (S1 (TFrag b q)) as (b1 & N1 & ->).
  destruct (S2 (TFrag b1 q)) as (b2 & N2 & ->).
  destruct (S3 (TFrag b2 q)) as (b3 & N3 & ->).
  destruct (S4 (TFrag b3 q)) as (b4 & N4 & ->).
  destruct (S5 (TFrag b4 q)) as (b5 & N5 & ->).
  destruct (S6 (TFrag b5 q)) as (b6 & N6 & ->).
  exists b6. split; [auto 10 | reflexivity].
Qed.

(** The Call Rewriter works on a fragment and on the texts around it
    separately; of the text after the fragment only a leading [?] counts. *)
Theorem rewrite_all_fragment (pre body post : str) :
  nobrace body ->
  rewrite_all (pre ++ frag body ++ post)
  = rewrite_all pre
    ++ frag (tok_body (rw_all (TFrag body (starts_q post))))
    ++ rewrite_all post.
Proof.
  intros Hb.
  destruct (tokens_exist pre) as [ts1 H1].
  assert (exists post' ts2,
            post = qtail (starts_q post) ++ post'
            /\ (starts_q post = false -> starts_q post' = false)
            /\ Toks post' ts2
            /\ Toks post (map TChr (qtail (starts_q post)) ++ ts2))
    as (post' & ts2 & Ep & Hq & H2 & H2').
  { destruct post as [|c post]; simpl.
    - exists [], []. repeat split; constructor.
    - destruct (Ascii.eqb_spec c "?") as [->|Hc].
      + destruct (tokens_exist post) as [ts2 H2]. exists post, ts2.
        repeat split; [discriminate | exact H2|].
        simpl. constructor; [discriminate | exact H2].
      + destruct (tokens_exist (c :: post)) as [ts2 H2]. exists (c :: post), ts2.
        repeat split; [|exact H2 | exact H2].
        intros _. simpl. apply Ascii.eqb_neq. exact Hc. }
  set (q := starts_q post) in *.
  assert (H3 : Toks (frag body ++ post) (TFrag body q :: ts2)).
  { rewrite Ep. constructor; assumption. }
  assert (H4 := Toks_app H1 H3 eq_refl).
  destruct (rewrite_all_tokens H4) as [-> _].
  destruct (rewrite_all_tokens H1) as [-> _].
  destruct (rewrite_all_tokens H2') as [-> _].
  rewrite map_app, untoks_app, map_app, untoks_app. f_equal.
  destruct (rw_all_shape (TFrag body q)) as (b' & _ & E).
  cbn [map]. rewrite E. cbn [tok_body]. change (untoks (TFrag b' q :: map rw_all ts2))
    with ((frag b' ++ qtail q) ++ untoks (map rw_all ts2)).
  rewrite <- app_assoc. f_equal. f_equal.
  rewrite map_map. destruct q; reflexivity.
Qed.





(** C6, the claim as stated fails: with whitespace inside the braces the
    push action is not rewritten. *)
Lemma push_idiom_with_whitespace_is_kept :
  transform_predicates_for_js "{ tags.push(getText()); }"
    = Ret (of_string "{ tags.push(getText()); }")
  /\ transform_predicates_for_js "{tags.push( getText() );}"
    = Ret (of_string "{tags.push( getText() );}")
  /\ transform_predicates_for_js "{ tags.push(getText()); }"
     <> Ret (of_string "{this.pushDollarTag();}").
Proof.
  split; [vm_compute; reflexivity|].
  split; [vm_compute; reflexivity | vm_compute; discriminate].
Qed.

(** C6, amended.  Wherever it stands, the push action written without
    whitespace, [{tags.push(getText());}] or, the terminator being
    optional, [{tags.push(getText())}], is rewritten to exactly
    [{this.pushDollarTag();}]; a fragment with a whitespace character
    inside its braces is left as it is. *)
Theorem push_idiom_rewritten_without_whitespace (pre post body : str) :
  nobrace body -> (exists c, In c body /\ isspace c = true) ->
  exists pre' post',
    transform_predicates_for_js pre = Ret pre'
    /\ transform_predicates_for_js post = Ret post'
    /\ transform_predicates_for_js (pre ++ "{tags.push(getText());}" ++ post)
       = Ret (pre' ++ "{this.pushDollarTag();}" ++ post')
    /\ transform_predicates_for_js (pre ++ "{tags.push(getText())}" ++ post)
       = Ret (pre' ++ "{this.pushDollarTag();}" ++ post')
    /\ transform_predicates_for_js (pre ++ "{" ++ body ++ "}" ++ post)
       = Ret (pre' ++ "{" ++ body ++ "}" ++ post').
Proof.
  intros Hb (c & Hin & Hc). exists (rewrite_all pre), (rewrite_all post).
  rewrite !transform_eq. repeat split; f_equal.
  - change (of_string "{tags.push(getText());}" ++ post)
      with (frag "tags.push(getText());" ++ post).
    rewrite rewrite_all_fragment by nobrace_tac.
    destruct (starts_q post); reflexivity.
  - change (of_string "{tags.push(getText())}" ++ post)
      with (frag "tags.push(getText())" ++ post).
    rewrite rewrite_all_fragment by nobrace_tac.
    destruct (starts_q post); reflexivity.
  - replace ("{" ++ body ++ "}" ++ post) with (frag body ++ post)
      by (unfold frag; cbn; rewrite <- !app_assoc; reflexivity).
    rewrite (rewrite_all_fragment pre post Hb), rw_all_space; [| exact Hb |].
    + cbn [tok_body]. f_equal. unfold frag. cbn. rewrite <- !app_assoc. reflexivity.
    + intros Hn. unfold nospace in Hn. rewrite Forall_forall in Hn.
      rewrite (Hn _ Hin) in Hc. discriminate.
Qed.

Lemma push_idiom_rewritten_without_whitespace_witness :
  exists pre' post',
    transform_predicates_for_js "x " = Ret pre'
    /\ transform_predicates_for_js " y" = Ret post'
    /\ transform_predicates_for_js ("x " ++ "{tags.push(getText());}" ++ " y")
       = Ret (pre' ++ "{this.pushDollarTag();}" ++ post')
    /\ transform_predicates_for_js ("x " ++ "{tags.push(getText())}" ++ " y")
       = Ret (pre' ++ "{this.pushDollarTag();}" ++ post')
    /\ transform_predicates_for_js ("x " ++ "{" ++ " tags.push(getText()); " ++ "}" ++ " y")
       = Ret (pre' ++ "{" ++ " tags.push(getText()); " ++ "}" ++ post').
Proof.
  apply (@push_idiom_rewritten_without_whitespace "x " " y" " tags.push(getText()); ").
  - repeat constructor.
  - exists " "%char. split; [left; reflexivity | reflexivity].
Defined.

(** ** The Block Stripper *)

Lemma remove_loop_cons pattern c s' :
  remove_loop pattern (c :: s') =
  match re_match pattern (c :: s') with
  | Ret (Some mo) => remove_loop pattern (after_block (m_end mo) (c :: s'))
  | Ret None => rest <- remove_loop pattern s' ;; Ret (c :: rest)
  | Raise e => Raise e
  | Unmodelled => Unmodelled
  end.
Proof.
  simp remove_loop. destruct (re_match pattern (c :: s')) as [[mo|]|e|]; reflexivity.
Qed.

(** Characters that stand for themselves in a pattern. *)
Definition literal_char (c : ascii) : bool :=
  negb (Ascii.eqb c "\" || Ascii.eqb c "[" || Ascii.eqb c "(" || Ascii.eqb c ")"
        || is_quantifier c || is_reserved c).

Definition lit (c : ascii) : regex := One (CChar c).

Lemma parse_step_literal st c :
  md st = Normal -> literal_char c = true -> parse_step st c = push_item st (lit c).
Proof.
  intros Hm Hc. unfold parse_step. rewrite Hm. unfold step_normal.
  unfold literal_char in Hc. apply negb_true_iff in Hc.
  repeat (apply orb_false_iff in Hc; destruct Hc as [Hc ?]).
  repeat match goal with H : _ = false |- _ => rewrite H; clear H end.
  reflexivity.
Qed.

Lemma parse_literal (tag rest : str) : forall st,
  md st = Normal -> Forall (fun c => literal_char c = true) tag ->
  parse st (tag ++ rest) =
  parse {| frames := frames st; cur := rev (map lit tag) ++ cur st;
           next_group := next_group st; md := Normal |} rest.
Proof.
  induction tag as [|c tag IH]; intros st Hm Ht.
  - simpl. destruct st; simpl in *; subst; reflexivity.
  - inversion Ht; subst. simpl. rewrite parse_step_literal by assumption.
    unfold push_item. rewrite IH by (auto). simpl.
    rewrite <- app_assoc. reflexivity.
Qed.

(** The pattern [@tag\s*\{] of a tag of literal characters. *)
Definition block_regex (tag : str) : regex :=
  seq (lit "@" :: map lit tag ++ [Star CSpace; lit "{"]).

Lemma compile_block_pattern (tag : str) :
  Forall (fun c => literal_char c = true) tag ->
  re_compile (block_pattern tag) = Compiled (block_regex tag).
Proof.
  intros Ht. unfold re_compile, block_pattern.
  change ("@" ++ tag ++ "\s*\{") with ("@"%char :: tag ++ "\s*\{").
  cbn [parse]. rewrite parse_step_literal by reflexivity. unfold push_item.
  rewrite parse_literal by (auto). cbn.
  change (is_ascii_alnum "{") with false. cbn.
  unfold block_regex. f_equal.
  rewrite rev_app_distr, rev_involutive. cbn. rewrite <- app_assoc. reflexivity.
Qed.

Lemma re_match_block (tag s : str) :
  Forall (fun c => literal_char c = true) tag ->
  re_match (block_pattern tag) s = Ret (match_at (block_regex tag) s).
Proof.
  intros Ht. unfold re_match, with_pattern.
  rewrite compile_block_pattern by exact Ht. reflexivity.
Qed.

(** With [brace_count] braces open at the start of [s], the text ends
    before they are closed. *)
Fixpoint unclosed (brace_count : nat) (s : str) : bool :=
  match brace_count, s with
  | 0, _ => false
  | S _, [] => true
  | S n, c :: s' =>
      if Ascii.eqb c "{" then unclosed (S (S n)) s'
      else if Ascii.eqb c "}" then unclosed n s'
      else unclosed (S n) s'
  end.

Lemma find_close_unclosed n s : unclosed n s = true -> find_close n s = [].
Proof.
  revert n. induction s as [|c s IH]; intros [|n]; simpl; try discriminate; auto.
  destruct (Ascii.eqb c "{"); [|destruct (Ascii.eqb c "}")]; apply IH.
Qed.

Lemma remove_loop_total (tag : str) :
  Forall (fun c => literal_char c = true) tag ->
  forall s, exists out, remove_loop (block_pattern tag) s = Ret out.
Proof.
  intros Ht s. remember (List.length s) as n eqn:Hn. revert s Hn.
  induction n as [n IH] using lt_wf_ind. intros s Hn.
  destruct s as [|c s]; [exists []; reflexivity|].
  rewrite remove_loop_cons, re_match_block by exact Ht.
  destruct (match_at (block_regex tag) (c :: s)) as [mo|].
  - apply (IH (List.length (after_block (m_end mo) (c :: s)))); [|reflexivity].
    subst n. apply after_block_length.
  - destruct (IH (List.length s)) with (s := s) as [rest Hr];
      [subst n; simpl; lia | reflexivity|].
    rewrite Hr. exists (c :: rest). reflexivity.
Qed.

Lemma remove_loop_copy (tag pre rest : str) :
  Forall (fun c => literal_char c = true) tag ->
  (forall i, i < List.length pre ->
     re_match (block_pattern tag) (skipn i (pre ++ rest)) = Ret None) ->
  remove_loop (block_pattern tag) (pre ++ rest)
  = out <- remove_loop (block_pattern tag) rest ;; Ret (pre ++ out).
Proof.
  intros Ht. induction pre as [|c pre IH]; intros H.
  - simpl. destruct (remove_loop (block_pattern tag) rest); reflexivity.
  - pose proof (H 0 ltac:(simpl; lia)) as H0. cbn [skipn app] in H0.
    cbn [app]. rewrite remove_loop_cons, H0, IH.
    + destruct (remove_loop (block_pattern tag) rest); reflexivity.
    + intros i Hi. apply (H (S i)). simpl. lia.
Qed.

(** The tag is put into the pattern as it is.  The script passes the
    tags [header] and [members]; a tag that is no pattern would raise. *)
Lemma remove_block_raises_on_unbalanced_tag :
  remove_block "x" "(" = Raise re_error.
Proof. reflexivity. Qed.

(** One turn of the loop of lines 75-93, on the text [content[i:]] and the
    text appended to [result] so far: a region that opens at [i] is
    skipped with the blanks after it, any other character is appended. *)
Inductive loop_step (pattern : str) : str * str -> str * str -> Prop :=
| step_region c s mo result :
    re_match pattern (c :: s) = Ret (Some mo) ->
    loop_step pattern (c :: s, result) (after_block (m_end mo) (c :: s), result)
| step_char c s result :
    re_match pattern (c :: s) = Ret None ->
    loop_step pattern (c :: s, result) (s, result ++ [c]).

(** The states the loop goes through. *)
Inductive loop_reaches (pattern : str) : str * str -> str * str -> Prop :=
| reaches_refl st : loop_reaches pattern st st
| reaches_step st1 st2 st3 :
    loop_step pattern st1 st2 -> loop_reaches pattern st2 st3 ->
    loop_reaches pattern st1 st3.

Lemma remove_loop_step pattern s result s' result' :
  loop_step pattern (s, result) (s', result') ->
  exists d, result' = result ++ d
    /\ remove_loop pattern s = (out <- remove_loop pattern s' ;; Ret (d ++ out)).
Proof.
  intros H. inversion H as [c t mo r Hm|c t r Hm]; subst.
  - exists []. split; [symmetry; apply app_nil_r|].
    rewrite remove_loop_cons, Hm.
    destruct (remove_loop pattern (after_block (m_end mo) (c :: t))); reflexivity.
  - exists [c]. split; [reflexivity|].
    rewrite remove_loop_cons, Hm. reflexivity.
Qed.

Lemma remove_loop_reaches pattern st st' :
  loop_reaches pattern st st' ->
  exists d, snd st' = snd st ++ d
    /\ remove_loop pattern (fst st)
       = (out <- remove_loop pattern (fst st') ;; Ret (d ++ out)).
Proof.
  induction 1 as [[s r]|[s1 r1] [s2 r2] [s3 r3] Hs _ IH]; cbn [fst snd] in *.
  - exists []. split; [symmetry; apply app_nil_r|].
    destruct (remove_loop pattern s); reflexivity.
  - destruct (remove_loop_step Hs) as (d1 & -> & E1).
    destruct IH as (d2 & -> & E2).
    exists (d1 ++ d2). split; [symmetry; apply app_assoc|].
    rewrite E1, E2.
    destruct (remove_loop pattern s3); cbn [bind]; [|reflexivity|reflexivity].
    rewrite app_assoc. reflexivity.
Qed.

Lemma loop_reaches_trans pattern st1 st2 st3 :
  loop_reaches pattern st1 st2 -> loop_reaches pattern st2 st3 ->
  loop_reaches pattern st1 st3.
Proof.
  induction 1 as [|a b c Hs _ IH]; intros H; [exact H|].
  eapply reaches_step; [exact Hs | apply IH; exact H].
Qed.

(** The loop ends, with the text [remove_loop] gives. *)
Lemma remove_loop_ends (tag : str) :
  Forall (fun c => literal_char c = true) tag ->
  forall s result, exists out,
    remove_loop (block_pattern tag) s = Ret out
    /\ loop_reaches (block_pattern tag) (s, result) ([], result ++ out).
Proof.
  intros Ht s. remember (List.length s) as n eqn:Hn. revert s Hn.
  induction n as [n IH] using lt_wf_ind. intros s Hn result.
  destruct s as [|c s].
  - exists []. split; [reflexivity|]. rewrite app_nil_r. apply reaches_refl.
  - rewrite remove_loop_cons, re_match_block by exact Ht.
    destruct (match_at (block_regex tag) (c :: s)) as [mo|] eqn:E.
    + destruct (IH (List.length (after_block (m_end mo) (c :: s))))
        with (s := after_block (m_end mo) (c :: s)) (result := result)
        as (out & Ho & Hr); [subst n; apply after_block_length | reflexivity|].
      exists out. split; [exact Ho|].
      eapply reaches_step; [|exact Hr]. apply step_region.
      rewrite re_match_block by exact Ht. rewrite E. reflexivity.
    + destruct (IH (List.length s)) with (s := s) (result := result ++ [c])
        as (out & Ho & Hr); [subst n; simpl; lia | reflexivity|].
      rewrite Ho. exists (c :: out). split; [reflexivity|].
      eapply reaches_step.
      * apply step_char. rewrite re_match_block by exact Ht. rewrite E. reflexivity.
      * rewrite <- app_assoc in Hr. exact Hr.
Qed.

(** At the opening of a region whose braces are never closed the loop
    appends nothing more. *)
Lemma remove_loop_unclosed pattern region mo :
  re_match pattern region = Ret (Some mo) ->
  unclosed 1 (skipn (m_end mo) region) = true ->
  remove_loop pattern region = Ret [].
Proof.
  intros Hm Hu. destruct region as [|c region]; [reflexivity|].
  rewrite remove_loop_cons, Hm. unfold after_block.
  rewrite (find_close_unclosed _ _ Hu). reflexivity.
Qed.

(** C5.  For every input text and every region tag made of characters
    that stand for themselves in a pattern, as [header] and [members]
    are, [remove_block] raises nothing: the loop ends and the text it has
    built is returned.  When the loop comes to the opening of a region
    whose braces never return to depth zero, wherever in the text that
    is, the text built up to there is returned: all from the opening to
    the end of the text is removed.  In particular, when this is the first
    opening of the text, the text before it is returned. *)
Theorem remove_block_returns (content block_name : str) :
  Forall (fun c => literal_char c = true) block_name ->
  (exists out,
     remove_block content block_name = Ret out
     /\ loop_reaches (block_pattern block_name) (content, []) ([], out))
  /\ (forall region result mo,
        loop_reaches (block_pattern block_name) (content, []) (region, result) ->
        re_match (block_pattern block_name) region = Ret (Some mo) ->
        unclosed 1 (skipn (m_end mo) region) = true ->
        remove_block content block_name = Ret result
        /\ loop_reaches (block_pattern block_name) (region, result) ([], result))
  /\ (forall pre region mo,
        content = pre ++ region ->
        (forall i, i < List.length pre ->
           re_match (block_pattern block_name) (skipn i content) = Ret None) ->
        re_match (block_pattern block_name) region = Ret (Some mo) ->
        unclosed 1 (skipn (m_end mo) region) = true ->
        remove_block content block_name = Ret pre).
Proof.
  intros Ht. split; [|split].
  - destruct (remove_loop_ends Ht content []) as (out & Ho & Hr).
    exists out. split; [exact Ho | exact Hr].
  - intros region result mo Hr Hm Hu. split.
    + destruct (remove_loop_reaches Hr) as (d & E1 & E2). cbn [fst snd] in *.
      subst result. unfold remove_block.
      rewrite E2, (@remove_loop_unclosed _ _ _ Hm Hu). cbn [bind].
      rewrite app_nil_r. reflexivity.
    + destruct region as [|c region]; [apply reaches_refl|].
      eapply reaches_step; [apply step_region; exact Hm|].
      unfold after_block. rewrite (find_close_unclosed _ _ Hu). apply reaches_refl.
  - intros pre region mo -> Hpre Hm Hu. unfold remove_block.
    rewrite (remove_loop_copy _ _ Ht Hpre).
    rewrite (@remove_loop_unclosed _ _ _ Hm Hu). cbn [bind].
    rewrite app_nil_r. reflexivity.
Qed.

Ltac loop_state :=
  match goal with
  | |- loop_reaches ?p ?a ?b =>
      let a' := eval vm_compute in a in change (loop_reaches p a' b)
  end.

Lemma remove_block_returns_witness :
  (exists out,
     remove_block "@members {a} x @members {{b} y" "members" = Ret out
     /\ loop_reaches (block_pattern "members")
          (of_string "@members {a} x @members {{b} y", []) ([], out))
  /\ remove_block "@members {a} x @members {{b} y" "members" = Ret (of_string "x ")
  /\ remove_block "a @members {{x} b" "members" = Ret (of_string "a ").
Proof.
  destruct (@remove_block_returns "@members {a} x @members {{b} y" "members")
    as (H1 & H2 & _); [repeat constructor|].
  destruct (@remove_block_returns "a @members {{x} b" "members")
    as (_ & _ & H3); [repeat constructor|].
  split; [exact H1|]. split.
  - apply (H2 "@members {{b} y" "x " {| m_end := 10; m_groups := [] |}).
    + eapply reaches_step; [apply step_region; vm_compute; reflexivity|]. loop_state.
      eapply reaches_step; [apply step_char; vm_compute; reflexivity|]. loop_state.
      eapply reaches_step; [apply step_char; vm_compute; reflexivity|]. loop_state.
      apply reaches_refl.
    + reflexivity.
    + reflexivity.
  - apply (H3 "a " "@members {{x} b" {| m_end := 10; m_groups := [] |}).
    + reflexivity.
    + intros i Hi. destruct i as [|[|i]]; [reflexivity | reflexivity | simpl in Hi; lia].
    + reflexivity.
    + reflexivity.
Defined.

(** *** Regions of the tag [members] *)

Definition MEMBERS : regex := Eval vm_compute in block_regex "members".

Lemma re_match_members s : re_match (block_pattern "members") s = Ret (match_at MEMBERS s).
Proof. apply (@re_match_block "members" s). repeat constructor. Qed.

Lemma det_MEMBERS : det MEMBERS None = true. Proof. vm_compute. reflexivity. Qed.
Lemma closed_MEMBERS : closed MEMBERS = true. Proof. vm_compute. reflexivity. Qed.

(** The number of places of a text where the opening of a [members]
    region, [@members\s*\{], begins. *)
Fixpoint count_matches (r : regex) (s : str) : nat :=
  (match match_at r s with Some _ => 1 | None => 0 end)
  + match s with
    | [] => 0
    | _ :: s' => count_matches r s'
    end.

Definition openings (s : str) : nat := count_matches MEMBERS s.

(** The scan of the braces of a body: [d] braces are open at its start,
    none is closed that was not opened in it, and [d] too few are closed. *)
Fixpoint balanced_from (d : nat) (s : str) : bool :=
  match s with
  | [] => Nat.eqb d 0
  | c :: s' =>
      if Ascii.eqb c "{" then balanced_from (S d) s'
      else if Ascii.eqb c "}" then
        match d with
        | 0 => false
        | S d' => balanced_from d' s'
        end
      else balanced_from d s'
  end.

Definition balanced (body : str) : bool := balanced_from 0 body.

(** A region [@members ws { body } trail]. *)
Record region := {
  r_ws : str;      (* whitespace before the brace *)
  r_body : str;    (* between the braces *)
  r_trail : str    (* blanks after the closing brace *)
}.

Definition region_text (r : region) : str :=
  "@members" ++ r_ws r ++ "{" ++ r_body r ++ "}" ++ r_trail r.

Definition region_ok (r : region) : Prop :=
  Forall (fun c => isspace c = true) (r_ws r)
  /\ balanced (r_body r) = true
  /\ Forall (fun c => is_blank c = true) (r_trail r).

Definition starts_blank (s : str) : bool :=
  match s with c :: _ => is_blank c | [] => false end.

(** A text: [g0], then regions, each followed by a text. *)
Fixpoint assemble (g0 : str) (rs : list (region * str)) : str :=
  match rs with
  | [] => g0
  | (r, g) :: rs' => g0 ++ region_text r ++ assemble g rs'
  end.

Fixpoint kept (g0 : str) (rs : list (region * str)) : str :=
  match rs with
  | [] => g0
  | (_, g) :: rs' => g0 ++ kept g rs'
  end.

Lemma find_close_0 s : find_close 0 s = s.
Proof. destruct s; reflexivity. Qed.

Lemma find_close_balanced body : forall d rest,
  balanced_from d body = true ->
  find_close (S d) (body ++ "}"%char :: rest) = rest.
Proof.
  induction body as [|c body IH]; intros d rest H; simpl in *.
  - apply Nat.eqb_eq in H. subst. apply find_close_0.
  - destruct (Ascii.eqb c "{"); [apply IH; exact H|].
    destruct (Ascii.eqb c "}"); [|apply IH; exact H].
    destruct d as [|d]; [discriminate|]. apply IH. exact H.
Qed.

Lemma skip_ws_trail trail g :
  Forall (fun c => is_blank c = true) trail -> starts_blank g = false ->
  skip_ws (trail ++ g) = g.
Proof.
  intros Ht Hg. induction Ht as [|c trail Hc _ IH]; cbn [app skip_ws].
  - destruct g as [|c g]; [reflexivity|]. cbn [starts_blank] in Hg.
    cbn [skip_ws]. rewrite Hg. reflexivity.
  - rewrite Hc. exact IH.
Qed.

Lemma drop_while_stop cs (x y : str) :
  Forall (fun c => charset_mem cs c = true) x ->
  match y with c :: _ => charset_mem cs c = false | [] => True end ->
  drop_while cs (x ++ y) = y.
Proof.
  intros Hx Hy. rewrite drop_while_app by exact Hx.
  destruct y as [|c y]; [reflexivity|]. simpl. rewrite Hy. reflexivity.
Qed.

Lemma match_region (ws rest : str) :
  Forall (fun c => isspace c = true) ws ->
  match_at MEMBERS ("@members" ++ ws ++ "{"%char :: rest)
  = Some {| m_end := 9 + List.length ws; m_groups := [] |}.
Proof.
  intros Hw. rewrite (match_at_det _ _ det_MEMBERS).
  unfold MEMBERS. cbn [app of_string list_ascii_of_string dmatch charset_mem].
  cbn [Ascii.eqb Bool.eqb].
  rewrite (@drop_while_stop CSpace ws ("{"%char :: rest) Hw) by reflexivity.
  cbn [charset_mem Ascii.eqb Bool.eqb]. f_equal. f_equal.
  cbn [List.length]. rewrite length_app. cbn [List.length]. lia.
Qed.

Lemma match_members_shape s mo :
  match_at MEMBERS s = Some mo ->
  exists ws rest,
    Forall (fun c => isspace c = true) ws
    /\ s = "@members" ++ ws ++ "{"%char :: rest
    /\ m_end mo = 9 + List.length ws.
Proof.
  intros H.
  destruct (@match_at_sem MEMBERS s mo det_MEMBERS H) as (x & s' & -> & Hm & Hsem).
  unfold MEMBERS in Hsem. inv_sem. rewrite ?app_nil_r in *.
  match goal with Hx : Forall _ ?w |- _ => exists w, s' end.
  split; [assumption|]. split.
  - cbn. rewrite <- !app_assoc. reflexivity.
  - rewrite Hm. cbn. rewrite !length_app. cbn. lia.
Qed.

Lemma openings_zero g :
  openings g = 0 -> forall i, match_at MEMBERS (skipn i g) = None.
Proof.
  unfold openings. induction g as [|c g IH]; intros H i.
  - rewrite skipn_nil. reflexivity.
  - cbn [count_matches] in H.
    destruct (match_at MEMBERS (c :: g)) eqn:E; [discriminate|].
    destruct i as [|i]; [exact E|]. cbn [skipn]. apply IH. exact H.
Qed.

Lemma gap_no_match (g rest : str) :
  openings g = 0 ->
  (rest = [] \/ exists rest', rest = "@"%char :: rest') ->
  forall i, i < List.length g -> match_at MEMBERS (skipn i (g ++ rest)) = None.
Proof.
  intros Hg Hrest i Hi.
  pose proof (openings_zero g Hg i) as Hu.
  rewrite skipn_app. replace (i - List.length g) with 0 by lia. cbn [skipn].
  assert (Hne : skipn i g <> []).
  { intros E. apply (f_equal (@List.length ascii)) in E.
    rewrite length_skipn in E. simpl in E. lia. }
  set (u := skipn i g) in *. clearbody u.
  destruct (match_at MEMBERS (u ++ rest)) as [mo|] eqn:E; [|reflexivity].
  exfalso. destruct (match_members_shape _ E) as (ws & rest0 & Hws & Ex & _).
  change ("@members" ++ ws ++ "{"%char :: rest0)
    with ("@"%char :: "members" ++ ws ++ "{"%char :: rest0) in Ex.
  destruct u as [|d u]; [contradiction|]. cbn [app] in Ex.
  injection Ex as -> Ex.
  assert (Ex' : u ++ rest = ("members" ++ ws ++ ["{"%char]) ++ rest0).
  { rewrite Ex. cbn [app of_string list_ascii_of_string].
    rewrite <- app_assoc. reflexivity. }
  clear Ex. apply app_eq_app in Ex'. destruct Ex' as (l & [[E1 E2]|[E1 E2]]).
  - subst u.
    replace ("@"%char :: ("members" ++ ws ++ ["{"%char]) ++ l)
      with ("@members" ++ ws ++ "{"%char :: l) in Hu
      by (cbn [app of_string list_ascii_of_string]; rewrite <- !app_assoc;
          reflexivity).
    rewrite (@match_region ws l Hws) in Hu. discriminate.
  - destruct l as [|c l].
    + rewrite app_nil_r in E1. subst u.
      replace ("@"%char :: "members" ++ ws ++ ["{"%char])
        with ("@members" ++ ws ++ "{"%char :: []) in Hu by reflexivity.
      rewrite (@match_region ws [] Hws) in Hu. discriminate.
    + destruct Hrest as [->|(rest' & ->)]; [discriminate|].
      injection E2 as <- _.
      assert (Hin : In "@"%char ("members" ++ ws ++ ["{"%char])).
      { rewrite E1. apply in_or_app. right. left. reflexivity. }
      apply in_app_or in Hin. destruct Hin as [Hin|Hin].
      * cbn in Hin. repeat (destruct Hin as [Hin|Hin]; [discriminate|]). exact Hin.
      * apply in_app_or in Hin. destruct Hin as [Hin|Hin].
        -- rewrite Forall_forall in Hws. specialize (Hws _ Hin). discriminate.
        -- cbn in Hin. destruct Hin as [Hin|[]]. discriminate.
Qed.

Lemma assemble_head g0 rs :
  exists rest, assemble g0 rs = g0 ++ rest
               /\ (rest = [] \/ exists rest', rest = "@"%char :: rest').
Proof.
  destruct rs as [|[r g] rs]; simpl.
  - exists []. rewrite app_nil_r. auto.
  - eexists. split; [reflexivity|]. right. eexists. reflexivity.
Qed.

Lemma region_text_eq (r : region) (rest : str) :
  region_text r ++ rest
  = "@members" ++ r_ws r ++ "{"%char :: (r_body r ++ "}"%char :: r_trail r ++ rest).
Proof.
  unfold region_text. cbn [app of_string list_ascii_of_string].
  rewrite <- !app_assoc. cbn [app]. rewrite <- !app_assoc. reflexivity.
Qed.

Lemma skipn_opening (ws x : str) :
  skipn (9 + List.length ws) ("@members" ++ ws ++ "{"%char :: x) = x.
Proof.
  replace ("@members" ++ ws ++ "{"%char :: x)
    with (("@members" ++ ws ++ ["{"%char]) ++ x)
    by (cbn [app of_string list_ascii_of_string]; rewrite <- !app_assoc;
        reflexivity).
  replace (9 + List.length ws) with (List.length ("@members" ++ ws ++ ["{"%char]))
    by (cbn [app of_string list_ascii_of_string List.length];
        rewrite length_app; cbn [List.length]; lia).
  rewrite skipn_app, Nat.sub_diag, skipn_all. reflexivity.
Qed.

Lemma remove_loop_match (s : str) (mo : match_obj) :
  match_at MEMBERS s = Some mo ->
  remove_loop (block_pattern "members") s
  = remove_loop (block_pattern "members") (after_block (m_end mo) s).
Proof.
  intros H. destruct s as [|c s]; [discriminate|].
  rewrite remove_loop_cons, re_match_members, H. reflexivity.
Qed.

Lemma remove_region (r : region) (g : str) (rs : list (region * str)) :
  region_ok r -> starts_blank g = false ->
  remove_loop (block_pattern "members") (region_text r ++ assemble g rs)
  = remove_loop (block_pattern "members") (assemble g rs).
Proof.
  intros (Hws & Hb & Ht) Hg. rewrite region_text_eq.
  rewrite (remove_loop_match _ (@match_region (r_ws r) _ Hws)).
  cbn [m_end]. unfold after_block. rewrite skipn_opening.
  rewrite (find_close_balanced _ 0 _ Hb).
  assert (Hs : starts_blank (assemble g rs) = false).
  { destruct rs as [|[r' g'] rs]; cbn [assemble]; [exact Hg|].
    destruct g; [|exact Hg]. cbn [app]. rewrite region_text_eq. reflexivity. }
  rewrite (skip_ws_trail _ Ht Hs). reflexivity.
Qed.

Lemma remove_loop_regions (rs : list (region * str)) : forall g0,
  openings g0 = 0 ->
  Forall (fun rg => region_ok (fst rg) /\ starts_blank (snd rg) = false
                    /\ openings (snd rg) = 0) rs ->
  remove_loop (block_pattern "members") (assemble g0 rs) = Ret (kept g0 rs).
Proof.
  induction rs as [|[r g] rs IH]; intros g0 H0 Hrs.
  - cbn [assemble kept]. rewrite <- (app_nil_r g0) at 1.
    rewrite remove_loop_copy; [|repeat constructor|].
    + rewrite remove_loop_equation_1. cbn [bind]. rewrite app_nil_r. reflexivity.
    + intros i Hi. rewrite re_match_members. f_equal.
      apply gap_no_match; auto.
  - inversion Hrs as [|? ? (Hr & Hg & Hog) Hrs']; subst. cbn [fst snd] in *.
    cbn [assemble kept].
    rewrite remove_loop_copy; [|repeat constructor|].
    + rewrite (@remove_region r g rs Hr Hg), (IH g Hog Hrs'). reflexivity.
    + intros i Hi. rewrite re_match_members. f_equal.
      apply gap_no_match; auto. right. rewrite region_text_eq. eexists. reflexivity.
Qed.

(** C4, the claim as stated fails: here one region with balanced braces
    is removed, and the texts around it join into an opening. *)
Lemma remove_block_can_leave_an_opening :
  openings "@mem@members {x}bers {y}" = 1
  /\ remove_block "@mem@members {x}bers {y}" "members"
     = Ret (of_string "@members {y}")
  /\ openings "@members {y}" = 1.
Proof. repeat split. Qed.

(** C4, amended.  A text made of [N] regions [@members ws { body } trail]
    (whitespace [ws], balanced braces in [body], all the blanks that
    follow in [trail]) and of the texts before, between and after them,
    none of which has the opening of such a region in it: the Block
    Stripper removes the [N] regions with their trailing blanks and
    returns the other texts in their order, character for character.
    (The result can have an opening in it where two texts join.) *)
Theorem remove_block_strips_regions (g0 : str) (rs : list (region * str)) :
  openings g0 = 0 ->
  Forall (fun rg => region_ok (fst rg) /\ starts_blank (snd rg) = false
                    /\ openings (snd rg) = 0) rs ->
  remove_block (assemble g0 rs) "members" = Ret (kept g0 rs)
  /\ kept g0 rs = g0 ++ flat_map snd rs.
Proof.
  intros H0 Hrs. split; [apply remove_loop_regions; assumption|].
  clear. revert g0. induction rs as [|[r g] rs IH]; intros g0; cbn.
  - rewrite app_nil_r. reflexivity.
  - rewrite IH. reflexivity.
Qed.

Lemma remove_block_strips_regions_witness :
  remove_block "grammar G;
@members {int n; void f() { n++; }}

a : {p()}? B ;
@members{}c" "members"
  = Ret (of_string "grammar G;
a : {p()}? B ;
c").
Proof.
  exact (proj1 (@remove_block_strips_regions
    "grammar G;
"
    [({| r_ws := " "; r_body := "int n; void f() { n++; }"; r_trail := "

" |}, of_string "a : {p()}? B ;
");
     ({| r_ws := ""; r_body := ""; r_trail := "" |}, of_string "c")]
    eq_refl
    ltac:(repeat constructor))).
Defined.

(** ** Injection and verification *)

Definition LEXER_DEF : regex :=
  Eval vm_compute in pattern_of "SqlBaseLexer\.prototype\.(\w+)\s*=".
Definition PARSER_DEF : regex :=
  Eval vm_compute in pattern_of "SqlBaseParser\.prototype\.(\w+)\s*=".

Lemma compile_LEXER_DEF :
  re_compile "SqlBaseLexer\.prototype\.(\w+)\s*=" = Compiled LEXER_DEF.
Proof. vm_compute. reflexivity. Qed.
Lemma compile_PARSER_DEF :
  re_compile "SqlBaseParser\.prototype\.(\w+)\s*=" = Compiled PARSER_DEF.
Proof. vm_compute. reflexivity. Qed.

Lemma det_LEXER_DEF : det LEXER_DEF None = true. Proof. vm_compute. reflexivity. Qed.
Lemma det_PARSER_DEF : det PARSER_DEF None = true. Proof. vm_compute. reflexivity. Qed.
Lemma closed_LEXER_DEF : closed LEXER_DEF = true. Proof. vm_compute. reflexivity. Qed.
Lemma closed_PARSER_DEF : closed PARSER_DEF = true. Proof. vm_compute. reflexivity. Qed.

(** A pattern [Class\.prototype\.(\w+)\s*=]: what it matches is the text
    [L] of the class and [.prototype.], a name, whitespace and [=]. *)
Definition def_pattern (L : str) (r : regex) : Prop :=
  det r None = true /\ closed r = true
  /\ L <> [] /\ Forall (fun c => isspace c = false) L
  /\ forall s mo, match_at r s = Some mo ->
       exists name sp s',
         Forall (fun c => isword c = true) name
         /\ Forall (fun c => isspace c = true) sp
         /\ s = ((L ++ name) ++ sp ++ ["="%char]) ++ s'
         /\ m_end mo = List.length ((L ++ name) ++ sp ++ ["="%char]).

Ltac def_pattern_tac detl closedl :=
  split; [exact detl|]; split; [exact closedl|];
  split; [discriminate|]; split; [repeat constructor|];
  let s := fresh "s" in let mo := fresh "mo" in let H := fresh "H" in
  intros s mo H;
  match type of H with
  | match_at ?P _ = _ =>
      let x := fresh "x" in let s' := fresh "s'" in
      let Hm := fresh "Hm" in let Hsem := fresh "Hsem" in
      destruct (@match_at_sem P s mo detl H) as (x & s' & -> & Hm & Hsem);
      clear H; unfold P in Hsem; inv_sem; rewrite ?app_nil_r in *;
      match goal with
      | Hc : charset_mem CWord ?c = true,
        Hw : Forall (fun c => charset_mem CWord c = true) ?w,
        Hs : Forall (fun c => charset_mem CSpace c = true) ?sp |- _ =>
          exists (c :: w), sp, s';
          split; [constructor; [exact Hc | exact Hw]|]; split; [exact Hs|];
          split; [cbn; rewrite <- !app_assoc; reflexivity|];
          rewrite Hm; f_equal; cbn; rewrite <- !app_assoc; reflexivity
      end
  end.

Lemma def_LEXER : def_pattern "SqlBaseLexer.prototype." LEXER_DEF.
Proof. def_pattern_tac det_LEXER_DEF closed_LEXER_DEF. Qed.

Lemma def_PARSER : def_pattern "SqlBaseParser.prototype." PARSER_DEF.
Proof. def_pattern_tac det_PARSER_DEF closed_PARSER_DEF. Qed.

Definition quiet_start (b : str) : Prop :=
  (b = [] \/ exists c b', b = c :: b' /\ isspace c = true)
  /\ match drop_while CSpace b with
     | c :: _ => c <> "="%char
     | [] => True
     end.

Lemma snoc_suffix (A : Type) (sp l2 l : list A) (e : A) :
  l <> [] -> sp ++ [e] = l2 ++ l -> exists m, l = m ++ [e] /\ sp = l2 ++ m.
Proof.
  intros Hl E. destruct (exists_last Hl) as (m & e' & ->).
  rewrite app_assoc in E. apply app_inj_tail in E. destruct E as [-> ->].
  exists m. auto.
Qed.

Lemma drop_while_eq (m s' : str) :
  Forall (fun c => isspace c = true) m ->
  drop_while CSpace ((m ++ ["="%char]) ++ s') = "="%char :: s'.
Proof.
  intros Hm. rewrite <- app_assoc. apply drop_while_stop; [exact Hm | reflexivity].
Qed.

Section DefPattern.
Variables (L : str) (r : regex).
Hypothesis Hdef : def_pattern L r.

Lemma def_match_end s mo :
  match_at r s = Some mo -> 0 < m_end mo <= List.length s.
Proof.
  destruct Hdef as (_ & _ & _ & _ & Hshape). intros H.
  destruct (Hshape _ _ H) as (name & sp & s' & _ & _ & -> & ->).
  rewrite !length_app. cbn [List.length]. lia.
Qed.

Lemma def_match_nil : match_at r [] = None.
Proof.
  destruct (match_at r []) as [mo|] eqn:E; [|reflexivity].
  pose proof E as H. apply def_match_end in H. simpl in H. lia.
Qed.

Lemma def_match_extend u b mo :
  match_at r u = Some mo -> match_at r (u ++ b) = Some mo.
Proof.
  destruct Hdef as (Hd & Hc & _ & _ & Hshape). intros H.
  destruct (Hshape _ _ H) as (name & sp & s' & _ & _ & -> & Hm).
  rewrite <- app_assoc. eapply match_at_closed; eassumption.
Qed.

Lemma def_match_cut u b mo :
  quiet_start b -> match_at r (u ++ b) = Some mo -> match_at r u = Some mo.
Proof.
  destruct Hdef as (Hd & Hc & _ & HL & Hshape). intros [Hb1 Hb2] H.
  destruct (Hshape _ _ H) as (name & sp & s' & Hname & Hsp & E & Hm).
  set (X := (L ++ name) ++ sp ++ ["="%char]) in *.
  apply app_eq_app in E. destruct E as (l & [[E1 E2]|[E1 E2]]).
  - subst u. rewrite <- app_assoc in H. eapply match_at_closed; eassumption.
  - destruct l as [|c l].
    + rewrite app_nil_r in E1. subst u.
      rewrite <- (app_nil_r X). eapply match_at_closed; eassumption.
    + exfalso. subst b.
      destruct Hb1 as [Hb1|(c0 & b' & Hb1 & Hc0)]; [discriminate|].
      injection Hb1 as <- _.
      assert (Hl : exists m, c :: l = m ++ ["="%char]
                             /\ Forall (fun c => isspace c = true) m).
      { unfold X in E1. apply app_eq_app in E1.
        destruct E1 as (l2 & [[E3 E4]|[E3 E4]]).
        - destruct l2 as [|d l2].
          + exists sp. split; [exact E4 | exact Hsp].
          + exfalso. cbn [app] in E4. injection E4 as <- _.
            assert (Hin : In c (L ++ name)).
            { rewrite E3. apply in_or_app. right. left. reflexivity. }
            apply in_app_or in Hin. destruct Hin as [Hin|Hin].
            * rewrite Forall_forall in HL. rewrite (HL _ Hin) in Hc0. discriminate.
            * rewrite Forall_forall in Hname. specialize (Hname _ Hin).
              rewrite (@disjoint_spec _ _ c word_not_space Hname) in Hc0. discriminate.
        - destruct (@snoc_suffix _ sp l2 (c :: l) "="%char) as (m & Em & Esp);
            [discriminate | exact E4|].
          exists m. split; [exact Em|]. subst sp.
          apply Forall_app in Hsp. tauto. }
      destruct Hl as (m & Em & Hm'). rewrite Em in Hb2.
      rewrite (@drop_while_eq m s' Hm') in Hb2. contradiction.
Qed.

Lemma def_match_app u b :
  quiet_start b -> match_at r (u ++ b) = match_at r u.
Proof.
  intros Hb. destruct (match_at r (u ++ b)) as [mo|] eqn:E.
  - symmetry. eapply def_match_cut; eassumption.
  - destruct (match_at r u) as [mo|] eqn:E'; [|reflexivity].
    apply def_match_extend with (b := b) in E'. rewrite E' in E. discriminate.
Qed.

Lemma scan_app b : quiet_start b ->
  forall a k, k <= List.length a ->
    scan r k (a ++ b) = scan r k a ++ scan r 0 b.
Proof.
  intros Hb. induction a as [|c a IH]; intros k Hk.
  - simpl in Hk. replace k with 0 by lia. cbn [app scan].
    rewrite def_match_nil. reflexivity.
  - destruct k as [|k].
    + cbn [app scan].
      change (c :: a ++ b) with ((c :: a) ++ b). rewrite (@def_match_app (c :: a) b Hb).
      destruct (match_at r (c :: a)) as [mo|] eqn:E.
      * pose proof E as Hend. apply def_match_end in Hend. cbn [List.length] in Hend.
        destruct (m_end mo) as [|j]; [lia|].
        cbn [app]. f_equal. apply IH. lia.
      * cbn [app]. f_equal. apply IH. lia.
    + cbn [app scan]. apply IH. simpl in Hk. lia.
Qed.

Lemma findall_app a b :
  quiet_start b ->
  findall_compiled r (a ++ b) = findall_compiled r a ++ findall_compiled r b.
Proof.
  intros Hb. unfold findall_compiled.
  rewrite (@scan_app b Hb a 0) by lia. apply flat_map_app.
Qed.

Lemma findall_spaces ws :
  Forall (fun c => isspace c = true) ws -> findall_compiled r ws = [].
Proof.
  destruct Hdef as (_ & _ & HLne & HL & Hshape).
  intros Hws. unfold findall_compiled.
  induction Hws as [|c ws Hc _ IH]; cbn [scan].
  - rewrite def_match_nil. reflexivity.
  - destruct (match_at r (c :: ws)) as [mo|] eqn:E; [|exact IH].
    exfalso. destruct (Hshape _ _ E) as (name & sp & s' & _ & _ & Es & _).
    destruct L as [|l0 L']; [contradiction|]. cbn [app] in Es.
    injection Es as -> _. inversion HL; subst. congruence.
Qed.

Lemma quiet_spaces ws : Forall (fun c => isspace c = true) ws -> quiet_start ws.
Proof.
  intros H. split.
  - destruct H as [|c ws Hc _]; [left; reflexivity|]. right. eauto.
  - replace (drop_while CSpace ws) with (@nil ascii); [exact I|].
    symmetry. rewrite <- (app_nil_r ws). rewrite drop_while_app by exact H.
    reflexivity.
Qed.

(** The definitions found in an artifact after injection: those of the
    artifact as it was, then those of the block. *)
Lemma findall_injected content block :
  quiet_start block ->
  findall_compiled r (rstrip content ++ block)
  = findall_compiled r content ++ findall_compiled r block.
Proof.
  intros Hb. rewrite (@findall_app _ _ Hb). f_equal.
  destruct (rstrip_split content) as (ws & E & Hws).
  rewrite E at 2. rewrite (@findall_app _ _ (@quiet_spaces _ Hws)).
  rewrite (@findall_spaces _ Hws), app_nil_r. reflexivity.
Qed.

End DefPattern.

Definition str_dec : forall a b : str, {a = b} + {a <> b} := list_eq_dec ascii_dec.

Lemma re_findall_lexer content :
  re_findall "SqlBaseLexer\.prototype\.(\w+)\s*=" content
  = Ret (findall_compiled LEXER_DEF content).
Proof. unfold re_findall, with_pattern. rewrite compile_LEXER_DEF. reflexivity. Qed.

Lemma re_findall_parser content :
  re_findall "SqlBaseParser\.prototype\.(\w+)\s*=" content
  = Ret (findall_compiled PARSER_DEF content).
Proof. unfold re_findall, with_pattern. rewrite compile_PARSER_DEF. reflexivity. Qed.

(** The names the two blocks define, in their order. *)
Definition lexer_block_names : list str :=
  Eval vm_compute in findall_compiled LEXER_DEF lexer_predicates_js.
Definition parser_block_names : list str :=
  Eval vm_compute in findall_compiled PARSER_DEF parser_predicates_js.

Lemma findall_lexer_block :
  findall_compiled LEXER_DEF lexer_predicates_js = lexer_block_names.
Proof. vm_compute. reflexivity. Qed.

Lemma findall_parser_block :
  findall_compiled PARSER_DEF parser_predicates_js = parser_block_names.
Proof. vm_compute. reflexivity. Qed.

Lemma quiet_lexer_block : quiet_start lexer_predicates_js.
Proof.
  split; [right; do 2 eexists; split; reflexivity|]. vm_compute. discriminate.
Qed.

Lemma quiet_parser_block : quiet_start parser_predicates_js.
Proof.
  split; [right; do 2 eexists; split; reflexivity|]. vm_compute. discriminate.
Qed.

Lemma lexer_block_once n :
  In n required_lexer_predicates -> count_occ str_dec lexer_block_names n = 1.
Proof.
  intros H. cbn in H.
  repeat (destruct H as [<-|H]; [vm_compute; reflexivity|]). contradiction.
Qed.

Lemma parser_block_once n :
  In n (required_parser_predicates ++ required_parser_flags) ->
  count_occ str_dec parser_block_names n = 1.
Proof.
  intros H. cbn in H.
  repeat (destruct H as [<-|H]; [vm_compute; reflexivity|]). contradiction.
Qed.

Lemma parser_block_flags f :
  In f required_parser_flags ->
  contains ("prototype." ++ f) parser_predicates_js = true.
Proof.
  intros H. cbn in H.
  repeat (destruct H as [<-|H]; [vm_compute; reflexivity|]). contradiction.
Qed.

Lemma contains_app_r needle a b :
  contains needle b = true -> contains needle (a ++ b) = true.
Proof.
  intros H. induction a as [|c a IH]; [exact H|].
  cbn [app contains]. rewrite IH. apply orb_true_r.
Qed.

Lemma filter_none (A : Type) (f : A -> bool) (l : list A) :
  (forall x, In x l -> f x = false) -> filter f l = [].
Proof.
  induction l as [|x l IH]; intros H; [reflexivity|].
  cbn [filter]. rewrite (H x) by (left; reflexivity).
  apply IH. intros y Hy. apply H. right. exact Hy.
Qed.

Lemma mem_count x l : 0 < count_occ str_dec l x -> mem x l = true.
Proof.
  intros H. apply (count_occ_In str_dec) in H. unfold mem.
  apply existsb_exists. exists x. split; [exact H | apply str_eqb_refl].
Qed.

Lemma set_diff_all required impls :
  (forall x, In x required -> count_occ str_dec impls x = 1) ->
  set_diff required impls = [].
Proof.
  intros H. unfold set_diff. apply filter_none. intros x Hx.
  rewrite mem_count; [reflexivity|]. rewrite (H x Hx). lia.
Qed.

Lemma count_injected (old block : list str) n :
  ~ In n old -> count_occ str_dec block n = 1 ->
  count_occ str_dec (old ++ block) n = 1.
Proof.
  intros Ho Hb. rewrite count_occ_app, Hb.
  apply (count_occ_not_In str_dec) in Ho. rewrite Ho. reflexivity.
Qed.

(** The statements that follow take all their arguments explicitly. *)
Unset Implicit Arguments.

Lemma bindM_ret (A B : Type) (c : M A) (k : A -> M B) (w w' : world) (a : A) :
  c w = (Ret a, w') -> bindM c k w = k a w'.
Proof. intros H. unfold bindM. rewrite H. reflexivity. Qed.

Lemma lift_ret (A : Type) (o : outcome A) (a : A) (w : world) :
  o = Ret a -> lift o w = (Ret a, w).
Proof. intros ->. reflexivity. Qed.

(** ** Matching step by step *)

Lemma dmatch_one_hit cs c s g :
  charset_mem cs c = true -> dmatch (One cs) (c :: s) g = Some (s, g).
Proof. intros H. cbn [dmatch]. rewrite H. reflexivity. Qed.

Lemma dmatch_one_miss cs c s g :
  charset_mem cs c = false -> dmatch (One cs) (c :: s) g = None.
Proof. intros H. cbn [dmatch]. rewrite H. reflexivity. Qed.

Lemma dmatch_lit c s g : dmatch (One (CChar c)) (c :: s) g = Some (s, g).
Proof. apply dmatch_one_hit. apply Ascii.eqb_refl. Qed.

Lemma dmatch_plus_run cs x rest g :
  x <> [] -> Forall (fun c => charset_mem cs c = true) x ->
  drop_while cs rest = rest ->
  dmatch (Plus cs) (x ++ rest) g = Some (rest, g).
Proof.
  intros Hne Hx Hr. destruct x as [|c x]; [contradiction|].
  inversion Hx as [|? ? Hc Hx']; subst.
  cbn [app dmatch]. rewrite Hc, (@drop_while_app cs x rest Hx'), Hr. reflexivity.
Qed.

Lemma dmatch_plus_miss cs c s g :
  charset_mem cs c = false -> dmatch (Plus cs) (c :: s) g = None.
Proof. intros H. cbn [dmatch]. rewrite H. reflexivity. Qed.

Lemma dmatch_star_run cs x rest g :
  Forall (fun c => charset_mem cs c = true) x ->
  drop_while cs rest = rest ->
  dmatch (Star cs) (x ++ rest) g = Some (rest, g).
Proof.
  intros Hx Hr. cbn [dmatch]. rewrite (@drop_while_app cs x rest Hx), Hr. reflexivity.
Qed.

Lemma dmatch_cat_some r1 r2 s g s1 g1 :
  dmatch r1 s g = Some (s1, g1) -> dmatch (Cat r1 r2) s g = dmatch r2 s1 g1.
Proof. intros H. cbn [dmatch]. rewrite H. reflexivity. Qed.

Lemma dmatch_cat_none r1 r2 s g :
  dmatch r1 s g = None -> dmatch (Cat r1 r2) s g = None.
Proof. intros H. cbn [dmatch]. rewrite H. reflexivity. Qed.

Lemma dmatch_group_none n r s g :
  dmatch r s g = None -> dmatch (Group n r) s g = None.
Proof. intros H. cbn [dmatch]. rewrite H. reflexivity. Qed.

Lemma dmatch_opt_some r s g s1 g1 :
  dmatch r s g = Some (s1, g1) -> dmatch (Opt r) s g = Some (s1, g1).
Proof. intros H. cbn [dmatch]. rewrite H. reflexivity. Qed.

Lemma dmatch_opt_none r s g :
  dmatch r s g = None -> dmatch (Opt r) s g = Some (s, g).
Proof. intros H. cbn [dmatch]. rewrite H. reflexivity. Qed.

Lemma dmatch_eps s g : dmatch Eps s g = Some (s, g).
Proof. reflexivity. Qed.

(** A name of word characters in a group, before a character that is
    not one. *)
Lemma dmatch_name n (name : str) (d : ascii) (s : str) (g : groups) :
  name <> [] -> Forall (fun c => isword c = true) name -> isword d = false ->
  dmatch (Group n (Cat (Plus CWord) Eps)) (name ++ d :: s) g
  = Some (d :: s, (n, name) :: g).
Proof.
  intros Hne Hw Hd. apply (@dmatch_group n _ name (d :: s) g g).
  rewrite (dmatch_cat_some _ _ _ _ (d :: s) g); [reflexivity|].
  apply dmatch_plus_run; [exact Hne | exact Hw|].
  cbn [drop_while charset_mem]. rewrite Hd. reflexivity.
Qed.

(** A pattern that begins with the characters of [t]. *)
Lemma det_lits (t : str) (l : list regex) (fl : follow) :
  det (seq (map lit t ++ l)) fl = det (seq l) fl.
Proof.
  induction t as [|c t IH]; [reflexivity|].
  cbn [map app seq fold_right det]. fold (seq (map lit t ++ l)).
  rewrite IH. apply andb_true_r.
Qed.

Lemma dmatch_lits (t : str) (l : list regex) (s : str) (g : groups) :
  dmatch (seq (map lit t ++ l)) (t ++ s) g = dmatch (seq l) s g.
Proof.
  induction t as [|c t IH]; [reflexivity|].
  cbn [map app seq fold_right]. fold (seq (map lit t ++ l)).
  unfold lit at 1. rewrite (dmatch_cat_some _ _ _ _ _ _ (dmatch_lit c _ g)).
  exact IH.
Qed.

Lemma Sem_lits (t : str) (l : list regex) (x : str) (gs : groups) :
  Sem (seq (map lit t ++ l)) x gs ->
  exists y gs', x = t ++ y /\ Sem (seq l) y gs'.
Proof.
  revert x gs. induction t as [|c t IH]; intros x gs H.
  - exists x, gs. split; [reflexivity | exact H].
  - cbn [map app seq fold_right] in H. fold (seq (map lit t ++ l)) in H.
    inversion H as [| | | | | | |r1 r2 x1 x2 gs1 gs2 H1 H2]; subst.
    unfold lit in H1. inversion H1 as [|cs d Hd| | | | | |]; subst.
    cbn [charset_mem] in Hd. apply Ascii.eqb_eq in Hd. subst d.
    destruct (IH _ _ H2) as (y & gs' & -> & Hy).
    exists y, gs'. split; [reflexivity | exact Hy].
Qed.

(** ** Line ends *)

(** The verifier reads the artifacts with their line ends translated.
    What it looks for is not changed by that: a line end is no part of a
    definition [Class.prototype.name =] but as whitespace before the [=],
    and no part of [prototype.flag]. *)

Lemma universal_newlines_cons (c : ascii) (s : str) :
  c <> CR -> universal_newlines (c :: s) = c :: universal_newlines s.
Proof.
  intros H. cbn [universal_newlines].
  destruct (Ascii.eqb c CR) eqn:E; [|reflexivity].
  apply Ascii.eqb_eq in E. contradiction.
Qed.

(** What is left to read after a CR: the LF that follows it is part of
    the same line end. *)
Definition after_CR (s : str) : str :=
  match s with
  | d :: s' => if Ascii.eqb d LF then s' else s
  | [] => []
  end.

Lemma universal_newlines_CR (s : str) :
  universal_newlines (CR :: s) = LF :: universal_newlines (after_CR s).
Proof.
  cbn [universal_newlines]. change (Ascii.eqb CR CR) with true. cbn iota. f_equal.
  destruct s as [|d s]; [reflexivity|].
  cbn [after_CR]. destruct (Ascii.eqb d LF); reflexivity.
Qed.

Lemma after_CR_length (s : str) : List.length (after_CR s) <= List.length s.
Proof.
  destruct s as [|d s]; [reflexivity|].
  cbn [after_CR]. destruct (Ascii.eqb d LF); simpl; lia.
Qed.

Lemma nospace_not_CR (c : ascii) : isspace c = false -> c <> CR.
Proof. intros H ->. discriminate H. Qed.

Lemma nospace_not_LF (c : ascii) : isspace c = false -> c <> LF.
Proof. intros H ->. discriminate H. Qed.

Lemma nospace_no_CR (x : str) : nospace x -> ~ In CR x.
Proof.
  intros H Hin. unfold nospace in H. rewrite Forall_forall in H.
  specialize (H _ Hin). discriminate H.
Qed.

Lemma universal_newlines_app (x y : str) :
  nospace x -> universal_newlines (x ++ y) = x ++ universal_newlines y.
Proof.
  induction 1 as [|c x Hc _ IH]; [reflexivity|].
  cbn [app]. rewrite universal_newlines_cons by (apply nospace_not_CR; exact Hc).
  f_equal. exact IH.
Qed.

Lemma universal_newlines_app_inv (x : str) :
  nospace x -> forall s y,
  universal_newlines s = x ++ y ->
  exists y0, s = x ++ y0 /\ y = universal_newlines y0.
Proof.
  induction 1 as [|a x Ha _ IH]; intros s y E.
  - exists s. split; [reflexivity | symmetry; exact E].
  - destruct s as [|c s]; [discriminate E|].
    destruct (ascii_dec c CR) as [->|Hc].
    + rewrite universal_newlines_CR in E. cbn [app] in E. injection E as <- _.
      discriminate Ha.
    + rewrite universal_newlines_cons in E by exact Hc. cbn [app] in E.
      injection E as <- E. destruct (IH _ _ E) as (y0 & -> & ->).
      exists y0. split; reflexivity.
Qed.

Lemma universal_newlines_spaces (sp : str) (d : ascii) (rest : str) :
  Forall (fun c => isspace c = true) sp -> isspace d = false ->
  exists sp', Forall (fun c => isspace c = true) sp'
    /\ universal_newlines (sp ++ d :: rest) = sp' ++ d :: universal_newlines rest.
Proof.
  intros Hsp Hd. remember (List.length sp) as n eqn:Hn. revert sp Hn Hsp.
  induction n as [n IH] using lt_wf_ind. intros sp Hn Hsp.
  destruct sp as [|c sp].
  - exists []. split; [constructor|]. cbn [app].
    apply universal_newlines_cons, nospace_not_CR, Hd.
  - inversion Hsp as [|? ? Hc Hsp']; subst. cbn [app].
    destruct (ascii_dec c CR) as [->|Hc'].
    + rewrite universal_newlines_CR.
      assert (A : exists sp2, after_CR (sp ++ d :: rest) = sp2 ++ d :: rest
                    /\ Forall (fun c => isspace c = true) sp2
                    /\ List.length sp2 <= List.length sp).
      { destruct sp as [|e sp2].
        - exists []. cbn [app after_CR].
          destruct (Ascii.eqb d LF) eqn:E.
          + apply Ascii.eqb_eq in E. subst d. discriminate Hd.
          + split; [reflexivity|]. split; [constructor | reflexivity].
        - cbn [app after_CR]. destruct (Ascii.eqb e LF).
          + exists sp2. split; [reflexivity|].
            split; [inversion Hsp'; assumption | simpl; lia].
          + exists (e :: sp2). split; [reflexivity|].
            split; [exact Hsp' | reflexivity]. }
      destruct A as (sp2 & -> & Hsp2 & Hl).
      destruct (IH (List.length sp2)) with (sp := sp2) as (sp' & Hsp'' & E);
        [simpl; lia | reflexivity | exact Hsp2|].
      exists (LF :: sp'). split; [constructor; [reflexivity | exact Hsp'']|].
      cbn [app]. f_equal. exact E.
    + rewrite universal_newlines_cons by exact Hc'.
      destruct (IH (List.length sp)) with (sp := sp) as (sp' & Hsp'' & E);
        [simpl; lia | reflexivity | exact Hsp'|].
      exists (c :: sp'). split; [constructor; [exact Hc | exact Hsp'']|].
      cbn [app]. f_equal. exact E.
Qed.

Lemma universal_newlines_spaces_inv (t sp' : str) (d : ascii) (rest' : str) :
  Forall (fun c => isspace c = true) sp' -> isspace d = false ->
  universal_newlines t = sp' ++ d :: rest' ->
  exists sp rest,
    Forall (fun c => isspace c = true) sp
    /\ t = sp ++ d :: rest /\ rest' = universal_newlines rest.
Proof.
  intros Hsp Hd. remember (List.length t) as n eqn:Hn. revert t sp' Hn Hsp.
  induction n as [n IH] using lt_wf_ind. intros t sp' Hn Hsp E.
  destruct t as [|c t]; [destruct sp'; discriminate E|].
  destruct (ascii_dec c CR) as [->|Hc].
  - rewrite universal_newlines_CR in E.
    destruct sp' as [|a sp1]; cbn [app] in E.
    + injection E as <- _. discriminate Hd.
    + injection E as <- E. inversion Hsp as [|? ? _ Hsp1]; subst.
      pose proof (after_CR_length t) as Hl.
      destruct (IH (List.length (after_CR t))) with (t := after_CR t) (sp' := sp1)
        as (sp & rest & Hs & Et & Er); [simpl; lia | reflexivity | exact Hsp1 | exact E|].
      destruct t as [|e t2]; [destruct sp; discriminate Et|].
      cbn [after_CR] in Et. destruct (Ascii.eqb e LF) eqn:El.
      * apply Ascii.eqb_eq in El. subst e t2.
        exists (CR :: LF :: sp), rest.
        split; [repeat constructor; exact Hs|]. split; [reflexivity | exact Er].
      * exists (CR :: sp), rest.
        split; [constructor; [reflexivity | exact Hs]|].
        split; [cbn [app]; f_equal; exact Et | exact Er].
  - rewrite universal_newlines_cons in E by exact Hc.
    destruct sp' as [|a sp1]; cbn [app] in E.
    + injection E as <- E. exists [], t. split; [constructor|].
      split; [reflexivity | symmetry; exact E].
    + injection E as <- E. inversion Hsp as [|? ? Ha Hsp1]; subst.
      destruct (IH (List.length t)) with (t := t) (sp' := sp1)
        as (sp & rest & Hs & Et & Er); [simpl; lia | reflexivity | exact Hsp1 | exact E|].
      exists (c :: sp), rest. split; [constructor; [exact Ha | exact Hs]|].
      split; [cbn [app]; f_equal; exact Et | exact Er].
Qed.

(** The pattern [L(\w+)\s*=] for a text [L] of literal characters: the
    two definition patterns of the verifier are of this form. *)
Definition DEF_TAIL : list regex :=
  [Group 1 (Cat (Plus CWord) Eps); Star CSpace; lit "="].

Definition def_regex (L : str) : regex := seq (map lit L ++ DEF_TAIL).

Lemma LEXER_DEF_eq : LEXER_DEF = def_regex "SqlBaseLexer.prototype.".
Proof. reflexivity. Qed.

Lemma PARSER_DEF_eq : PARSER_DEF = def_regex "SqlBaseParser.prototype.".
Proof. reflexivity. Qed.

Lemma det_def_regex (L : str) : det (def_regex L) None = true.
Proof. unfold def_regex. rewrite det_lits. vm_compute. reflexivity. Qed.

(** What a definition pattern matches: [L], a name, whitespace, [=]. *)
Definition def_text (L name sp : str) : str := (L ++ name) ++ sp ++ ["="%char].

Lemma space_not_word (c : ascii) : isspace c = true -> isword c = false.
Proof.
  intros H. destruct (isword c) eqn:E; [|reflexivity].
  rewrite (@disjoint_spec _ _ c word_not_space E) in H. discriminate H.
Qed.

Lemma word_nospace (name : str) :
  Forall (fun c => isword c = true) name -> nospace name.
Proof.
  intros H. unfold nospace. eapply Forall_impl; [|exact H].
  intros c Hc. exact (@disjoint_spec _ _ c word_not_space Hc).
Qed.

Lemma def_match_complete (L name sp rest : str) :
  name <> [] -> Forall (fun c => isword c = true) name ->
  Forall (fun c => isspace c = true) sp ->
  match_at (def_regex L) (def_text L name sp ++ rest)
  = Some {| m_end := List.length (def_text L name sp); m_groups := [(1, name)] |}.
Proof.
  intros Hne Hw Hsp. rewrite (match_at_det _ _ (det_def_regex L)).
  unfold def_regex, def_text.
  replace (((L ++ name) ++ sp ++ ["="%char]) ++ rest)
    with (L ++ name ++ sp ++ "="%char :: rest)
    by (rewrite <- !app_assoc; reflexivity).
  rewrite dmatch_lits. unfold DEF_TAIL, seq. cbn [fold_right].
  assert (Hd : exists d u, sp ++ "="%char :: rest = d :: u /\ isword d = false).
  { destruct sp as [|c sp].
    - exists "="%char, rest. split; reflexivity.
    - exists c, (sp ++ "="%char :: rest). split; [reflexivity|].
      inversion Hsp; subst. apply space_not_word. assumption. }
  destruct Hd as (d & u & Ed & Hd).
  rewrite (dmatch_cat_some _ _ _ _ (sp ++ "="%char :: rest) [(1, name)]);
    [|rewrite Ed; apply dmatch_name; assumption].
  rewrite (dmatch_cat_some _ _ _ _ ("="%char :: rest) [(1, name)]);
    [|apply dmatch_star_run; [exact Hsp | reflexivity]].
  unfold lit. rewrite (dmatch_cat_some _ _ _ _ _ _ (dmatch_lit "=" rest _)).
  cbn [dmatch]. f_equal. f_equal.
  rewrite !length_app. cbn [List.length]. lia.
Qed.

Lemma def_match_sound (L s : str) (mo : match_obj) :
  match_at (def_regex L) s = Some mo ->
  exists name sp rest,
    name <> [] /\ Forall (fun c => isword c = true) name
    /\ Forall (fun c => isspace c = true) sp
    /\ s = def_text L name sp ++ rest
    /\ mo = {| m_end := List.length (def_text L name sp); m_groups := [(1, name)] |}.
Proof.
  intros H. pose proof H as H0.
  destruct (@match_at_sem _ s mo (det_def_regex L) H) as (x & s' & -> & Hm & Hsem).
  unfold def_regex in Hsem.
  destruct (Sem_lits _ _ _ _ Hsem) as (y & gs' & -> & Hy).
  unfold DEF_TAIL, seq, lit in Hy. cbn [fold_right] in Hy. inv_sem.
  rewrite ?app_nil_r in *.
  match goal with
  | Hc : charset_mem CWord ?c = true,
    Hw : Forall (fun c => charset_mem CWord c = true) ?w,
    Hs : Forall (fun c => charset_mem CSpace c = true) ?sp |- _ =>
      assert (E : (L ++ (c :: w) ++ sp ++ ["="%char]) ++ s'
                  = def_text L (c :: w) sp ++ s')
        by (unfold def_text; rewrite <- !app_assoc; reflexivity);
      assert (Hw' : Forall (fun c => isword c = true) (c :: w))
        by (constructor; [exact Hc | exact Hw]);
      exists (c :: w), sp, s';
      split; [discriminate|]; split; [exact Hw'|]; split; [exact Hs|];
      split; [exact E|];
      rewrite E in H0;
      rewrite (def_match_complete L (c :: w) sp s') in H0;
        [injection H0 as <-; reflexivity | discriminate | exact Hw' | exact Hs]
  end.
Qed.

Lemma def_text_length (L name sp : str) :
  List.length (def_text L name sp)
  = S (List.length L + List.length name + List.length sp).
Proof. unfold def_text. rewrite !length_app. cbn [List.length]. lia. Qed.

Lemma def_match_empty (L : str) : match_at (def_regex L) [] = None.
Proof.
  destruct (match_at (def_regex L) []) as [mo|] eqn:E; [|reflexivity].
  destruct (def_match_sound _ _ _ E) as (name & sp & rest & _ & _ & _ & Es & _).
  apply (f_equal (@List.length ascii)) in Es.
  rewrite length_app, def_text_length in Es. simpl in Es. lia.
Qed.

Lemma def_match_head (L : str) (c : ascii) (s : str) :
  L <> [] -> nospace L -> isspace c = true -> match_at (def_regex L) (c :: s) = None.
Proof.
  intros Hne HL Hc.
  destruct (match_at (def_regex L) (c :: s)) as [mo|] eqn:E; [|reflexivity].
  destruct (def_match_sound _ _ _ E) as (name & sp & rest & _ & _ & _ & Es & _).
  destruct L as [|l0 L']; [contradiction|]. unfold def_text in Es. cbn [app] in Es.
  injection Es as -> _. inversion HL; subst. congruence.
Qed.

Lemma skipn_length_app (x y : str) : skipn (List.length x) (x ++ y) = y.
Proof. induction x as [|c x IH]; [reflexivity | exact IH]. Qed.

(** A definition is matched in the text as it is read where it is matched
    in the text as it is stored, with the same name. *)
Lemma def_match_newlines (L s : str) :
  nospace L ->
  match match_at (def_regex L) s with
  | Some mo =>
      exists mo',
        match_at (def_regex L) (universal_newlines s) = Some mo'
        /\ m_groups mo' = m_groups mo
        /\ skipn (m_end mo') (universal_newlines s)
           = universal_newlines (skipn (m_end mo) s)
        /\ List.length (skipn (m_end mo) s) < List.length s
  | None => match_at (def_regex L) (universal_newlines s) = None
  end.
Proof.
  intros HL. destruct (match_at (def_regex L) s) as [mo|] eqn:E.
  - destruct (def_match_sound _ _ _ E) as (name & sp & rest & Hne & Hw & Hsp & -> & ->).
    assert (Hx : nospace (L ++ name)).
    { apply Forall_app. split; [exact HL | apply word_nospace; exact Hw]. }
    destruct (universal_newlines_spaces sp "=" rest Hsp eq_refl) as (sp' & Hsp' & E').
    assert (En : universal_newlines (def_text L name sp ++ rest)
                 = def_text L name sp' ++ universal_newlines rest).
    { unfold def_text. rewrite <- !app_assoc. cbn [app].
      rewrite (app_assoc L name), (universal_newlines_app _ _ Hx), E'.
      rewrite <- !app_assoc. reflexivity. }
    rewrite En. eexists. split; [apply def_match_complete; assumption|].
    cbn [m_groups m_end]. split; [reflexivity|].
    rewrite !skipn_length_app. split; [reflexivity|].
    rewrite length_app, def_text_length. lia.
  - destruct (match_at (def_regex L) (universal_newlines s)) as [mo'|] eqn:E';
      [|reflexivity].
    exfalso.
    destruct (def_match_sound _ _ _ E') as (name & sp' & rest' & Hne & Hw & Hsp' & Es & _).
    assert (Hx : nospace (L ++ name)).
    { apply Forall_app. split; [exact HL | apply word_nospace; exact Hw]. }
    unfold def_text in Es. rewrite <- app_assoc in Es.
    destruct (universal_newlines_app_inv _ Hx _ _ Es) as (y0 & -> & Ey).
    rewrite <- app_assoc in Ey. cbn [app] in Ey. symmetry in Ey.
    destruct (universal_newlines_spaces_inv y0 sp' "=" rest' Hsp' eq_refl Ey)
      as (sp & rest & Hsp & -> & _).
    replace ((L ++ name) ++ sp ++ "="%char :: rest)
      with (def_text L name sp ++ rest) in E
      by (unfold def_text; rewrite <- !app_assoc; reflexivity).
    rewrite (def_match_complete L name sp rest Hne Hw Hsp) in E. discriminate E.
Qed.

Lemma scan_skipn (r : regex) :
  match_at r [] = None -> forall s k, scan r k s = scan r 0 (skipn k s).
Proof.
  intros H. induction s as [|c s IH]; intros [|k]; cbn [skipn]; try reflexivity.
  - cbn [scan]. rewrite H. reflexivity.
  - cbn [scan]. apply IH.
Qed.

Lemma findall_unfold (L s : str) :
  findall_compiled (def_regex L) s
  = match match_at (def_regex L) s with
    | Some mo =>
        or_empty (group mo 1)
        :: findall_compiled (def_regex L) (skipn (m_end mo) s)
    | None => findall_compiled (def_regex L) (tl s)
    end.
Proof.
  unfold findall_compiled. destruct s as [|c s].
  - rewrite def_match_empty. reflexivity.
  - cbn [scan]. destruct (match_at (def_regex L) (c :: s)) as [mo|] eqn:E;
      [|reflexivity].
    destruct (def_match_sound _ _ _ E) as (name & sp & rest & _ & _ & _ & _ & ->).
    cbn [m_end]. rewrite def_text_length. cbn [flat_map app skipn]. f_equal.
    rewrite (scan_skipn _ (def_match_empty L)). reflexivity.
Qed.

(** The names a definition pattern finds in an artifact as it is read are
    those it finds in the artifact as it is stored. *)
Lemma findall_newlines (L s : str) :
  L <> [] -> nospace L ->
  findall_compiled (def_regex L) (universal_newlines s)
  = findall_compiled (def_regex L) s.
Proof.
  intros Hne HL. remember (List.length s) as n eqn:Hn. revert s Hn.
  induction n as [n IH] using lt_wf_ind. intros s Hn.
  rewrite (findall_unfold L s), (findall_unfold L (universal_newlines s)).
  pose proof (def_match_newlines L s HL) as N.
  destruct (match_at (def_regex L) s) as [mo|] eqn:E.
  - destruct N as (mo' & -> & G & K & Hl). unfold group. rewrite G, K. f_equal.
    apply (IH (List.length (skipn (m_end mo) s))); [subst n; exact Hl | reflexivity].
  - rewrite N. destruct s as [|c t]; [reflexivity|]. cbn [tl].
    destruct (ascii_dec c CR) as [->|Hc].
    + rewrite universal_newlines_CR. cbn [tl].
      pose proof (after_CR_length t) as Hl.
      rewrite (IH (List.length (after_CR t))) by (subst n; simpl; lia || reflexivity).
      destruct t as [|e t2]; [reflexivity|].
      cbn [after_CR]. destruct (Ascii.eqb e LF) eqn:El; [|reflexivity].
      apply Ascii.eqb_eq in El. subst e.
      rewrite (findall_unfold L (LF :: t2)).
      rewrite (def_match_head L LF t2 Hne HL eq_refl). reflexivity.
    + rewrite universal_newlines_cons by exact Hc. cbn [tl].
      apply (IH (List.length t)); [subst n; simpl; lia | reflexivity].
Qed.

Lemma starts_with_newlines (needle : str) :
  nospace needle ->
  forall s, starts_with needle (universal_newlines s) = starts_with needle s.
Proof.
  induction 1 as [|a needle Ha _ IH]; intros s; [reflexivity|].
  destruct s as [|c s]; [reflexivity|].
  destruct (ascii_dec c CR) as [->|Hc].
  - rewrite universal_newlines_CR. cbn [starts_with].
    replace (Ascii.eqb a LF) with false
      by (symmetry; apply Ascii.eqb_neq, nospace_not_LF, Ha).
    replace (Ascii.eqb a CR) with false
      by (symmetry; apply Ascii.eqb_neq, nospace_not_CR, Ha).
    reflexivity.
  - rewrite universal_newlines_cons by exact Hc. cbn [starts_with].
    rewrite IH. reflexivity.
Qed.

Lemma starts_with_space (a : ascii) (needle : str) (c : ascii) (s : str) :
  isspace a = false -> isspace c = true -> starts_with (a :: needle) (c :: s) = false.
Proof.
  intros Ha Hc. cbn [starts_with].
  destruct (Ascii.eqb a c) eqn:E; [|reflexivity].
  apply Ascii.eqb_eq in E. subst c. congruence.
Qed.

Lemma contains_newlines (needle s : str) :
  needle <> [] -> nospace needle ->
  contains needle (universal_newlines s) = contains needle s.
Proof.
  intros Hne Hn. destruct needle as [|a needle]; [contradiction|].
  inversion Hn as [|? ? Ha _]; subst.
  remember (List.length s) as n eqn:Hl. revert s Hl.
  induction n as [n IH] using lt_wf_ind. intros s Hl.
  destruct s as [|c t]; [reflexivity|].
  destruct (ascii_dec c CR) as [->|Hc].
  - rewrite universal_newlines_CR.
    pose proof (after_CR_length t) as Hlen.
    cbn [contains]. rewrite !(starts_with_space _ _ _ _ Ha) by reflexivity.
    cbn [orb].
    rewrite (IH (List.length (after_CR t))) by (subst n; simpl; lia || reflexivity).
    destruct t as [|e t2]; [reflexivity|].
    cbn [after_CR]. destruct (Ascii.eqb e LF) eqn:El; [|reflexivity].
    apply Ascii.eqb_eq in El. subst e.
    cbn [contains]. rewrite (starts_with_space _ _ _ _ Ha) by reflexivity.
    reflexivity.
  - pose proof (starts_with_newlines (a :: needle) Hn (c :: t)) as Hs.
    rewrite universal_newlines_cons in * by exact Hc.
    cbn [contains]. rewrite Hs. f_equal.
    apply (IH (List.length t)); [subst n; simpl; lia | reflexivity].
Qed.

Lemma missing_lexer_newlines (lexer : str) :
  missing_lexer (universal_newlines lexer) = missing_lexer lexer.
Proof.
  unfold missing_lexer. rewrite !re_findall_lexer, LEXER_DEF_eq.
  rewrite findall_newlines; [reflexivity | discriminate | repeat constructor].
Qed.

Lemma missing_parser_predicates_newlines (parser : str) :
  missing_parser_predicates (universal_newlines parser)
  = missing_parser_predicates parser.
Proof.
  unfold missing_parser_predicates. rewrite !re_findall_parser, PARSER_DEF_eq.
  rewrite findall_newlines; [reflexivity | discriminate | repeat constructor].
Qed.

Lemma missing_parser_flags_newlines (parser : str) :
  missing_parser_flags (universal_newlines parser) = missing_parser_flags parser.
Proof.
  unfold missing_parser_flags. apply filter_ext_in. intros f Hf. f_equal.
  apply contains_newlines; [discriminate|].
  cbn in Hf. repeat (destruct Hf as [<-|Hf]; [repeat constructor|]). contradiction.
Qed.

Lemma verify_predicates_run (w : world) (lexer parser : str) :
  files w lexer_js = Some (Utf8 lexer) ->
  files w parser_js = Some (Utf8 parser) ->
  missing_lexer lexer = Ret [] ->
  missing_parser_predicates parser = Ret [] ->
  missing_parser_flags parser = [] ->
  verify_predicates w = (Ret true, w).
Proof.
  intros Hl Hp H1 H2 H3.
  rewrite <- missing_lexer_newlines in H1.
  rewrite <- missing_parser_predicates_newlines in H2.
  rewrite <- missing_parser_flags_newlines in H3.
  unfold verify_predicates. cbv zeta.
  rewrite (bindM_ret _ _ _ _ _ _ _ (@read_text_found w lexer_js lexer Hl)).
  rewrite (bindM_ret _ _ _ _ _ _ _ (lift_ret _ _ _ w H1)).
  rewrite (bindM_ret _ _ _ _ _ _ _ (@read_text_found w parser_js parser Hp)).
  rewrite (bindM_ret _ _ _ _ _ _ _ (lift_ret _ _ _ w H2)).
  rewrite H3. reflexivity.
Qed.

(** C2.  Take generated artifacts in which none of the required names is
    defined.  The injection stage succeeds; in each artifact it leaves,
    every required name of that role (the nine lexer names; the parser
    method and the seven flags) is defined exactly once; the three sets
    of missing names the verifier computes are empty; and the verifier
    returns [True]. *)
Theorem injected_names_are_verified (w : world) (lexer parser : str)
    (lexer_defs parser_defs : list str) :
  files w lexer_js = Some (Utf8 lexer) ->
  files w parser_js = Some (Utf8 parser) ->
  re_findall "SqlBaseLexer\.prototype\.(\w+)\s*=" lexer = Ret lexer_defs ->
  re_findall "SqlBaseParser\.prototype\.(\w+)\s*=" parser = Ret parser_defs ->
  (forall n, In n required_lexer_predicates -> ~ In n lexer_defs) ->
  (forall n, In n (required_parser_predicates ++ required_parser_flags) ->
             ~ In n parser_defs) ->
  exists w' lexer' parser' lexer_defs' parser_defs',
    add_predicate_implementations w = (Ret true, w')
    /\ files w' lexer_js = Some (Utf8 lexer')
    /\ files w' parser_js = Some (Utf8 parser')
    /\ re_findall "SqlBaseLexer\.prototype\.(\w+)\s*=" lexer' = Ret lexer_defs'
    /\ re_findall "SqlBaseParser\.prototype\.(\w+)\s*=" parser' = Ret parser_defs'
    /\ (forall n, In n required_lexer_predicates ->
                  count_occ str_dec lexer_defs' n = 1)
    /\ (forall n, In n (required_parser_predicates ++ required_parser_flags) ->
                  count_occ str_dec parser_defs' n = 1)
    /\ missing_lexer lexer' = Ret []
    /\ missing_parser_predicates parser' = Ret []
    /\ missing_parser_flags parser' = []
    /\ verify_predicates w' = (Ret true, w').
Proof.
  intros Hl Hp Hdl Hdp Hfl Hfp.
  rewrite re_findall_lexer in Hdl. rewrite re_findall_parser in Hdp.
  injection Hdl as <-. injection Hdp as <-.
  destruct (add_predicate_implementations_run _ Hl Hp) as (w' & Hrun & Hl' & Hp' & _).
  set (lexer0 := universal_newlines lexer) in *.
  set (parser0 := universal_newlines parser) in *.
  assert (Nl : findall_compiled LEXER_DEF lexer0 = findall_compiled LEXER_DEF lexer).
  { unfold lexer0. rewrite LEXER_DEF_eq.
    apply findall_newlines; [discriminate | repeat constructor]. }
  assert (Np : findall_compiled PARSER_DEF parser0 = findall_compiled PARSER_DEF parser).
  { unfold parser0. rewrite PARSER_DEF_eq.
    apply findall_newlines; [discriminate | repeat constructor]. }
  assert (Cl : forall n, In n required_lexer_predicates ->
             count_occ str_dec
               (findall_compiled LEXER_DEF (rstrip lexer0 ++ lexer_predicates_js)) n = 1).
  { intros n Hn. rewrite (findall_injected def_LEXER lexer0 quiet_lexer_block).
    rewrite findall_lexer_block, Nl.
    apply count_injected; [apply Hfl; exact Hn | apply lexer_block_once; exact Hn]. }
  assert (Cp : forall n, In n (required_parser_predicates ++ required_parser_flags) ->
             count_occ str_dec
               (findall_compiled PARSER_DEF (rstrip parser0 ++ parser_predicates_js)) n = 1).
  { intros n Hn. rewrite (findall_injected def_PARSER parser0 quiet_parser_block).
    rewrite findall_parser_block, Np.
    apply count_injected; [apply Hfp; exact Hn | apply parser_block_once; exact Hn]. }
  assert (M1 : missing_lexer (rstrip lexer0 ++ lexer_predicates_js) = Ret []).
  { unfold missing_lexer. rewrite re_findall_lexer. cbn [bind].
    rewrite set_diff_all; [reflexivity | exact Cl]. }
  assert (M2 : missing_parser_predicates (rstrip parser0 ++ parser_predicates_js) = Ret []).
  { unfold missing_parser_predicates. rewrite re_findall_parser. cbn [bind].
    rewrite set_diff_all; [reflexivity|].
    intros n Hn. apply Cp. apply in_or_app. left. exact Hn. }
  assert (M3 : missing_parser_flags (rstrip parser0 ++ parser_predicates_js) = []).
  { unfold missing_parser_flags. apply filter_none. intros f Hf.
    rewrite contains_app_r; [reflexivity|]. apply parser_block_flags. exact Hf. }
  exists w', (rstrip lexer0 ++ lexer_predicates_js),
    (rstrip parser0 ++ parser_predicates_js),
    (findall_compiled LEXER_DEF (rstrip lexer0 ++ lexer_predicates_js)),
    (findall_compiled PARSER_DEF (rstrip parser0 ++ parser_predicates_js)).
  repeat split; auto using re_findall_lexer, re_findall_parser.
  eapply verify_predicates_run; eassumption.
Qed.

Definition generated_lexer : str :=
  "export default class SqlBaseLexer extends antlr4.Lexer {}
SqlBaseLexer.prototype.constructor = SqlBaseLexer;

".

Definition generated_parser : str :=
  "export default class SqlBaseParser extends antlr4.Parser {}
SqlBaseParser.prototype.constructor = SqlBaseParser;
".

Definition generated_world : world :=
  {| files := artifacts generated_lexer generated_parser;
     subprocess_run := no_tool |}.

Lemma injected_names_are_verified_witness :
  exists w' lexer' parser' lexer_defs' parser_defs',
    add_predicate_implementations generated_world = (Ret true, w')
    /\ files w' lexer_js = Some (Utf8 lexer')
    /\ files w' parser_js = Some (Utf8 parser')
    /\ re_findall "SqlBaseLexer\.prototype\.(\w+)\s*=" lexer' = Ret lexer_defs'
    /\ re_findall "SqlBaseParser\.prototype\.(\w+)\s*=" parser' = Ret parser_defs'
    /\ (forall n, In n required_lexer_predicates ->
                  count_occ str_dec lexer_defs' n = 1)
    /\ (forall n, In n (required_parser_predicates ++ required_parser_flags) ->
                  count_occ str_dec parser_defs' n = 1)
    /\ missing_lexer lexer' = Ret []
    /\ missing_parser_predicates parser' = Ret []
    /\ missing_parser_flags parser' = []
    /\ verify_predicates w' = (Ret true, w').
Proof.
  apply (injected_names_are_verified generated_world
           generated_lexer generated_parser
           [("constructor" : str)] [("constructor" : str)]);
    try (vm_compute; reflexivity);
    intros n Hn [<-|[]]; cbn in Hn;
    repeat (destruct Hn as [Hn|Hn]; [discriminate Hn|]); exact Hn.
Defined.

(** * Further properties of the stages *)

(** ** The Grammar Transform Stage *)

Definition source_of (filename : string) : path := InDir GRAMMAR_SOURCE_DIR filename.
Definition output_of (filename : string) : path := InDir GRAMMAR_TRANSFORMED_DIR filename.

(** [transformed content result]: [result] is what the three passes of
    the loop body (lines 165-169) make of [content]. *)
Definition transformed (content result : str) : Prop :=
  exists h m,
    remove_block content "header" = Ret h
    /\ remove_block h "members" = Ret m
    /\ transform_predicates_for_js m = Ret result.

Lemma literal_header : Forall (fun c => literal_char c = true) (of_string "header").
Proof. repeat constructor. Qed.

Lemma literal_members : Forall (fun c => literal_char c = true) (of_string "members").
Proof. repeat constructor. Qed.

Lemma transformed_exists (content : str) : exists result, transformed content result.
Proof.
  destruct (remove_loop_total literal_header content) as [h Hh].
  destruct (remove_loop_total literal_members h) as [m Hm].
  exists (rewrite_all m), h, m. repeat split; auto using transform_eq.
Qed.

Lemma transformed_unique (content r1 r2 : str) :
  transformed content r1 -> transformed content r2 -> r1 = r2.
Proof.
  intros (h1 & m1 & A1 & B1 & C1) (h2 & m2 & A2 & B2 & C2).
  rewrite A1 in A2. injection A2 as <-. rewrite B1 in B2. injection B2 as <-.
  rewrite C1 in C2. injection C2 as <-. reflexivity.
Qed.

Lemma exists_missing (w : world) (p : path) :
  files w p = None -> exists_ p w = (Ret false, w).
Proof. intros H. unfold exists_. rewrite H. reflexivity. Qed.

Lemma transform_file_missing (filename : string) (w : world) :
  files w (source_of filename) = None ->
  transform_file filename w = (Ret (Some false), w).
Proof.
  intros H. unfold transform_file. cbv zeta.
  rewrite (bindM_ret _ _ _ _ _ _ _ (exists_missing w _ H)). reflexivity.
Qed.

Lemma transform_file_not_utf8 (filename : string) (w : world) :
  files w (source_of filename) = Some NotUtf8 ->
  transform_file filename w = (Raise (UnicodeDecodeError (source_of filename)), w).
Proof.
  intros H. unfold transform_file. cbv zeta.
  rewrite (bindM_ret _ _ _ _ _ _ _ (@exists_found w _ NotUtf8 H)). cbn [negb].
  unfold bindM at 1. fold (source_of filename).
  rewrite (read_text_not_utf8 w _ H). reflexivity.
Qed.

Lemma transform_file_found (filename : string) (w : world) (content result : str) :
  files w (source_of filename) = Some (Utf8 content) ->
  transformed (universal_newlines content) result ->
  transform_file filename w
  = (Ret None, snd (write_text (output_of filename) result w)).
Proof.
  intros H (h & m & Hh & Hm & Hr). unfold transform_file. cbv zeta.
  rewrite (bindM_ret _ _ _ _ _ _ _ (@exists_found w _ (Utf8 content) H)). cbn [negb].
  rewrite (bindM_ret _ _ _ _ _ _ _ (@read_text_found w _ content H)).
  rewrite (bindM_ret _ _ _ _ _ _ _ (lift_ret _ _ _ w Hh)).
  rewrite (bindM_ret _ _ _ _ _ _ _ (lift_ret _ _ _ w Hm)).
  rewrite (bindM_ret _ _ _ _ _ _ _ (lift_ret _ _ _ w Hr)).
  rewrite (bindM_ret _ _ _ _ _ _ _ (write_text_ret w _ result)). reflexivity.
Qed.

Lemma bindM_raise (A B : Type) (c : M A) (k : A -> M B) (w w' : world) (e : exn) :
  c w = (Raise e, w') -> bindM c k w = (Raise e, w').
Proof. intros H. unfold bindM. rewrite H. reflexivity. Qed.

Definition lexer_g4 : string := "SqlBaseLexer.g4".
Definition parser_g4 : string := "SqlBaseParser.g4".

(** The stage on the cases of which source grammars are there, and of
    which can be read. *)
Lemma transform_grammar_cases (w : world) :
  match files w (source_of lexer_g4), files w (source_of parser_g4) with
  | None, _ => transform_grammar w = (Ret false, w)
  | Some NotUtf8, _ =>
      transform_grammar w = (Raise (UnicodeDecodeError (source_of lexer_g4)), w)
  | Some (Utf8 l), None =>
      exists l', transformed (universal_newlines l) l'
        /\ transform_grammar w
           = (Ret false, snd (write_text (output_of lexer_g4) l' w))
  | Some (Utf8 l), Some NotUtf8 =>
      exists l', transformed (universal_newlines l) l'
        /\ transform_grammar w
           = (Raise (UnicodeDecodeError (source_of parser_g4)),
              snd (write_text (output_of lexer_g4) l' w))
  | Some (Utf8 l), Some (Utf8 p) =>
      exists l' p',
        transformed (universal_newlines l) l'
        /\ transformed (universal_newlines p) p'
        /\ transform_grammar w
           = (Ret true,
              snd (write_text (output_of parser_g4) p'
                     (snd (write_text (output_of lexer_g4) l' w))))
  end.
Proof.
  unfold transform_grammar. fold lexer_g4. fold parser_g4.
  destruct (files w (source_of lexer_g4)) as [[l|]|] eqn:El.
  - destruct (transformed_exists (universal_newlines l)) as [l' Hl].
    set (w1 := snd (write_text (output_of lexer_g4) l' w)).
    assert (E1 : files w1 (source_of parser_g4) = files w (source_of parser_g4)).
    { unfold w1. apply files_write_other. discriminate. }
    destruct (files w (source_of parser_g4)) as [[p|]|] eqn:Ep.
    + destruct (transformed_exists (universal_newlines p)) as [p' Hp]. exists l', p'.
      split; [exact Hl|]. split; [exact Hp|]. cbn [transform_files].
      rewrite (bindM_ret _ _ _ _ _ _ _ (transform_file_found _ _ _ _ El Hl)).
      fold w1.
      rewrite (bindM_ret _ _ _ _ _ _ _ (transform_file_found _ _ _ _ E1 Hp)).
      reflexivity.
    + exists l'. split; [exact Hl|]. cbn [transform_files].
      rewrite (bindM_ret _ _ _ _ _ _ _ (transform_file_found _ _ _ _ El Hl)).
      fold w1.
      rewrite (bindM_raise _ _ _ _ _ _ _ (transform_file_not_utf8 _ _ E1)).
      reflexivity.
    + exists l'. split; [exact Hl|]. cbn [transform_files].
      rewrite (bindM_ret _ _ _ _ _ _ _ (transform_file_found _ _ _ _ El Hl)).
      fold w1.
      rewrite (bindM_ret _ _ _ _ _ _ _ (transform_file_missing _ _ E1)).
      reflexivity.
  - cbn [transform_files].
    rewrite (bindM_raise _ _ _ _ _ _ _ (transform_file_not_utf8 _ _ El)). reflexivity.
  - cbn [transform_files].
    rewrite (bindM_ret _ _ _ _ _ _ _ (transform_file_missing _ _ El)). reflexivity.
Qed.

(** What the stage gives, and the files it leaves alone. *)
Lemma transform_grammar_frame (w : world) :
  exists r w',
    transform_grammar w = (r, w')
    /\ (r = Ret true <->
        (exists l, files w (source_of lexer_g4) = Some (Utf8 l))
        /\ (exists p, files w (source_of parser_g4) = Some (Utf8 p)))
    /\ (r = Ret false <->
        files w (source_of lexer_g4) = None
        \/ ((exists l, files w (source_of lexer_g4) = Some (Utf8 l))
            /\ files w (source_of parser_g4) = None))
    /\ (forall e, r = Raise e <->
        exists p, e = UnicodeDecodeError p /\ files w p = Some NotUtf8
          /\ (p = source_of lexer_g4
              \/ p = source_of parser_g4
                 /\ exists l, files w (source_of lexer_g4) = Some (Utf8 l)))
    /\ r <> Unmodelled
    /\ subprocess_run w' = subprocess_run w
    /\ (forall p, p <> output_of lexer_g4 -> p <> output_of parser_g4 ->
                  files w' p = files w p).
Proof.
  pose proof (transform_grammar_cases w) as H.
  assert (Hne : source_of parser_g4 <> source_of lexer_g4) by discriminate.
  destruct (files w (source_of lexer_g4)) as [[l|]|] eqn:El;
    [destruct (files w (source_of parser_g4)) as [[p|]|] eqn:Ep| |].
  - destruct H as (l' & p' & _ & _ & ->). eexists _, _. split; [reflexivity|].
    split; [split; [intros _; split; eexists; reflexivity | reflexivity]|].
    split; [split; [discriminate | intros [H|[_ H]]; discriminate H]|].
    split; [intros e; split; [discriminate|]|].
    { intros (q & _ & Hq & [->|[-> _]]); congruence. }
    split; [discriminate|]. split; [reflexivity|]. intros q H1 H2.
    rewrite files_write_other by exact H2. apply files_write_other. exact H1.
  - destruct H as (l' & _ & ->). eexists _, _. split; [reflexivity|].
    split; [split; [discriminate | intros [_ [p0 H]]; discriminate H]|].
    split; [split; [discriminate | intros [H|[_ H]]; discriminate H]|].
    split; [intros e; split|].
    { intros E. injection E as <-. exists (source_of parser_g4).
      split; [reflexivity|]. split; [exact Ep|]. right. split; [reflexivity|].
      exists l. reflexivity. }
    { intros (q & -> & Hq & [->|[-> _]]); [congruence | reflexivity]. }
    split; [discriminate|]. split; [reflexivity|].
    intros q H1 H2. apply files_write_other. exact H1.
  - destruct H as (l' & _ & ->). eexists _, _. split; [reflexivity|].
    split; [split; [discriminate | intros [_ [p0 H]]; discriminate H]|].
    split; [split; [intros _; right; split; [exists l|]; reflexivity | reflexivity]|].
    split; [intros e; split; [discriminate|]|].
    { intros (q & _ & Hq & [->|[-> _]]); congruence. }
    split; [discriminate|]. split; [reflexivity|].
    intros q H1 H2. apply files_write_other. exact H1.
  - rewrite H. eexists _, _. split; [reflexivity|].
    split; [split; [discriminate | intros [[l0 H0] _]; discriminate H0]|].
    split; [split; [discriminate | intros [H0|[[l0 H0] _]]; discriminate H0]|].
    split; [intros e; split|].
    { intros E. injection E as <-. exists (source_of lexer_g4).
      split; [reflexivity|]. split; [exact El|]. left. reflexivity. }
    { intros (q & -> & Hq & [->|[-> [l0 H0]]]); [reflexivity | discriminate H0]. }
    split; [discriminate|]. split; reflexivity.
  - rewrite H. eexists _, _. split; [reflexivity|].
    split; [split; [discriminate | intros [[l0 H0] _]; discriminate H0]|].
    split; [split; [intros _; left; reflexivity | reflexivity]|].
    split; [intros e; split; [discriminate|]|].
    { intros (q & _ & Hq & [->|[-> [l0 H0]]]); congruence. }
    split; [discriminate|]. split; reflexivity.
Qed.

(** X1.  The Grammar Transform Stage returns a status unless a source grammar
    it comes to read is not UTF-8, and then it raises the
    [UnicodeDecodeError] of that file.  It returns [True] exactly when
    both source grammars exist and are UTF-8, and [False] exactly when
    the first one that does not exist comes before any that is not UTF-8;
    whatever it gives, it writes to no path but the two transformed
    grammars, and leaves the tool alone. *)
Theorem transform_grammar_outcome (w : world) :
  exists r w',
    transform_grammar w = (r, w')
    /\ (r = Ret true <->
        (exists l, files w (source_of lexer_g4) = Some (Utf8 l))
        /\ (exists p, files w (source_of parser_g4) = Some (Utf8 p)))
    /\ (r = Ret false <->
        files w (source_of lexer_g4) = None
        \/ ((exists l, files w (source_of lexer_g4) = Some (Utf8 l))
            /\ files w (source_of parser_g4) = None))
    /\ (forall e, r = Raise e <->
        exists p, e = UnicodeDecodeError p /\ files w p = Some NotUtf8
          /\ (p = source_of lexer_g4
              \/ p = source_of parser_g4
                 /\ exists l, files w (source_of lexer_g4) = Some (Utf8 l)))
    /\ r <> Unmodelled
    /\ subprocess_run w' = subprocess_run w
    /\ (forall p, p <> output_of lexer_g4 -> p <> output_of parser_g4 ->
                  files w' p = files w p).
Proof. exact (transform_grammar_frame w). Qed.

(** X2.  When both source grammars exist and are UTF-8, each transformed
    grammar is its source as it is read, the line ends CR LF and CR as LF,
    with the [@header] regions removed, then the [@members] regions, then
    the calls rewritten; the sources stay as they are. *)
Theorem transform_grammar_writes (w : world) (l p : str) :
  files w (source_of lexer_g4) = Some (Utf8 l) ->
  files w (source_of parser_g4) = Some (Utf8 p) ->
  exists l' p' w',
    transformed (universal_newlines l) l'
    /\ transformed (universal_newlines p) p'
    /\ transform_grammar w = (Ret true, w')
    /\ files w' (output_of lexer_g4) = Some (Utf8 l')
    /\ files w' (output_of parser_g4) = Some (Utf8 p')
    /\ files w' (source_of lexer_g4) = Some (Utf8 l)
    /\ files w' (source_of parser_g4) = Some (Utf8 p).
Proof.
  intros Hl Hp. pose proof (transform_grammar_cases w) as H.
  rewrite Hl, Hp in H. destruct H as (l' & p' & H1 & H2 & H).
  exists l', p'. eexists. split; [exact H1|]. split; [exact H2|].
  split; [exact H|]. split; [|split; [|split]].
  - rewrite files_write_other by discriminate. apply files_write_same.
  - apply files_write_same.
  - rewrite !files_write_other by discriminate. exact Hl.
  - rewrite !files_write_other by discriminate. exact Hp.
Qed.

Definition grammar_sources (l p : str) : filesystem :=
  fun q => if path_eqb q (source_of lexer_g4) then Some (Utf8 l)
           else if path_eqb q (source_of parser_g4) then Some (Utf8 p) else None.

Definition sample_lexer_grammar : str :=
  "lexer grammar SqlBaseLexer;
@members {
  public boolean isHint() { return true; }
}
BRACKETED_COMMENT : '/*' {!isHint()}? .*? '*/' -> channel(HIDDEN);
".

Definition sample_parser_grammar : str :=
  "parser grammar SqlBaseParser;
@header { import java.util.*; }
operatorPipe : {isOperatorPipeStart()}? PIPE GT;
".

(** A grammar with the line ends CR LF and CR. *)
Definition crlf_grammar : str :=
  "a" ++ CR :: LF :: "@members {x}" ++ CR :: LF :: "b" ++ CR :: "c {p()}?".

Lemma transform_grammar_writes_witness :
  exists w',
    transform_grammar
      {| files := grammar_sources crlf_grammar sample_parser_grammar;
         subprocess_run := no_tool |} = (Ret true, w')
    /\ files w' (output_of lexer_g4)
       = Some (Utf8 ("a" ++ LF :: "b" ++ LF :: "c {this.p()}?"))
    /\ files w' (source_of lexer_g4) = Some (Utf8 crlf_grammar).
Proof.
  destruct (transform_grammar_writes
              {| files := grammar_sources crlf_grammar sample_parser_grammar;
                 subprocess_run := no_tool |}
              crlf_grammar sample_parser_grammar eq_refl eq_refl)
    as (l' & p' & w' & T1 & _ & E & F1 & _ & F3 & _).
  assert (T : transformed (universal_newlines crlf_grammar)
                ("a" ++ LF :: "b" ++ LF :: "c {this.p()}?")).
  { eexists _, _. split; [vm_compute; reflexivity|].
    split; vm_compute; reflexivity. }
  rewrite (transformed_unique _ _ _ T1 T) in F1.
  exists w'. split; [exact E|]. split; [exact F1 | exact F3].
Defined.

(** X3.  The stage is not all-or-nothing: when the lexer grammar is there and
    the parser grammar is not, it returns [False] after it has written
    the transformed lexer grammar. *)
Theorem transform_grammar_partial (w : world) (l : str) :
  files w (source_of lexer_g4) = Some (Utf8 l) ->
  files w (source_of parser_g4) = None ->
  exists l' w',
    transformed (universal_newlines l) l'
    /\ transform_grammar w = (Ret false, w')
    /\ files w' (output_of lexer_g4) = Some (Utf8 l')
    /\ files w' (output_of parser_g4) = files w (output_of parser_g4).
Proof.
  intros Hl Hp. pose proof (transform_grammar_cases w) as H.
  rewrite Hl, Hp in H. destruct H as (l' & H1 & H).
  exists l'. eexists. split; [exact H1|]. split; [exact H|]. split.
  - apply files_write_same.
  - apply files_write_other. discriminate.
Qed.

Definition lexer_source_only (l : str) : filesystem :=
  fun q => if path_eqb q (source_of lexer_g4) then Some (Utf8 l) else None.

Lemma transform_grammar_partial_witness :
  exists l' w',
    transformed (universal_newlines crlf_grammar) l'
    /\ transform_grammar {| files := lexer_source_only crlf_grammar;
                            subprocess_run := no_tool |} = (Ret false, w')
    /\ files w' (output_of lexer_g4) = Some (Utf8 l')
    /\ files w' (output_of parser_g4) = None.
Proof.
  apply (transform_grammar_partial
           {| files := lexer_source_only crlf_grammar;
              subprocess_run := no_tool |}); reflexivity.
Defined.

(** ** The Predicate Injection Stage *)

(** What the stage makes of an artifact it has read as [content]. *)
Definition injected_lexer (content : str) : str := rstrip content ++ lexer_predicates_js.
Definition injected_parser (content : str) : str := rstrip content ++ parser_predicates_js.

(** The stage on the cases of which artifacts are there, and of which can
    be read. *)
Lemma add_predicate_implementations_cases (w : world) :
  match files w lexer_js, files w parser_js with
  | None, _ => add_predicate_implementations w = (Ret false, w)
  | Some NotUtf8, _ =>
      add_predicate_implementations w = (Raise (UnicodeDecodeError lexer_js), w)
  | Some (Utf8 l), None =>
      add_predicate_implementations w
      = (Ret false,
         snd (write_text lexer_js (injected_lexer (universal_newlines l)) w))
  | Some (Utf8 l), Some NotUtf8 =>
      add_predicate_implementations w
      = (Raise (UnicodeDecodeError parser_js),
         snd (write_text lexer_js (injected_lexer (universal_newlines l)) w))
  | Some (Utf8 l), Some (Utf8 p) =>
      add_predicate_implementations w
      = (Ret true,
         snd (write_text parser_js (injected_parser (universal_newlines p))
                (snd (write_text lexer_js (injected_lexer (universal_newlines l)) w))))
  end.
Proof.
  unfold add_predicate_implementations. cbv zeta. fold lexer_js. fold parser_js.
  destruct (files w lexer_js) as [[l|]|] eqn:El.
  - fold (injected_lexer (universal_newlines l)).
    set (w1 := snd (write_text lexer_js (injected_lexer (universal_newlines l)) w)).
    assert (E1 : files w1 parser_js = files w parser_js).
    { unfold w1. apply files_write_other. discriminate. }
    rewrite (bindM_ret _ _ _ _ _ _ _ (@exists_found w _ (Utf8 l) El)). cbn [negb].
    rewrite (bindM_ret _ _ _ _ _ _ _ (@read_text_found w _ l El)).
    fold (injected_lexer (universal_newlines l)).
    rewrite (bindM_ret _ _ _ _ _ _ _
               (write_text_ret w _ (injected_lexer (universal_newlines l)))).
    fold w1.
    destruct (files w parser_js) as [[p|]|] eqn:Ep.
    + rewrite (bindM_ret _ _ _ _ _ _ _ (@exists_found w1 _ (Utf8 p) E1)). cbn [negb].
      rewrite (bindM_ret _ _ _ _ _ _ _ (@read_text_found w1 _ p E1)).
      fold (injected_parser (universal_newlines p)).
      rewrite (bindM_ret _ _ _ _ _ _ _
                 (write_text_ret w1 _ (injected_parser (universal_newlines p)))).
      reflexivity.
    + rewrite (bindM_ret _ _ _ _ _ _ _ (@exists_found w1 _ NotUtf8 E1)). cbn [negb].
      rewrite (bindM_raise _ _ _ _ _ _ _ (read_text_not_utf8 w1 _ E1)). reflexivity.
    + rewrite (bindM_ret _ _ _ _ _ _ _ (exists_missing w1 _ E1)). reflexivity.
  - rewrite (bindM_ret _ _ _ _ _ _ _ (@exists_found w _ NotUtf8 El)). cbn [negb].
    rewrite (bindM_raise _ _ _ _ _ _ _ (read_text_not_utf8 w _ El)). reflexivity.
  - rewrite (bindM_ret _ _ _ _ _ _ _ (exists_missing w _ El)). reflexivity.
Qed.

(** What the stage gives, and the files it leaves alone. *)
Lemma add_predicate_implementations_frame (w : world) :
  exists r w',
    add_predicate_implementations w = (r, w')
    /\ (r = Ret true <->
        (exists l, files w lexer_js = Some (Utf8 l))
        /\ (exists p, files w parser_js = Some (Utf8 p)))
    /\ (r = Ret false <->
        files w lexer_js = None
        \/ ((exists l, files w lexer_js = Some (Utf8 l)) /\ files w parser_js = None))
    /\ (forall e, r = Raise e <->
        exists p, e = UnicodeDecodeError p /\ files w p = Some NotUtf8
          /\ (p = lexer_js
              \/ p = parser_js /\ exists l, files w lexer_js = Some (Utf8 l)))
    /\ r <> Unmodelled
    /\ subprocess_run w' = subprocess_run w
    /\ (forall p, p <> lexer_js -> p <> parser_js -> files w' p = files w p).
Proof.
  pose proof (add_predicate_implementations_cases w) as H.
  assert (Hne : parser_js <> lexer_js) by discriminate.
  destruct (files w lexer_js) as [[l|]|] eqn:El;
    [destruct (files w parser_js) as [[p|]|] eqn:Ep| |];
    rewrite H; eexists _, _; (split; [reflexivity|]).
  - split; [split; [intros _; split; eexists; reflexivity | reflexivity]|].
    split; [split; [discriminate | intros [H0|[_ H0]]; discriminate H0]|].
    split; [intros e; split; [discriminate|]|].
    { intros (q & _ & Hq & [->|[-> _]]); congruence. }
    split; [discriminate|]. split; [reflexivity|]. intros q H1 H2.
    rewrite files_write_other by exact H2. apply files_write_other. exact H1.
  - split; [split; [discriminate | intros [_ [p0 H0]]; discriminate H0]|].
    split; [split; [discriminate | intros [H0|[_ H0]]; discriminate H0]|].
    split; [intros e; split|].
    { intros E. injection E as <-. exists parser_js.
      split; [reflexivity|]. split; [exact Ep|]. right. split; [reflexivity|].
      exists l. reflexivity. }
    { intros (q & -> & Hq & [->|[-> _]]); [congruence | reflexivity]. }
    split; [discriminate|]. split; [reflexivity|].
    intros q H1 H2. apply files_write_other. exact H1.
  - split; [split; [discriminate | intros [_ [p0 H0]]; discriminate H0]|].
    split; [split; [intros _; right; split; [exists l|]; reflexivity | reflexivity]|].
    split; [intros e; split; [discriminate|]|].
    { intros (q & _ & Hq & [->|[-> _]]); congruence. }
    split; [discriminate|]. split; [reflexivity|].
    intros q H1 H2. apply files_write_other. exact H1.
  - split; [split; [discriminate | intros [[l0 H0] _]; discriminate H0]|].
    split; [split; [discriminate | intros [H0|[[l0 H0] _]]; discriminate H0]|].
    split; [intros e; split|].
    { intros E. injection E as <-. exists lexer_js.
      split; [reflexivity|]. split; [exact El|]. left. reflexivity. }
    { intros (q & -> & Hq & [->|[-> [l0 H0]]]); [reflexivity | discriminate H0]. }
    split; [discriminate|]. split; reflexivity.
  - split; [split; [discriminate | intros [[l0 H0] _]; discriminate H0]|].
    split; [split; [intros _; left; reflexivity | reflexivity]|].
    split; [intros e; split; [discriminate|]|].
    { intros (q & _ & Hq & [->|[-> [l0 H0]]]); congruence. }
    split; [discriminate|]. split; reflexivity.
Qed.

(** X4.  The injection stage returns a status unless an artifact it comes to
    read is not UTF-8, and then it raises the [UnicodeDecodeError] of that
    file.  It returns [True] exactly when both artifacts exist and are
    UTF-8; whatever it gives, it writes to no path but the two artifacts,
    and leaves the tool alone. *)
Theorem add_predicate_implementations_outcome (w : world) :
  exists r w',
    add_predicate_implementations w = (r, w')
    /\ (r = Ret true <->
        (exists l, files w lexer_js = Some (Utf8 l))
        /\ (exists p, files w parser_js = Some (Utf8 p)))
    /\ (r = Ret false <->
        files w lexer_js = None
        \/ ((exists l, files w lexer_js = Some (Utf8 l)) /\ files w parser_js = None))
    /\ (forall e, r = Raise e <->
        exists p, e = UnicodeDecodeError p /\ files w p = Some NotUtf8
          /\ (p = lexer_js
              \/ p = parser_js /\ exists l, files w lexer_js = Some (Utf8 l)))
    /\ r <> Unmodelled
    /\ subprocess_run w' = subprocess_run w
    /\ (forall p, p <> lexer_js -> p <> parser_js -> files w' p = files w p).
Proof. exact (add_predicate_implementations_frame w). Qed.

(** X5.  The stage is not all-or-nothing: with the lexer artifact there and the
    parser artifact missing it returns [False] after it has appended the
    block to the lexer artifact, read with its line ends CR LF and CR as
    LF. *)
Theorem add_predicate_implementations_partial (w : world) (lexer : str) :
  files w lexer_js = Some (Utf8 lexer) ->
  files w parser_js = None ->
  exists w',
    add_predicate_implementations w = (Ret false, w')
    /\ files w' lexer_js
       = Some (Utf8 (rstrip (universal_newlines lexer) ++ lexer_predicates_js))
    /\ files w' parser_js = None.
Proof.
  intros Hl Hp. pose proof (add_predicate_implementations_cases w) as H.
  rewrite Hl, Hp in H. rewrite H. eexists. split; [reflexivity|]. split.
  - apply files_write_same.
  - rewrite files_write_other by discriminate. exact Hp.
Qed.

Definition lexer_artifact_only (lexer : str) : filesystem :=
  fun q => if path_eqb q lexer_js then Some (Utf8 lexer) else None.

Lemma add_predicate_implementations_partial_witness :
  exists w',
    add_predicate_implementations
      {| files := lexer_artifact_only crlf_lexer; subprocess_run := no_tool |}
    = (Ret false, w')
    /\ files w' lexer_js
       = Some (Utf8 ("lexer;" ++ LF :: "more;" ++ LF :: "end;" ++ lexer_predicates_js))
    /\ files w' parser_js = None.
Proof.
  apply (add_predicate_implementations_partial
           {| files := lexer_artifact_only crlf_lexer; subprocess_run := no_tool |}
           crlf_lexer);
    reflexivity.
Defined.

Lemma rstrip_app (a b : str) : rstrip b <> [] -> rstrip (a ++ b) = a ++ rstrip b.
Proof.
  intros Hb. induction a as [|c a IH]; [reflexivity|].
  cbn [app rstrip]. rewrite IH.
  destruct (a ++ rstrip b) as [|d rest] eqn:E; [|reflexivity].
  apply app_eq_nil in E. destruct E as [_ E]. contradiction.
Qed.

Lemma set_diff_found (required impls : list str) :
  (forall x, In x required -> 0 < count_occ str_dec impls x) ->
  set_diff required impls = [].
Proof.
  intros H. unfold set_diff. apply filter_none. intros x Hx.
  rewrite mem_count; [reflexivity | apply H; exact Hx].
Qed.

Lemma rstrip_In (c : ascii) (s : str) : In c (rstrip s) -> In c s.
Proof.
  intros H. destruct (rstrip_split s) as (ws & E & _).
  rewrite E. apply in_or_app. left. exact H.
Qed.

(** The text the injection stage writes is read back as it is. *)
Lemma injected_read_back (content block : str) :
  ~ In CR block ->
  universal_newlines (rstrip (universal_newlines content) ++ block)
  = rstrip (universal_newlines content) ++ block.
Proof.
  intros Hb. apply universal_newlines_id. intros Hin.
  apply in_app_or in Hin. destruct Hin as [Hin|Hin]; [|exact (Hb Hin)].
  apply rstrip_In in Hin. exact (universal_newlines_no_CR _ Hin).
Qed.

Lemma lexer_block_no_CR : ~ In CR lexer_predicates_js.
Proof.
  assert (H : forallb (fun c => negb (Ascii.eqb c CR)) lexer_predicates_js = true)
    by (vm_compute; reflexivity).
  rewrite forallb_forall in H. intros Hin. specialize (H _ Hin). discriminate H.
Qed.

Lemma parser_block_no_CR : ~ In CR parser_predicates_js.
Proof.
  assert (H : forallb (fun c => negb (Ascii.eqb c CR)) parser_predicates_js = true)
    by (vm_compute; reflexivity).
  rewrite forallb_forall in H. intros Hin. specialize (H _ Hin). discriminate H.
Qed.

(** X6.  Running the injection stage a second time appends the blocks a second
    time: each artifact then ends with its block twice (the first copy
    without its last line end), every required name is defined twice, and
    the verifier, which looks at the set of names, still returns [True]. *)
Theorem add_predicate_implementations_twice (w : world) (lexer parser : str)
    (lexer_defs parser_defs : list str) :
  files w lexer_js = Some (Utf8 lexer) ->
  files w parser_js = Some (Utf8 parser) ->
  re_findall "SqlBaseLexer\.prototype\.(\w+)\s*=" lexer = Ret lexer_defs ->
  re_findall "SqlBaseParser\.prototype\.(\w+)\s*=" parser = Ret parser_defs ->
  (forall n, In n required_lexer_predicates -> ~ In n lexer_defs) ->
  (forall n, In n (required_parser_predicates ++ required_parser_flags) ->
             ~ In n parser_defs) ->
  exists w1 w2 lexer2 parser2 lexer_defs2 parser_defs2,
    add_predicate_implementations w = (Ret true, w1)
    /\ add_predicate_implementations w1 = (Ret true, w2)
    /\ files w2 lexer_js = Some (Utf8 lexer2)
    /\ files w2 parser_js = Some (Utf8 parser2)
    /\ lexer2 = rstrip (universal_newlines lexer)
                ++ rstrip lexer_predicates_js ++ lexer_predicates_js
    /\ parser2 = rstrip (universal_newlines parser)
                 ++ rstrip parser_predicates_js ++ parser_predicates_js
    /\ re_findall "SqlBaseLexer\.prototype\.(\w+)\s*=" lexer2 = Ret lexer_defs2
    /\ re_findall "SqlBaseParser\.prototype\.(\w+)\s*=" parser2 = Ret parser_defs2
    /\ (forall n, In n required_lexer_predicates ->
                  count_occ str_dec lexer_defs2 n = 2)
    /\ (forall n, In n (required_parser_predicates ++ required_parser_flags) ->
                  count_occ str_dec parser_defs2 n = 2)
    /\ verify_predicates w2 = (Ret true, w2).
Proof.
  intros Hl Hp Hdl Hdp Hfl Hfp.
  rewrite re_findall_lexer in Hdl. rewrite re_findall_parser in Hdp.
  injection Hdl as <-. injection Hdp as <-.
  destruct (add_predicate_implementations_run _ Hl Hp) as (w1 & R1 & Hl1 & Hp1 & _).
  destruct (add_predicate_implementations_run _ Hl1 Hp1) as (w2 & R2 & Hl2 & Hp2 & _).
  rewrite (injected_read_back lexer _ lexer_block_no_CR) in Hl2.
  rewrite (injected_read_back parser _ parser_block_no_CR) in Hp2.
  set (lexer0 := universal_newlines lexer) in *.
  set (parser0 := universal_newlines parser) in *.
  assert (Nl : findall_compiled LEXER_DEF lexer0 = findall_compiled LEXER_DEF lexer).
  { unfold lexer0. rewrite LEXER_DEF_eq.
    apply findall_newlines; [discriminate | repeat constructor]. }
  assert (Np : findall_compiled PARSER_DEF parser0 = findall_compiled PARSER_DEF parser).
  { unfold parser0. rewrite PARSER_DEF_eq.
    apply findall_newlines; [discriminate | repeat constructor]. }
  set (lexer2 := rstrip (rstrip lexer0 ++ lexer_predicates_js) ++ lexer_predicates_js) in *.
  set (parser2 := rstrip (rstrip parser0 ++ parser_predicates_js) ++ parser_predicates_js) in *.
  assert (Cl : forall n, In n required_lexer_predicates ->
             count_occ str_dec (findall_compiled LEXER_DEF lexer2) n = 2).
  { intros n Hn. unfold lexer2.
    rewrite !(findall_injected def_LEXER _ quiet_lexer_block), findall_lexer_block, Nl.
    rewrite !count_occ_app, (lexer_block_once Hn).
    pose proof (Hfl n Hn) as H0. apply (count_occ_not_In str_dec) in H0.
    rewrite H0. reflexivity. }
  assert (Cp : forall n, In n (required_parser_predicates ++ required_parser_flags) ->
             count_occ str_dec (findall_compiled PARSER_DEF parser2) n = 2).
  { intros n Hn. unfold parser2.
    rewrite !(findall_injected def_PARSER _ quiet_parser_block), findall_parser_block, Np.
    rewrite !count_occ_app, (parser_block_once Hn).
    pose proof (Hfp n Hn) as H0. apply (count_occ_not_In str_dec) in H0.
    rewrite H0. reflexivity. }
  exists w1, w2, lexer2, parser2,
    (findall_compiled LEXER_DEF lexer2), (findall_compiled PARSER_DEF parser2).
  split; [exact R1|]. split; [exact R2|]. split; [exact Hl2|]. split; [exact Hp2|].
  split; [unfold lexer2; rewrite rstrip_app, <- app_assoc;
          [reflexivity | vm_compute; discriminate]|].
  split; [unfold parser2; rewrite rstrip_app, <- app_assoc;
          [reflexivity | vm_compute; discriminate]|].
  split; [apply re_findall_lexer|]. split; [apply re_findall_parser|].
  split; [exact Cl|]. split; [exact Cp|].
  apply (verify_predicates_run w2 lexer2 parser2 Hl2 Hp2).
  - unfold missing_lexer. rewrite re_findall_lexer. cbn [bind].
    rewrite set_diff_found; [reflexivity|]. intros n Hn. rewrite (Cl n Hn). lia.
  - unfold missing_parser_predicates. rewrite re_findall_parser. cbn [bind].
    rewrite set_diff_found; [reflexivity|]. intros n Hn.
    rewrite (Cp n); [lia | apply in_or_app; left; exact Hn].
  - unfold missing_parser_flags. apply filter_none. intros f Hf.
    unfold parser2. rewrite contains_app_r; [reflexivity|].
    apply parser_block_flags. exact Hf.
Qed.

(** A generated lexer artifact with the line ends CR LF. *)
Definition crlf_generated_lexer : str :=
  "export default class SqlBaseLexer extends antlr4.Lexer {}" ++ CR :: LF ::
  "SqlBaseLexer.prototype.constructor = SqlBaseLexer;" ++ [CR; LF].

Lemma add_predicate_implementations_twice_witness :
  exists w1 w2 lexer2 parser2 lexer_defs2 parser_defs2,
    add_predicate_implementations
      {| files := artifacts crlf_generated_lexer generated_parser;
         subprocess_run := no_tool |} = (Ret true, w1)
    /\ add_predicate_implementations w1 = (Ret true, w2)
    /\ files w2 lexer_js = Some (Utf8 lexer2)
    /\ files w2 parser_js = Some (Utf8 parser2)
    /\ lexer2 = rstrip (universal_newlines crlf_generated_lexer)
                ++ rstrip lexer_predicates_js ++ lexer_predicates_js
    /\ parser2 = rstrip (universal_newlines generated_parser)
                 ++ rstrip parser_predicates_js ++ parser_predicates_js
    /\ re_findall "SqlBaseLexer\.prototype\.(\w+)\s*=" lexer2 = Ret lexer_defs2
    /\ re_findall "SqlBaseParser\.prototype\.(\w+)\s*=" parser2 = Ret parser_defs2
    /\ (forall n, In n required_lexer_predicates ->
                  count_occ str_dec lexer_defs2 n = 2)
    /\ (forall n, In n (required_parser_predicates ++ required_parser_flags) ->
                  count_occ str_dec parser_defs2 n = 2)
    /\ verify_predicates w2 = (Ret true, w2).
Proof.
  apply (add_predicate_implementations_twice
           {| files := artifacts crlf_generated_lexer generated_parser;
              subprocess_run := no_tool |}
           crlf_generated_lexer generated_parser
           [("constructor" : str)] [("constructor" : str)]);
    try (vm_compute; reflexivity);
    intros n Hn [<-|[]]; cbn in Hn;
    repeat (destruct Hn as [Hn|Hn]; [discriminate Hn|]); exact Hn.
Defined.

(** ** The Coverage Verifier *)

Lemma mem_In (x : str) (l : list str) : mem x l = true <-> In x l.
Proof.
  unfold mem. rewrite existsb_exists. split.
  - intros (y & Hy & E). apply str_eqb_eq in E. subst y. exact Hy.
  - intros H. exists x. split; [exact H | apply str_eqb_refl].
Qed.

Lemma filter_nil_iff (A : Type) (f : A -> bool) (l : list A) :
  filter f l = [] <-> forall x, In x l -> f x = false.
Proof.
  split; [|apply filter_none].
  induction l as [|a l IH]; intros H x Hx; [destruct Hx|].
  cbn [filter] in H. destruct (f a) eqn:E; [discriminate|].
  destruct Hx as [<-|Hx]; [exact E | apply IH; assumption].
Qed.

Lemma set_diff_nil_iff (required impls : list str) :
  set_diff required impls = [] <-> forall x, In x required -> In x impls.
Proof.
  unfold set_diff. rewrite filter_nil_iff. split; intros H x Hx.
  - apply mem_In. specialize (H x Hx). apply negb_false_iff in H. exact H.
  - apply negb_false_iff, mem_In, H, Hx.
Qed.

Lemma verify_predicates_value (w : world) (lexer parser : str) :
  files w lexer_js = Some (Utf8 lexer) ->
  files w parser_js = Some (Utf8 parser) ->
  verify_predicates w
  = (Ret match set_diff required_lexer_predicates (findall_compiled LEXER_DEF lexer),
               set_diff required_parser_predicates (findall_compiled PARSER_DEF parser),
               missing_parser_flags parser with
         | [], [], [] => true
         | _, _, _ => false
         end, w).
Proof.
  intros Hl Hp.
  assert (H1 : missing_lexer (universal_newlines lexer)
               = Ret (set_diff required_lexer_predicates
                        (findall_compiled LEXER_DEF lexer))).
  { rewrite missing_lexer_newlines.
    unfold missing_lexer. rewrite re_findall_lexer. reflexivity. }
  assert (H2 : missing_parser_predicates (universal_newlines parser)
               = Ret (set_diff required_parser_predicates
                        (findall_compiled PARSER_DEF parser))).
  { rewrite missing_parser_predicates_newlines.
    unfold missing_parser_predicates. rewrite re_findall_parser. reflexivity. }
  unfold verify_predicates. cbv zeta.
  rewrite (bindM_ret _ _ _ _ _ _ _ (@read_text_found w lexer_js lexer Hl)).
  rewrite (bindM_ret _ _ _ _ _ _ _ (lift_ret _ _ _ w H1)).
  rewrite (bindM_ret _ _ _ _ _ _ _ (@read_text_found w parser_js parser Hp)).
  rewrite (bindM_ret _ _ _ _ _ _ _ (lift_ret _ _ _ w H2)).
  rewrite missing_parser_flags_newlines.
  destruct (set_diff required_lexer_predicates _);
    destruct (set_diff required_parser_predicates _);
    destruct (missing_parser_flags parser); reflexivity.
Qed.

(** X7.  With both artifacts there, as UTF-8 texts, the verifier raises
    nothing and writes nothing, and it returns [True] exactly when each required lexer name
    and the required parser method are among the names its definition
    patterns find, and each flag name stands after [prototype.] somewhere
    in the parser artifact. *)
Theorem verify_predicates_decides (w : world) (lexer parser : str) :
  files w lexer_js = Some (Utf8 lexer) ->
  files w parser_js = Some (Utf8 parser) ->
  exists b lexer_defs parser_defs,
    verify_predicates w = (Ret b, w)
    /\ re_findall "SqlBaseLexer\.prototype\.(\w+)\s*=" lexer = Ret lexer_defs
    /\ re_findall "SqlBaseParser\.prototype\.(\w+)\s*=" parser = Ret parser_defs
    /\ (b = true <->
        (forall n, In n required_lexer_predicates -> In n lexer_defs)
        /\ (forall n, In n required_parser_predicates -> In n parser_defs)
        /\ (forall f, In f required_parser_flags ->
                      contains ("prototype." ++ f) parser = true)).
Proof.
  intros Hl Hp. eexists _, _, _.
  split; [apply (verify_predicates_value w lexer parser Hl Hp)|].
  split; [apply re_findall_lexer|]. split; [apply re_findall_parser|].
  rewrite <- !set_diff_nil_iff.
  assert (F : missing_parser_flags parser = [] <->
              forall f, In f required_parser_flags ->
                        contains ("prototype." ++ f) parser = true).
  { unfold missing_parser_flags. rewrite filter_nil_iff.
    split; intros H f Hf; specialize (H f Hf).
    - apply negb_false_iff in H. exact H.
    - apply negb_false_iff. exact H. }
  rewrite <- F.
  destruct (set_diff required_lexer_predicates _);
    destruct (set_diff required_parser_predicates _);
    destruct (missing_parser_flags parser);
    split; try discriminate; try tauto;
    intros (A & B & C); discriminate.
Qed.

Lemma verify_predicates_decides_witness :
  exists b lexer_defs parser_defs,
    verify_predicates generated_world = (Ret b, generated_world)
    /\ re_findall "SqlBaseLexer\.prototype\.(\w+)\s*=" generated_lexer = Ret lexer_defs
    /\ re_findall "SqlBaseParser\.prototype\.(\w+)\s*=" generated_parser = Ret parser_defs
    /\ (b = true <->
        (forall n, In n required_lexer_predicates -> In n lexer_defs)
        /\ (forall n, In n required_parser_predicates -> In n parser_defs)
        /\ (forall f, In f required_parser_flags ->
                      contains ("prototype." ++ f) generated_parser = true)).
Proof.
  apply (verify_predicates_decides generated_world generated_lexer generated_parser);
    reflexivity.
Defined.

(** ** The driver on whole runs *)

(** What [subprocess.run] gives in the world [w], and the world it
    leaves. *)
Definition tool_result (w : world) : outcome completed_process :=
  fst (subprocess_run w (files w)).

Definition after_tool (w : world) : world :=
  {| files := snd (subprocess_run w (files w)); subprocess_run := subprocess_run w |}.

(** What the Generator Invocation Stage gives, by the jar and the tool. *)
Lemma generate_antlr_cases (w : world) :
  match files w ANTLR_JAR with
  | None => generate_antlr w = (Ret false, w)
  | Some _ =>
      generate_antlr w
      = (match tool_result w with
         | Ret cp => Ret (Z.eqb (returncode cp) 0)
         | Raise e => Raise e
         | Unmodelled => Unmodelled
         end, after_tool w)
  end.
Proof.
  unfold generate_antlr, bindM, exists_, run_antlr, tool_result, after_tool.
  destruct (files w ANTLR_JAR) as [jar|]; [|reflexivity]. cbn [negb].
  destruct (subprocess_run w (files w)) as [[cp|e|] fs]; try reflexivity.
  cbn [fst snd]. destruct (Z.eqb (returncode cp) 0); reflexivity.
Qed.

(** The verifier on artifacts the injection stage has extended. *)
Lemma verify_after_injection (w : world) (lexer parser : str) :
  files w lexer_js = Some (Utf8 (rstrip lexer ++ lexer_predicates_js)) ->
  files w parser_js = Some (Utf8 (rstrip parser ++ parser_predicates_js)) ->
  verify_predicates w = (Ret true, w).
Proof.
  intros Hl Hp. apply (verify_predicates_run w _ _ Hl Hp).
  - unfold missing_lexer. rewrite re_findall_lexer. cbn [bind].
    rewrite set_diff_found; [reflexivity|]. intros n Hn.
    rewrite (findall_injected def_LEXER lexer quiet_lexer_block), findall_lexer_block.
    rewrite count_occ_app, (lexer_block_once Hn). lia.
  - unfold missing_parser_predicates. rewrite re_findall_parser. cbn [bind].
    rewrite set_diff_found; [reflexivity|]. intros n Hn.
    rewrite (findall_injected def_PARSER parser quiet_parser_block), findall_parser_block.
    rewrite count_occ_app, (@parser_block_once n); [lia|].
    apply in_or_app. left. exact Hn.
  - unfold missing_parser_flags. apply filter_none. intros f Hf.
    rewrite contains_app_r; [reflexivity|]. apply parser_block_flags. exact Hf.
Qed.

(** The ways a run of [main] can end: the calls made, what they gave and
    what [main] gives. *)
Definition name_transform : string := "Transform grammar".
Definition name_generate : string := "Generate JavaScript".
Definition name_add : string := "Add predicates".
Definition name_verify : string := "Verify coverage".

Lemma main_shapes (w : world) :
  exists w',
    run_steps steps w = (Ret 1%Z, w', [(name_transform, Ret false)])
    \/ (exists p, In p [source_of lexer_g4; source_of parser_g4]
          /\ files w p = Some NotUtf8
          /\ run_steps steps w
             = (Raise (UnicodeDecodeError p), w',
                [(name_transform, Raise (UnicodeDecodeError p))]))
    \/ run_steps steps w = (Ret 1%Z, w', [(name_transform, Ret true); (name_generate, Ret false)])
    \/ (exists e fs, fst (subprocess_run w fs) = Raise e
          /\ run_steps steps w = (Raise e, w', [(name_transform, Ret true); (name_generate, Raise e)]))
    \/ (exists fs, fst (subprocess_run w fs) = Unmodelled
          /\ run_steps steps w
             = (Unmodelled, w', [(name_transform, Ret true); (name_generate, Unmodelled)]))
    \/ run_steps steps w
       = (Ret 1%Z, w', [(name_transform, Ret true); (name_generate, Ret true); (name_add, Ret false)])
    \/ (exists p, In p [lexer_js; parser_js]
          /\ run_steps steps w
             = (Raise (UnicodeDecodeError p), w',
                [(name_transform, Ret true); (name_generate, Ret true);
                 (name_add, Raise (UnicodeDecodeError p))]))
    \/ run_steps steps w
       = (Ret 0%Z, w',
          [(name_transform, Ret true); (name_generate, Ret true); (name_add, Ret true); (name_verify, Ret true)]).
Proof.
  unfold steps. fold name_transform name_generate name_add name_verify. cbn [run_steps].
  pose proof (transform_grammar_cases w) as C1.
  destruct (transform_grammar_frame w) as (r1 & w1 & E1 & _ & _ & _ & _ & S1 & _).
  rewrite E1 in *.
  destruct (files w (source_of lexer_g4)) as [[l|]|] eqn:El;
    [destruct (files w (source_of parser_g4)) as [[p|]|] eqn:Ep| |].
  2:{ destruct C1 as (l' & _ & C1). injection C1 as -> _.
      exists w1. right. left. exists (source_of parser_g4).
      split; [right; left; reflexivity|]. split; [exact Ep | reflexivity]. }
  2:{ destruct C1 as (l' & _ & C1). injection C1 as -> _.
      exists w1. left. reflexivity. }
  2:{ injection C1 as -> _.
      exists w1. right. left. exists (source_of lexer_g4).
      split; [left; reflexivity|]. split; [exact El | reflexivity]. }
  2:{ injection C1 as -> _. exists w1. left. reflexivity. }
  destruct C1 as (l' & p' & _ & _ & C1). injection C1 as -> _.
  pose proof (generate_antlr_cases w1) as G.
  destruct (files w1 ANTLR_JAR) as [jar|];
    [|rewrite G; exists w1; do 2 right; left; reflexivity].
  rewrite G. unfold tool_result. rewrite S1.
  destruct (subprocess_run w (files w1)) as [[cp|e|] fs] eqn:T; cbn [fst].
  - destruct (Z.eqb (returncode cp) 0);
      [|exists (after_tool w1); do 2 right; left; reflexivity].
    set (w2 := after_tool w1).
    pose proof (add_predicate_implementations_cases w2) as C.
    destruct (files w2 lexer_js) as [[lx|]|];
      [destruct (files w2 parser_js) as [[px|]|]| |]; rewrite C.
    + match goal with |- context [verify_predicates ?x] => set (w3 := x) end.
      rewrite (verify_after_injection w3 (universal_newlines lx) (universal_newlines px)).
      * exists w3. do 7 right. reflexivity.
      * unfold w3. rewrite files_write_other by discriminate. apply files_write_same.
      * unfold w3. apply files_write_same.
    + eexists. do 6 right. left. exists parser_js.
      split; [right; left; reflexivity | reflexivity].
    + eexists. do 5 right. left. reflexivity.
    + eexists. do 6 right. left. exists lexer_js.
      split; [left; reflexivity | reflexivity].
    + eexists. do 5 right. left. reflexivity.
  - exists (after_tool w1). do 3 right. left. exists e, (files w1).
    rewrite T. split; reflexivity.
  - exists (after_tool w1). do 4 right. left. exists (files w1).
    rewrite T. split; reflexivity.
Qed.

(** X8.  [main] lets no exception out but one that the call of the tool
    raises, or the [UnicodeDecodeError] of a source grammar or an artifact
    that is not UTF-8: the verifier, which reads the artifacts without a
    test, is only reached when the injection stage has written them. *)
Theorem main_raises_only_from_tool_or_decoding (w : world) (e : exn) :
  fst (main w) = Raise e ->
  (exists fs, fst (subprocess_run w fs) = Raise e)
  \/ (exists p, e = UnicodeDecodeError p
        /\ (files w p = Some NotUtf8 /\ In p [source_of lexer_g4; source_of parser_g4]
            \/ In p [lexer_js; parser_js])).
Proof.
  unfold main. destruct (main_shapes w) as (w' & H).
  destruct H as [H|[(p & Hp & Hf & H)|[H|[(e' & fs & T & H)|[(fs & T & H)
                   |[H|[(p & Hp & H)|H]]]]]]];
    rewrite H; cbn [fst]; try discriminate; intros E; injection E as <-.
  - right. exists p. split; [reflexivity|]. left. split; assumption.
  - left. exists fs. exact T.
  - right. exists p. split; [reflexivity|]. right. exact Hp.
Qed.

(** X9.  In a run of [main] the verifier never reports an issue: when it is
    reached, the injection stage has just appended the definitions it
    looks for, so the call gives [True]. *)
Theorem main_verifier_always_passes (w : world) (r : outcome bool) :
  In (name_verify, r) (main_calls w) -> r = Ret true.
Proof.
  unfold main_calls. destruct (main_shapes w) as (w' & H).
  destruct H as [H|[(p & Hp & Hf & H)|[H|[(e' & fs & T & H)|[(fs & T & H)
                   |[H|[(p & Hp & H)|H]]]]]]];
    rewrite H; cbn [snd In]; intros E;
    repeat (destruct E as [E|E]; [try discriminate E|]); try contradiction.
  injection E as <-. reflexivity.
Qed.

(** X10.  Whatever texts the two artifacts hold, once the injection stage has
    run the verifier returns [True]: the blocks define all it looks for. *)
Theorem verification_passes_after_injection (w : world) (lexer parser : str) :
  files w lexer_js = Some (Utf8 lexer) ->
  files w parser_js = Some (Utf8 parser) ->
  exists w',
    add_predicate_implementations w = (Ret true, w')
    /\ verify_predicates w' = (Ret true, w').
Proof.
  intros Hl Hp.
  destruct (add_predicate_implementations_run _ Hl Hp) as (w' & R & Hl' & Hp' & _).
  exists w'. split; [exact R|].
  exact (verify_after_injection w' _ _ Hl' Hp').
Qed.

Lemma verification_passes_after_injection_witness :
  exists w',
    add_predicate_implementations
      {| files := artifacts "SqlBaseLexer.prototype.isHint = 1;" "parser;";
         subprocess_run := no_tool |} = (Ret true, w')
    /\ verify_predicates w' = (Ret true, w').
Proof.
  apply (verification_passes_after_injection
           {| files := artifacts "SqlBaseLexer.prototype.isHint = 1;" "parser;";
              subprocess_run := no_tool |}
           "SqlBaseLexer.prototype.isHint = 1;" "parser;"); reflexivity.
Defined.

(** *** Sample runs *)

(** The files of a checkout: the two source grammars and the jar. *)
Definition checkout (l p : str) (jar : file) : filesystem :=
  fun q => if path_eqb q (source_of lexer_g4) then Some (Utf8 l)
           else if path_eqb q (source_of parser_g4) then Some (Utf8 p)
           else if path_eqb q ANTLR_JAR then Some jar else None.

(** A tool that writes the two artifacts, the lexer with the line ends
    CR LF, and a warning. *)
Definition sample_run : completed_process :=
  {| returncode := 0;
     stderr := "warning(146): non-fragment lexer rule can match the empty string" |}.

Definition sample_tool (fs : filesystem) : outcome completed_process * filesystem :=
  (Ret sample_run,
   fun q => if path_eqb q lexer_js then Some (Utf8 crlf_generated_lexer)
            else if path_eqb q parser_js then Some (Utf8 generated_parser)
            else fs q).

Definition sample_checkout : filesystem :=
  checkout sample_lexer_grammar sample_parser_grammar NotUtf8.

Lemma main_raises_only_from_tool_or_decoding_witness :
  (exists fs,
     fst (subprocess_run {| files := sample_checkout; subprocess_run := no_tool |} fs)
     = Raise (FileNotFoundError ANTLR_JAR))
  \/ (exists p, FileNotFoundError ANTLR_JAR = UnicodeDecodeError p
        /\ (files {| files := sample_checkout; subprocess_run := no_tool |} p
            = Some NotUtf8 /\ In p [source_of lexer_g4; source_of parser_g4]
            \/ In p [lexer_js; parser_js])).
Proof.
  apply (main_raises_only_from_tool_or_decoding
           {| files := sample_checkout; subprocess_run := no_tool |}).
  vm_compute. reflexivity.
Defined.

Lemma main_verifier_always_passes_witness :
  In (name_verify, Ret true)
     (main_calls {| files := sample_checkout; subprocess_run := sample_tool |})
  /\ Ret true = Ret true :> outcome bool.
Proof.
  assert (H : In (name_verify, Ret true)
                (main_calls {| files := sample_checkout;
                               subprocess_run := sample_tool |})).
  { vm_compute. do 3 right. left. reflexivity. }
  split; [exact H|].
  exact (main_verifier_always_passes _ _ H).
Defined.

(** X11.  A whole run that succeeds.  With the two source grammars and the jar
    there, and a tool that ends with return code 0 and leaves the two
    artifacts, [main] calls the four stages, each gives [True], and
    [main] returns 0; the artifacts are then what the tool wrote, read
    with the line ends CR LF and CR as LF and without their trailing
    whitespace, followed by the blocks.  What the tool writes to its error
    stream does not count. *)
Theorem main_succeeds (w : world) (l p : str) (jar : file) (lexer parser : str)
    (cp : completed_process) (fs : filesystem) :
  files w (source_of lexer_g4) = Some (Utf8 l) ->
  files w (source_of parser_g4) = Some (Utf8 p) ->
  files w ANTLR_JAR = Some jar ->
  (forall w1, transform_grammar w = (Ret true, w1) ->
              subprocess_run w (files w1) = (Ret cp, fs)) ->
  returncode cp = 0%Z ->
  fs lexer_js = Some (Utf8 lexer) ->
  fs parser_js = Some (Utf8 parser) ->
  exists w',
    main w = (Ret 0%Z, w')
    /\ main_calls w
       = [(name_transform, Ret true); (name_generate, Ret true); (name_add, Ret true); (name_verify, Ret true)]
    /\ files w' lexer_js
       = Some (Utf8 (rstrip (universal_newlines lexer) ++ lexer_predicates_js))
    /\ files w' parser_js
       = Some (Utf8 (rstrip (universal_newlines parser) ++ parser_predicates_js)).
Proof.
  intros Hl Hp Hjar Htool Hrc Hlex Hpar.
  pose proof (transform_grammar_cases w) as C1. rewrite Hl, Hp in C1.
  destruct C1 as (l' & p' & _ & _ & E1).
  match type of E1 with _ = (_, ?x) => set (w1 := x) in * end.
  pose proof (generate_antlr_cases w1) as C2.
  assert (J : files w1 ANTLR_JAR = Some jar).
  { unfold w1. rewrite !files_write_other by discriminate. exact Hjar. }
  rewrite J in C2. unfold tool_result, after_tool in C2.
  change (subprocess_run w1) with (subprocess_run w) in C2.
  rewrite (Htool w1 E1) in C2. cbn [fst snd] in C2. rewrite Hrc in C2.
  cbn [Z.eqb] in C2.
  match type of C2 with _ = (_, ?x) => set (w2 := x) in * end.
  destruct (add_predicate_implementations_run w2 Hlex Hpar)
    as (w3 & E3 & Hl3 & Hp3 & _).
  pose proof (verify_after_injection w3 _ _ Hl3 Hp3) as E4.
  exists w3. unfold main, main_calls, steps. fold name_transform name_generate name_add name_verify. cbn [run_steps].
  rewrite E1, C2, E3, E4. cbn [fst snd].
  split; [reflexivity|]. split; [reflexivity|]. split; assumption.
Qed.

Lemma main_succeeds_witness :
  exists w',
    main {| files := sample_checkout; subprocess_run := sample_tool |} = (Ret 0%Z, w')
    /\ main_calls {| files := sample_checkout; subprocess_run := sample_tool |}
       = [(name_transform, Ret true); (name_generate, Ret true); (name_add, Ret true); (name_verify, Ret true)]
    /\ files w' lexer_js
       = Some (Utf8 (rstrip (universal_newlines crlf_generated_lexer)
                     ++ lexer_predicates_js))
    /\ files w' parser_js
       = Some (Utf8 (rstrip (universal_newlines generated_parser)
                     ++ parser_predicates_js)).
Proof.
  apply (main_succeeds {| files := sample_checkout; subprocess_run := sample_tool |}
           sample_lexer_grammar sample_parser_grammar NotUtf8
           crlf_generated_lexer generated_parser
           sample_run
           (snd (sample_tool
                   (files (snd (transform_grammar
                                  {| files := sample_checkout;
                                     subprocess_run := sample_tool |}))))));
    try reflexivity.
  intros w1 E. apply (f_equal snd) in E. cbn [snd] in E. subst w1. reflexivity.
Defined.

(** X12.  Without the lexer grammar [main] returns 1 after the first call and
    has changed nothing. *)
Theorem main_stops_without_lexer_grammar (w : world) :
  files w (source_of lexer_g4) = None ->
  main w = (Ret 1%Z, w) /\ main_calls w = [(name_transform, Ret false)].
Proof.
  intros H. pose proof (transform_grammar_cases w) as C. rewrite H in C.
  unfold main, main_calls, steps. fold name_transform. cbn [run_steps]. rewrite C.
  split; reflexivity.
Qed.

Lemma main_stops_without_lexer_grammar_witness :
  main {| files := fun _ => None; subprocess_run := no_tool |}
  = (Ret 1%Z, {| files := fun _ => None; subprocess_run := no_tool |})
  /\ main_calls {| files := fun _ => None; subprocess_run := no_tool |}
     = [(name_transform, Ret false)].
Proof.
  apply (main_stops_without_lexer_grammar
           {| files := fun _ => None; subprocess_run := no_tool |}).
  reflexivity.
Defined.

(** X13.  Without the jar [main] returns 1 after the second call: the two
    transformed grammars are written, each from its source as it is read,
    the line ends CR LF and CR as LF, and no artifact is touched. *)
Theorem main_stops_without_jar (w : world) (l p : str) :
  files w (source_of lexer_g4) = Some (Utf8 l) ->
  files w (source_of parser_g4) = Some (Utf8 p) ->
  files w ANTLR_JAR = None ->
  exists l' p' w',
    transformed (universal_newlines l) l'
    /\ transformed (universal_newlines p) p'
    /\ main w = (Ret 1%Z, w')
    /\ main_calls w = [(name_transform, Ret true); (name_generate, Ret false)]
    /\ files w' (output_of lexer_g4) = Some (Utf8 l')
    /\ files w' (output_of parser_g4) = Some (Utf8 p')
    /\ files w' lexer_js = files w lexer_js
    /\ files w' parser_js = files w parser_js.
Proof.
  intros Hl Hp Hjar.
  pose proof (transform_grammar_cases w) as C1. rewrite Hl, Hp in C1.
  destruct C1 as (l' & p' & T1 & T2 & E1).
  match type of E1 with _ = (_, ?x) => set (w1 := x) in * end.
  pose proof (generate_antlr_cases w1) as C2.
  assert (J : files w1 ANTLR_JAR = None).
  { unfold w1. rewrite !files_write_other by discriminate. exact Hjar. }
  rewrite J in C2.
  exists l', p', w1. split; [exact T1|]. split; [exact T2|].
  unfold main, main_calls, steps. fold name_transform name_generate. cbn [run_steps].
  rewrite E1, C2. cbn [fst snd].
  split; [reflexivity|]. split; [reflexivity|]. unfold w1.
  split; [rewrite files_write_other by discriminate; apply files_write_same|].
  split; [apply files_write_same|].
  split; rewrite !files_write_other by discriminate; reflexivity.
Qed.

Lemma main_stops_without_jar_witness :
  exists l' p' w',
    transformed (universal_newlines crlf_grammar) l'
    /\ transformed (universal_newlines sample_parser_grammar) p'
    /\ main {| files := grammar_sources crlf_grammar sample_parser_grammar;
               subprocess_run := sample_tool |} = (Ret 1%Z, w')
    /\ main_calls {| files := grammar_sources crlf_grammar sample_parser_grammar;
                     subprocess_run := sample_tool |}
       = [(name_transform, Ret true); (name_generate, Ret false)]
    /\ files w' (output_of lexer_g4) = Some (Utf8 l')
    /\ files w' (output_of parser_g4) = Some (Utf8 p')
    /\ files w' lexer_js = None
    /\ files w' parser_js = None.
Proof.
  apply (main_stops_without_jar
           {| files := grammar_sources crlf_grammar sample_parser_grammar;
              subprocess_run := sample_tool |}); reflexivity.
Defined.

(** ** The other forms the Call Rewriter knows *)

(** The optional [!] of the fourth and the sixth pattern, on a text that
    starts with [bang], which is [!] or nothing, and goes on with
    anything but a [!]. *)
Definition BANG : regex := Group 1 (Cat (Opt (One (CChar "!"))) Eps).

Definition bang_text (neg : bool) : str := if neg then ["!"%char] else [].

Lemma dmatch_BANG (neg : bool) (c : ascii) (s : str) (g : groups) :
  c <> "!"%char ->
  dmatch BANG (bang_text neg ++ c :: s) g = Some (c :: s, (1, bang_text neg) :: g).
Proof.
  intros Hc. unfold BANG. apply (@dmatch_group 1 _ (bang_text neg) (c :: s) g g).
  destruct neg; cbn [bang_text app].
  - rewrite (dmatch_cat_some _ _ _ _ (c :: s) g); [reflexivity|].
    apply dmatch_opt_some. apply dmatch_lit.
  - rewrite (dmatch_cat_some _ _ _ _ (c :: s) g); [reflexivity|].
    apply dmatch_opt_none. apply dmatch_one_miss.
    cbn [charset_mem]. apply Ascii.eqb_neq. exact Hc.
Qed.

Lemma word_head_not_bang (name : str) :
  name <> [] -> Forall (fun c => isword c = true) name ->
  exists c w, name = c :: w /\ c <> "!"%char.
Proof.
  intros Hne Hw. destruct name as [|c w]; [contradiction|].
  exists c, w. split; [reflexivity|]. inversion Hw; subst.
  intros ->. discriminate.
Qed.

Lemma word_nobrace (name : str) :
  Forall (fun c => isword c = true) name -> nobrace name.
Proof. intros H. apply (@all_nobrace CWord); [reflexivity | reflexivity | exact H]. Qed.

Lemma word_no_dot (name : str) :
  Forall (fun c => isword c = true) name -> ~ In "."%char name.
Proof. intros H Hin. rewrite Forall_forall in H. specialize (H _ Hin). discriminate. Qed.

Lemma bang_nobrace neg : nobrace (bang_text neg).
Proof. destruct neg; repeat constructor. Qed.

Lemma bang_no_dot neg : ~ In "."%char (bang_text neg).
Proof.
  destruct neg; cbn; intros H; [destruct H as [H|[]]; discriminate | exact H].
Qed.

(** The start of the fourth pattern, [\{(!?)(\w+)], on [{bang name]. *)
Definition HEAD4 : list regex :=
  [One (CChar "{"); BANG; Group 2 (Cat (Plus CWord) Eps)].

Lemma dmatch_HEAD4 (neg : bool) (name : str) (d : ascii) (s : str) (g : groups) :
  name <> [] -> Forall (fun c => isword c = true) name -> isword d = false ->
  dmatch (seq HEAD4) ("{"%char :: bang_text neg ++ name ++ d :: s) g
  = Some (d :: s, (2, name) :: (1, bang_text neg) :: g).
Proof.
  intros Hne Hw Hd. destruct (word_head_not_bang name Hne Hw) as (c & w & E & Hc).
  unfold HEAD4, seq. cbn [fold_right].
  rewrite (dmatch_cat_some _ _ _ _ _ _ (dmatch_lit "{" _ g)).
  rewrite E at 1. cbn [app].
  rewrite (dmatch_cat_some _ _ _ _ _ _ (dmatch_BANG neg c _ g Hc)).
  change (c :: w ++ ?z) with ((c :: w) ++ z). rewrite <- E.
  rewrite (dmatch_cat_some _ _ _ _ _ _ (dmatch_name 2 name d _ _ Hne Hw Hd)).
  reflexivity.
Qed.

Lemma dmatch_C4_split (s : str) (g : groups) :
  dmatch C4 s g =
  match dmatch (seq HEAD4) s g with
  | Some (s1, g1) =>
      dmatch (seq [One (CChar "("); One (CChar ")"); One (CChar "}")]) s1 g1
  | None => None
  end.
Proof.
  exact (dmatch_seq_app HEAD4 [One (CChar "("); One (CChar ")"); One (CChar "}")] s g).
Qed.

(** The fourth pattern without its [(\?)?] on [{bang name()}]. *)
Lemma dmatch_C4_call (neg : bool) (name t : str) (g : groups) :
  name <> [] -> Forall (fun c => isword c = true) name ->
  dmatch C4 (frag (bang_text neg ++ name ++ "()") ++ t) g
  = Some (t, (2, name) :: (1, bang_text neg) :: g).
Proof.
  intros Hne Hw. rewrite dmatch_C4_split. unfold frag.
  cbn [app]. rewrite <- !app_assoc. cbn [of_string list_ascii_of_string app].
  rewrite (dmatch_HEAD4 neg name "(" _ g Hne Hw eq_refl). reflexivity.
Qed.

Lemma R4_value (g : groups) (e : nat) (neg : bool) (name qq : str) :
  lookup 1 g = Some (bang_text neg) -> lookup 2 g = Some name ->
  or_empty (lookup 3 g) = qq ->
  R4 {| m_end := e; m_groups := g |}
  = frag (bang_text neg ++ "this." ++ name ++ "()") ++ qq.
Proof.
  intros H1 H2 H3. unfold R4, group_text, group, frag. cbn [m_groups].
  rewrite H1, H2, H3. cbn [or_empty].
  destruct neg; cbn [bang_text app of_string list_ascii_of_string];
    rewrite <- ?app_assoc; cbn [app]; rewrite <- ?app_assoc; reflexivity.
Qed.

(** A call [{name()}] or [{!name()}] through the fourth pass. *)
Lemma P4_bang_call (neg : bool) (name : str) (q : bool) :
  name <> [] -> Forall (fun c => isword c = true) name ->
  rw P4 R4 (TFrag (bang_text neg ++ name ++ "()") q)
  = TFrag (bang_text neg ++ "this." ++ name ++ "()") q.
Proof.
  intros Hne Hw.
  assert (Hb : nobrace (bang_text neg ++ "this." ++ name ++ "()")).
  { apply nobrace_app; [apply bang_nobrace|].
    apply nobrace_app; [repeat constructor|].
    apply nobrace_app; [apply word_nobrace; exact Hw | repeat constructor]. }
  unfold rw.
  rewrite (match_at_det _ _ det_P4), dmatch_P4, (dmatch_C4_call neg name _ [] Hne Hw),
    dmatch_Q3.
  destruct q; cbn [qtail starts_q Ascii.eqb Bool.eqb tl]; f_equal.
  - rewrite (R4_value _ _ neg name ["?"%char]) by reflexivity.
    apply inner_frag. exact Hb.
  - rewrite (R4_value _ _ neg name []) by reflexivity.
    apply inner_frag. exact Hb.
Qed.

Lemma bang_thisform (neg : bool) (rest : str) :
  thisform (bang_text neg ++ "this." ++ rest).
Proof. destruct neg; [right | left]; eexists; reflexivity. Qed.

(** A call, negated or not, through the six passes. *)
Lemma rw_all_bang_call (neg : bool) (name : str) (q : bool) :
  name <> [] -> Forall (fun c => isword c = true) name ->
  rw_all (TFrag (bang_text neg ++ name ++ "()") q)
  = TFrag (bang_text neg ++ "this." ++ name ++ "()") q.
Proof.
  intros Hne Hw.
  assert (Hb : nobrace (bang_text neg ++ name ++ "()")).
  { apply nobrace_app; [apply bang_nobrace|].
    apply nobrace_app; [apply word_nobrace; exact Hw | repeat constructor]. }
  assert (Hd : ~ In "."%char (bang_text neg ++ name ++ "()")).
  { intros H. apply in_app_or in H. destruct H as [H|H];
      [exact (bang_no_dot neg H)|].
    apply in_app_or in H. destruct H as [H|H]; [exact (word_no_dot name Hw H)|].
    cbn in H. destruct H as [H|[H|[]]]; discriminate. }
  unfold rw_all.
  rewrite (rw_no_dot R1 q dotted_P1 Hb Hd), (rw_no_dot R2 q dotted_P2 Hb Hd),
    (rw_no_dot R3 q dotted_P3 Hb Hd), (P4_bang_call neg name q Hne Hw).
  rewrite (rw_thisform q rule_P5 (bang_thisform neg _)),
    (rw_thisform q rule_P6 (bang_thisform neg _)). reflexivity.
Qed.

Lemma rewrite_all_cons (c : ascii) (s : str) :
  c <> "{"%char -> rewrite_all (c :: s) = c :: rewrite_all s.
Proof.
  intros Hc. destruct (tokens_exist s) as [ts Ht].
  assert (Ht' : Toks (c :: s) (TChr c :: ts)).
  { constructor; [intros E; contradiction | exact Ht]. }
  destruct (rewrite_all_tokens Ht) as [-> _].
  destruct (rewrite_all_tokens Ht') as [-> _].
  cbn [map]. rewrite rw_all_chr. reflexivity.
Qed.

Lemma frag_text (body rest : str) : "{" ++ body ++ "}" ++ rest = frag body ++ rest.
Proof. unfold frag. cbn. rewrite <- !app_assoc. reflexivity. Qed.

(** X14.  A negated call [{!name()}], [name] made of word characters, is
    rewritten to [{!this.name()}] wherever it stands and whether or not a
    [?] follows it; the texts around it are rewritten as they are on
    their own. *)
Theorem negated_call_rewritten (pre name post : str) :
  name <> [] -> Forall (fun c => isword c = true) name ->
  exists pre' post',
    transform_predicates_for_js pre = Ret pre'
    /\ transform_predicates_for_js post = Ret post'
    /\ transform_predicates_for_js (pre ++ "{!" ++ name ++ "()}" ++ post)
       = Ret (pre' ++ "{!this." ++ name ++ "()}" ++ post').
Proof.
  intros Hne Hw. exists (rewrite_all pre), (rewrite_all post).
  rewrite !transform_eq. repeat split. f_equal.
  assert (Hb : nobrace (bang_text true ++ name ++ "()")).
  { apply nobrace_app; [apply bang_nobrace|].
    apply nobrace_app; [apply word_nobrace; exact Hw | repeat constructor]. }
  replace ("{!" ++ name ++ "()}" ++ post)
    with (frag (bang_text true ++ name ++ "()") ++ post)
    by (unfold frag; cbn; rewrite <- !app_assoc; reflexivity).
  rewrite (rewrite_all_fragment pre post Hb), (rw_all_bang_call true name _ Hne Hw).
  cbn [tok_body]. f_equal. unfold frag. cbn. rewrite <- !app_assoc. reflexivity.
Qed.

Lemma negated_call_rewritten_witness :
  exists pre' post',
    transform_predicates_for_js "BRACKETED_COMMENT : '/*' " = Ret pre'
    /\ transform_predicates_for_js "? .*? '*/'" = Ret post'
    /\ transform_predicates_for_js
         ("BRACKETED_COMMENT : '/*' " ++ "{!" ++ "isHint" ++ "()}" ++ "? .*? '*/'")
       = Ret (pre' ++ "{!this." ++ "isHint" ++ "()}" ++ post').
Proof.
  apply (negated_call_rewritten "BRACKETED_COMMENT : '/*' " "isHint" "? .*? '*/'").
  - discriminate.
  - repeat constructor.
Defined.

(** *** Calls in actions: [{name();}] *)

Lemma match_at_none (p : regex) (s : str) :
  det p None = true -> dmatch p s [] = None -> match_at p s = None.
Proof. intros Hd H. rewrite (match_at_det _ _ Hd), H. reflexivity. Qed.

Lemma rw_none (p : regex) (repl : match_obj -> str) (body : str) (q : bool) :
  match_at p (frag body ++ qtail q) = None -> rw p repl (TFrag body q) = TFrag body q.
Proof. intros H. unfold rw. rewrite H. reflexivity. Qed.

(** The fourth pattern stops at the [;]. *)
Lemma P4_action (name : str) (q : bool) :
  name <> [] -> Forall (fun c => isword c = true) name ->
  rw P4 R4 (TFrag (name ++ "();") q) = TFrag (name ++ "();") q.
Proof.
  intros Hne Hw. apply rw_none. apply (match_at_none _ _ det_P4).
  rewrite dmatch_P4, dmatch_C4_split. unfold frag.
  cbn [app]. rewrite <- !app_assoc. cbn [of_string list_ascii_of_string app].
  match goal with
  | |- context [dmatch (seq HEAD4) ("{"%char :: name ++ "("%char :: ?z) _] =>
      pose proof (dmatch_HEAD4 false name "(" z [] Hne Hw eq_refl) as H
  end.
  cbn [bang_text app] in H. rewrite H. reflexivity.
Qed.

Lemma dmatch_P5_action (name t : str) :
  name <> [] -> Forall (fun c => isword c = true) name ->
  dmatch P5 (frag (name ++ "();") ++ t) [] = Some (t, [(1, name)]).
Proof.
  intros Hne Hw. unfold P5, frag. cbn [app]. rewrite <- !app_assoc.
  rewrite (dmatch_cat_some _ _ _ _ _ _ (dmatch_lit "{" _ [])).
  cbn [of_string list_ascii_of_string app].
  rewrite (dmatch_cat_some _ _ _ _ _ _
             (dmatch_name 1 name "(" _ _ Hne Hw eq_refl)).
  reflexivity.
Qed.

Lemma P5_action (name : str) (q : bool) :
  name <> [] -> Forall (fun c => isword c = true) name ->
  rw P5 R5 (TFrag (name ++ "();") q) = TFrag ("this." ++ name ++ "();") q.
Proof.
  intros Hne Hw.
  assert (Hb : nobrace ("this." ++ name ++ "();")).
  { apply nobrace_app; [repeat constructor|].
    apply nobrace_app; [apply word_nobrace; exact Hw | repeat constructor]. }
  unfold rw.
  rewrite (match_at_det _ _ det_P5), (dmatch_P5_action name _ Hne Hw). f_equal.
  replace (R5 _) with (frag ("this." ++ name ++ "();") ++ []).
  - apply inner_frag. exact Hb.
  - unfold R5, group_text, group, frag. cbn [m_groups lookup Nat.eqb or_empty].
    cbn [app of_string list_ascii_of_string]. rewrite <- !app_assoc. reflexivity.
Qed.

Lemma rw_all_action (name : str) (q : bool) :
  name <> [] -> Forall (fun c => isword c = true) name ->
  rw_all (TFrag (name ++ "();") q) = TFrag ("this." ++ name ++ "();") q.
Proof.
  intros Hne Hw.
  assert (Hb : nobrace (name ++ "();")).
  { apply nobrace_app; [apply word_nobrace; exact Hw | repeat constructor]. }
  assert (Hd : ~ In "."%char (name ++ "();")).
  { intros H. apply in_app_or in H. destruct H as [H|H]; [exact (word_no_dot name Hw H)|].
    cbn in H. destruct H as [H|[H|[H|[]]]]; discriminate. }
  unfold rw_all.
  rewrite (rw_no_dot R1 q dotted_P1 Hb Hd), (rw_no_dot R2 q dotted_P2 Hb Hd),
    (rw_no_dot R3 q dotted_P3 Hb Hd), (P4_action name q Hne Hw),
    (P5_action name q Hne Hw).
  assert (Ht : thisform ("this." ++ name ++ "();")) by (left; eexists; reflexivity).
  rewrite (rw_thisform q rule_P6 Ht). reflexivity.
Qed.

(** X15.  A call in an action, [{name();}] with [name] made of word characters,
    is rewritten to [{this.name();}] wherever it stands; the texts around
    it are rewritten as they are on their own. *)
Theorem action_call_rewritten (pre name post : str) :
  name <> [] -> Forall (fun c => isword c = true) name ->
  exists pre' post',
    transform_predicates_for_js pre = Ret pre'
    /\ transform_predicates_for_js post = Ret post'
    /\ transform_predicates_for_js (pre ++ "{" ++ name ++ "();}" ++ post)
       = Ret (pre' ++ "{this." ++ name ++ "();}" ++ post').
Proof.
  intros Hne Hw. exists (rewrite_all pre), (rewrite_all post).
  rewrite !transform_eq. repeat split. f_equal.
  assert (Hb : nobrace (name ++ "();")).
  { apply nobrace_app; [apply word_nobrace; exact Hw | repeat constructor]. }
  replace ("{" ++ name ++ "();}" ++ post) with (frag (name ++ "();") ++ post)
    by (unfold frag; cbn; rewrite <- !app_assoc; reflexivity).
  rewrite (rewrite_all_fragment pre post Hb), (rw_all_action name _ Hne Hw).
  cbn [tok_body]. f_equal. unfold frag. cbn. rewrite <- !app_assoc. reflexivity.
Qed.

Lemma action_call_rewritten_witness :
  exists pre' post',
    transform_predicates_for_js "LT : '<' " = Ret pre'
    /\ transform_predicates_for_js " ;" = Ret post'
    /\ transform_predicates_for_js
         ("LT : '<' " ++ "{" ++ "incComplexTypeLevelCounter" ++ "();}" ++ " ;")
       = Ret (pre' ++ "{this." ++ "incComplexTypeLevelCounter" ++ "();}" ++ post').
Proof.
  apply (action_call_rewritten "LT : '<' " "incComplexTypeLevelCounter" " ;").
  - discriminate.
  - repeat constructor.
Defined.

(** *** Variables in predicates: [{name}?] and [{!name}?] *)

(** The two classes of the sixth pattern, [[a-zA-Z]] and [[a-zA-Z_0-9]]. *)
Definition LETTER : charset := CRanges [("a"%char, "z"%char); ("A"%char, "Z"%char)].
Definition IDENT : charset :=
  CRanges [("a"%char, "z"%char); ("A"%char, "Z"%char);
           ("_"%char, "_"%char); ("0"%char, "9"%char)].

(** A name the sixth pattern takes: a letter, then letters, digits and
    underscores. *)
Definition identifier (name : str) : Prop :=
  match name with
  | c :: w => charset_mem LETTER c = true
              /\ Forall (fun d => charset_mem IDENT d = true) w
  | [] => False
  end.

Definition subset (A B : ascii -> bool) : bool :=
  forallb (fun c => implb (A c) (B c)) all_chars.

Lemma subset_spec A B c : subset A B = true -> A c = true -> B c = true.
Proof.
  unfold subset. rewrite forallb_forall. intros H HA.
  specialize (H c (all_chars_complete c)). rewrite HA in H. exact H.
Qed.

Lemma letter_ident : subset (charset_mem LETTER) (charset_mem IDENT) = true.
Proof. vm_compute. reflexivity. Qed.

Lemma ident_word : subset (charset_mem IDENT) isword = true.
Proof. vm_compute. reflexivity. Qed.

Lemma identifier_word (name : str) :
  identifier name -> name <> [] /\ Forall (fun c => isword c = true) name.
Proof.
  destruct name as [|c w]; [contradiction|]. intros [Hc Hw].
  split; [discriminate|]. constructor.
  - apply (subset_spec _ _ c ident_word), (subset_spec _ _ c letter_ident), Hc.
  - induction Hw as [|d w Hd _ IH]; constructor; [|exact IH].
    apply (subset_spec _ _ d ident_word), Hd.
Qed.

(** The fourth pattern wants a [(] after the name. *)
Lemma P4_variable (neg : bool) (name : str) (q : bool) :
  name <> [] -> Forall (fun c => isword c = true) name ->
  rw P4 R4 (TFrag (bang_text neg ++ name) q) = TFrag (bang_text neg ++ name) q.
Proof.
  intros Hne Hw. apply rw_none. apply (match_at_none _ _ det_P4).
  rewrite dmatch_P4, dmatch_C4_split. unfold frag.
  cbn [app]. rewrite <- !app_assoc. cbn [app].
  rewrite (dmatch_HEAD4 neg name "}" _ [] Hne Hw eq_refl). reflexivity.
Qed.

(** So does the fifth, which has no place for a [!] either. *)
Lemma P5_variable (neg : bool) (name : str) (q : bool) :
  name <> [] -> Forall (fun c => isword c = true) name ->
  rw P5 R5 (TFrag (bang_text neg ++ name) q) = TFrag (bang_text neg ++ name) q.
Proof.
  intros Hne Hw. apply rw_none. apply (match_at_none _ _ det_P5).
  unfold P5, frag. cbn [app]. rewrite <- !app_assoc.
  rewrite (dmatch_cat_some _ _ _ _ _ _ (dmatch_lit "{" _ [])).
  destruct neg; cbn [bang_text app].
  - apply dmatch_cat_none, dmatch_group_none, dmatch_cat_none, dmatch_plus_miss.
    reflexivity.
  - rewrite (dmatch_cat_some _ _ _ _ _ _
               (dmatch_name 1 name "}" _ _ Hne Hw eq_refl)).
    reflexivity.
Qed.

Lemma letter_not_bang (c : ascii) : charset_mem LETTER c = true -> c <> "!"%char.
Proof. intros H ->. discriminate. Qed.

Lemma dmatch_P6_head (neg : bool) (name t : str) :
  identifier name ->
  dmatch (seq [One (CChar "{"); BANG;
               Group 2 (Cat (One LETTER) (Cat (Star IDENT) Eps));
               One (CChar "}")])
         (frag (bang_text neg ++ name) ++ t) []
  = Some (t, [(2, name); (1, bang_text neg)]).
Proof.
  destruct name as [|c w]; [contradiction|]. intros [Hc Hw].
  unfold seq, frag. cbn [fold_right app]. rewrite <- !app_assoc.
  rewrite (dmatch_cat_some _ _ _ _ _ _ (dmatch_lit "{" _ [])).
  cbn [app].
  rewrite (dmatch_cat_some _ _ _ _ _ _
             (dmatch_BANG neg c _ [] (letter_not_bang c Hc))).
  assert (E : dmatch (Group 2 (Cat (One LETTER) (Cat (Star IDENT) Eps)))
                     ((c :: w) ++ "}"%char :: t) [(1, bang_text neg)]
              = Some ("}"%char :: t, [(2, c :: w); (1, bang_text neg)])).
  { apply (@dmatch_group 2 _ (c :: w) ("}"%char :: t)).
    cbn [app]. rewrite (dmatch_cat_some _ _ _ _ _ _ (dmatch_one_hit LETTER c _ _ Hc)).
    rewrite (dmatch_cat_some _ _ _ _ ("}"%char :: t) [(1, bang_text neg)]);
      [reflexivity|].
    apply dmatch_star_run; [exact Hw | reflexivity]. }
  cbn [app] in E |- *. rewrite (dmatch_cat_some _ _ _ _ _ _ E). reflexivity.
Qed.

Lemma dmatch_P6_split (s : str) (g : groups) :
  dmatch P6 s g =
  match dmatch (seq [One (CChar "{"); BANG;
                     Group 2 (Cat (One LETTER) (Cat (Star IDENT) Eps));
                     One (CChar "}")]) s g with
  | Some (s1, g1) => dmatch (seq [Group 3 (Cat (One (CChar "?")) Eps)]) s1 g1
  | None => None
  end.
Proof.
  exact (dmatch_seq_app
           [One (CChar "{"); BANG;
            Group 2 (Cat (One LETTER) (Cat (Star IDENT) Eps)); One (CChar "}")]
           [Group 3 (Cat (One (CChar "?")) Eps)] s g).
Qed.

(** The sixth pass rewrites [{bang name}?] ... *)
Lemma P6_variable (neg : bool) (name : str) :
  identifier name ->
  rw P6 R6 (TFrag (bang_text neg ++ name) true)
  = TFrag (bang_text neg ++ "this." ++ name) true.
Proof.
  intros Hi. destruct (identifier_word name Hi) as [Hne Hw].
  assert (Hb : nobrace (bang_text neg ++ "this." ++ name)).
  { apply nobrace_app; [apply bang_nobrace|].
    apply nobrace_app; [repeat constructor | apply word_nobrace; exact Hw]. }
  unfold rw.
  rewrite (match_at_det _ _ det_P6), dmatch_P6_split, (dmatch_P6_head neg name _ Hi).
  cbn [qtail seq fold_right dmatch charset_mem Ascii.eqb Bool.eqb andb]. f_equal.
  replace (R6 _) with (frag (bang_text neg ++ "this." ++ name) ++ ["?"%char]).
  - apply inner_frag. exact Hb.
  - unfold R6, group_text, group, frag.
    cbn [m_groups lookup Nat.eqb or_empty List.length Nat.sub firstn].
    destruct neg; cbn [bang_text app of_string list_ascii_of_string];
      rewrite <- ?app_assoc; cbn [app]; rewrite <- ?app_assoc; reflexivity.
Qed.

(** ... and leaves [{bang name}] with no [?] after it. *)
Lemma P6_variable_plain (neg : bool) (name : str) :
  identifier name ->
  rw P6 R6 (TFrag (bang_text neg ++ name) false) = TFrag (bang_text neg ++ name) false.
Proof.
  intros Hi. apply rw_none. apply (match_at_none _ _ det_P6).
  rewrite dmatch_P6_split, (dmatch_P6_head neg name _ Hi). reflexivity.
Qed.

Lemma rw_all_variable (neg : bool) (name : str) (q : bool) :
  identifier name ->
  rw_all (TFrag (bang_text neg ++ name) q)
  = TFrag (bang_text neg ++ (if q then "this." ++ name else name)) q.
Proof.
  intros Hi. destruct (identifier_word name Hi) as [Hne Hw].
  assert (Hb : nobrace (bang_text neg ++ name)).
  { apply nobrace_app; [apply bang_nobrace | apply word_nobrace; exact Hw]. }
  assert (Hd : ~ In "."%char (bang_text neg ++ name)).
  { intros H. apply in_app_or in H. destruct H as [H|H];
      [exact (bang_no_dot neg H) | exact (word_no_dot name Hw H)]. }
  unfold rw_all.
  rewrite (rw_no_dot R1 q dotted_P1 Hb Hd), (rw_no_dot R2 q dotted_P2 Hb Hd),
    (rw_no_dot R3 q dotted_P3 Hb Hd), (P4_variable neg name q Hne Hw),
    (P5_variable neg name q Hne Hw).
  destruct q; [apply P6_variable | apply P6_variable_plain]; exact Hi.
Qed.

(** X16.  A variable in a predicate, [{name}?] or [{!name}?] with [name] a
    letter followed by letters, digits and underscores, is rewritten to
    [{this.name}?] or [{!this.name}?] wherever it stands; the texts
    around it are rewritten as they are on their own. *)
Theorem variable_predicate_rewritten (pre name post : str) :
  identifier name ->
  exists pre' post',
    transform_predicates_for_js pre = Ret pre'
    /\ transform_predicates_for_js post = Ret post'
    /\ transform_predicates_for_js (pre ++ "{" ++ name ++ "}?" ++ post)
       = Ret (pre' ++ "{this." ++ name ++ "}?" ++ post')
    /\ transform_predicates_for_js (pre ++ "{!" ++ name ++ "}?" ++ post)
       = Ret (pre' ++ "{!this." ++ name ++ "}?" ++ post').
Proof.
  intros Hi. destruct (identifier_word name Hi) as [Hne Hw].
  exists (rewrite_all pre), (rewrite_all post).
  rewrite !transform_eq. split; [reflexivity|]. split; [reflexivity|].
  assert (Hb : forall neg, nobrace (bang_text neg ++ name)).
  { intros neg. apply nobrace_app; [apply bang_nobrace | apply word_nobrace; exact Hw]. }
  assert (Q : rewrite_all ("?" ++ post) = "?" ++ rewrite_all post).
  { apply rewrite_all_cons. discriminate. }
  split; f_equal.
  - replace ("{" ++ name ++ "}?" ++ post)
      with (frag (bang_text false ++ name) ++ "?" ++ post)
      by (unfold frag; cbn; rewrite <- !app_assoc; reflexivity).
    rewrite (rewrite_all_fragment pre ("?" ++ post) (Hb false)), Q.
    change (starts_q ("?" ++ post)) with true.
    rewrite (rw_all_variable false name true Hi).
    cbn [tok_body bang_text app]. f_equal. unfold frag. cbn.
    rewrite <- !app_assoc. reflexivity.
  - replace ("{!" ++ name ++ "}?" ++ post)
      with (frag (bang_text true ++ name) ++ "?" ++ post)
      by (unfold frag; cbn; rewrite <- !app_assoc; reflexivity).
    rewrite (rewrite_all_fragment pre ("?" ++ post) (Hb true)), Q.
    change (starts_q ("?" ++ post)) with true.
    rewrite (rw_all_variable true name true Hi).
    cbn [tok_body bang_text app]. f_equal. unfold frag. cbn.
    rewrite <- !app_assoc. reflexivity.
Qed.

Lemma variable_predicate_rewritten_witness :
  exists pre' post',
    transform_predicates_for_js "setOperation : " = Ret pre'
    /\ transform_predicates_for_js " INTERSECT" = Ret post'
    /\ transform_predicates_for_js
         ("setOperation : " ++ "{" ++ "legacy_setops_precedence_enabled" ++ "}?"
          ++ " INTERSECT")
       = Ret (pre' ++ "{this." ++ "legacy_setops_precedence_enabled" ++ "}?" ++ post')
    /\ transform_predicates_for_js
         ("setOperation : " ++ "{!" ++ "legacy_setops_precedence_enabled" ++ "}?"
          ++ " INTERSECT")
       = Ret (pre' ++ "{!this." ++ "legacy_setops_precedence_enabled" ++ "}?" ++ post').
Proof.
  apply (variable_predicate_rewritten
           "setOperation : " "legacy_setops_precedence_enabled" " INTERSECT").
  split; [reflexivity | repeat constructor].
Defined.

(** X17.  The [?] is what makes a variable a predicate: [{name}] and [{!name}]
    with no [?] after them are left as they are (a call [{name()}] is
    rewritten either way). *)
Theorem variable_without_question_mark_kept (pre name post : str) :
  identifier name -> starts_q post = false ->
  exists pre' post',
    transform_predicates_for_js pre = Ret pre'
    /\ transform_predicates_for_js post = Ret post'
    /\ transform_predicates_for_js (pre ++ "{" ++ name ++ "}" ++ post)
       = Ret (pre' ++ "{" ++ name ++ "}" ++ post')
    /\ transform_predicates_for_js (pre ++ "{!" ++ name ++ "}" ++ post)
       = Ret (pre' ++ "{!" ++ name ++ "}" ++ post').
Proof.
  intros Hi Hq. destruct (identifier_word name Hi) as [Hne Hw].
  exists (rewrite_all pre), (rewrite_all post).
  rewrite !transform_eq. split; [reflexivity|]. split; [reflexivity|].
  assert (Hb : forall neg, nobrace (bang_text neg ++ name)).
  { intros neg. apply nobrace_app; [apply bang_nobrace | apply word_nobrace; exact Hw]. }
  split; f_equal.
  - replace ("{" ++ name ++ "}" ++ post) with (frag (bang_text false ++ name) ++ post)
      by (unfold frag; cbn; rewrite <- !app_assoc; reflexivity).
    rewrite (rewrite_all_fragment pre post (Hb false)), Hq.
    rewrite (rw_all_variable false name false Hi).
    cbn [tok_body bang_text app]. f_equal. unfold frag. cbn.
    rewrite <- !app_assoc. reflexivity.
  - replace ("{!" ++ name ++ "}" ++ post) with (frag (bang_text true ++ name) ++ post)
      by (unfold frag; cbn; rewrite <- !app_assoc; reflexivity).
    rewrite (rewrite_all_fragment pre post (Hb true)), Hq.
    rewrite (rw_all_variable true name false Hi).
    cbn [tok_body bang_text app]. f_equal. unfold frag. cbn.
    rewrite <- !app_assoc. reflexivity.
Qed.

Lemma variable_without_question_mark_kept_witness :
  exists pre' post',
    transform_predicates_for_js "a : " = Ret pre'
    /\ transform_predicates_for_js " b" = Ret post'
    /\ transform_predicates_for_js ("a : " ++ "{" ++ "ansi" ++ "}" ++ " b")
       = Ret (pre' ++ "{" ++ "ansi" ++ "}" ++ post')
    /\ transform_predicates_for_js ("a : " ++ "{!" ++ "ansi" ++ "}" ++ " b")
       = Ret (pre' ++ "{!" ++ "ansi" ++ "}" ++ post').
Proof.
  apply (variable_without_question_mark_kept "a : " "ansi" " b").
  - split; [reflexivity | repeat constructor].
  - reflexivity.
Defined.

(** *** The two other dollar-tag idioms *)

(** X18.  The pop action [{tags.pop();}], or [{tags.pop()}], becomes
    [{this.popDollarTag();}] and the tag test
    [{getText().equals(tags.peek())}?] becomes [{this.matchesDollarTag()}?],
    wherever they stand; the texts around them are rewritten as they are
    on their own.  The tag test is a predicate only with its [?]: with no
    [?] after it, it is left as it is. *)
Theorem dollar_tag_idioms_rewritten (pre post : str) :
  exists pre' post',
    transform_predicates_for_js pre = Ret pre'
    /\ transform_predicates_for_js post = Ret post'
    /\ transform_predicates_for_js (pre ++ "{tags.pop();}" ++ post)
       = Ret (pre' ++ "{this.popDollarTag();}" ++ post')
    /\ transform_predicates_for_js (pre ++ "{tags.pop()}" ++ post)
       = Ret (pre' ++ "{this.popDollarTag();}" ++ post')
    /\ transform_predicates_for_js (pre ++ "{getText().equals(tags.peek())}?" ++ post)
       = Ret (pre' ++ "{this.matchesDollarTag()}?" ++ post')
    /\ (starts_q post = false ->
        transform_predicates_for_js (pre ++ "{getText().equals(tags.peek())}" ++ post)
        = Ret (pre' ++ "{getText().equals(tags.peek())}" ++ post')).
Proof.
  exists (rewrite_all pre), (rewrite_all post).
  rewrite !transform_eq. split; [reflexivity|]. split; [reflexivity|].
  assert (Q : rewrite_all ("?" ++ post) = "?" ++ rewrite_all post).
  { apply rewrite_all_cons. discriminate. }
  split; [|split; [|split]]; [| | |intros Hq]; f_equal.
  - change (of_string "{tags.pop();}" ++ post) with (frag "tags.pop();" ++ post).
    rewrite rewrite_all_fragment by nobrace_tac.
    destruct (starts_q post); reflexivity.
  - change (of_string "{tags.pop()}" ++ post) with (frag "tags.pop()" ++ post).
    rewrite rewrite_all_fragment by nobrace_tac.
    destruct (starts_q post); reflexivity.
  - change (of_string "{getText().equals(tags.peek())}?" ++ post)
      with (frag "getText().equals(tags.peek())" ++ "?" ++ post).
    rewrite rewrite_all_fragment by nobrace_tac. rewrite Q. reflexivity.
  - change (of_string "{getText().equals(tags.peek())}" ++ post)
      with (frag "getText().equals(tags.peek())" ++ post).
    rewrite rewrite_all_fragment by nobrace_tac. rewrite Hq. reflexivity.
Qed.

(** *** Braces *)

Definition count (c : ascii) (s : str) : nat := count_occ ascii_dec s c.

Lemma count_app c (a b : str) : count c (a ++ b) = count c a + count c b.
Proof. apply count_occ_app. Qed.

Lemma count_nobrace c (b : str) : brace c = true -> nobrace b -> count c b = 0.
Proof.
  intros Hc Hb. unfold count. apply count_occ_not_In. intros Hin.
  unfold nobrace in Hb. rewrite Forall_forall in Hb.
  rewrite (Hb c Hin) in Hc. discriminate.
Qed.

Lemma count_untok c (b b' : str) (q : bool) :
  brace c = true -> nobrace b -> nobrace b' ->
  count c (untok (TFrag b' q)) = count c (untok (TFrag b q)).
Proof.
  intros Hc Hb Hb'. cbn [untok]. unfold frag.
  change ("{"%char :: ?x ++ ["}"%char]) with (["{"%char] ++ x ++ ["}"%char]).
  rewrite !count_app, (count_nobrace c b Hc Hb), (count_nobrace c b' Hc Hb').
  reflexivity.
Qed.

Lemma count_rw_all c (s : str) (ts : list token) :
  brace c = true -> Toks s ts ->
  count c (untoks (map rw_all ts)) = count c (untoks ts).
Proof.
  intros Hc H. induction H as [|d s ts Hd H IH|body q s ts Hb Hq H IH].
  - reflexivity.
  - cbn [map]. rewrite rw_all_chr.
    change (untoks (TChr d :: ?l)) with ([d] ++ untoks l).
    rewrite !count_app, IH. reflexivity.
  - cbn [map]. destruct (rw_all_shape (TFrag body q)) as (b' & Hb' & E).
    rewrite E.
    change (untoks (?t :: ?l)) with (untok t ++ untoks l).
    rewrite !count_app, IH, (count_untok c body b' q Hc Hb (Hb' Hb)). reflexivity.
Qed.

(** X19.  The Call Rewriter keeps the braces: its result has as many [{] and
    as many [}] as the text it is given. *)
Theorem transform_keeps_braces (content : str) :
  exists result,
    transform_predicates_for_js content = Ret result
    /\ count "{" result = count "{" content
    /\ count "}" result = count "}" content.
Proof.
  exists (rewrite_all content). split; [apply transform_eq|].
  destruct (tokens_exist content) as [ts Ht].
  destruct (rewrite_all_tokens Ht) as [E _]. rewrite E.
  pose proof (Toks_untoks Ht) as U.
  split.
  - rewrite <- U at 1. apply (count_rw_all _ content); [reflexivity | exact Ht].
  - rewrite <- U at 1. apply (count_rw_all _ content); [reflexivity | exact Ht].
Qed.

(** ** More on the Block Stripper *)

(** [Subseq a b]: [a] is [b] with some characters left out. *)
Inductive Subseq : str -> str -> Prop :=
| Subseq_nil : Subseq [] []
| Subseq_skip c a b : Subseq a b -> Subseq a (c :: b)
| Subseq_take c a b : Subseq a b -> Subseq (c :: a) (c :: b).

Lemma Subseq_nil_l (b : str) : Subseq [] b.
Proof. induction b; constructor; assumption. Qed.

Lemma Subseq_app_l (pre a b : str) : Subseq a b -> Subseq a (pre ++ b).
Proof. intros H. induction pre; [exact H | constructor; assumption]. Qed.

Lemma Subseq_length (a b : str) : Subseq a b -> List.length a <= List.length b.
Proof. induction 1; simpl; lia. Qed.

Lemma find_close_suffix (n : nat) (s : str) : exists pre, s = pre ++ find_close n s.
Proof.
  revert n. induction s as [|c s IH]; intros [|n]; cbn [find_close];
    try (exists []; reflexivity).
  destruct (Ascii.eqb c "{"); [|destruct (Ascii.eqb c "}")];
    match goal with |- context [find_close ?k s] =>
      destruct (IH k) as [pre E] end;
    exists (c :: pre); cbn [app]; f_equal; exact E.
Qed.

Lemma skip_ws_suffix (s : str) : exists pre, s = pre ++ skip_ws s.
Proof.
  induction s as [|c s [pre E]]; [exists []; reflexivity|].
  cbn [skip_ws]. destruct (is_blank c); [|exists []; reflexivity].
  exists (c :: pre). cbn [app]. f_equal. exact E.
Qed.

Lemma after_block_suffix (n : nat) (s : str) : exists pre, s = pre ++ after_block n s.
Proof.
  unfold after_block.
  destruct (skip_ws_suffix (find_close 1 (skipn n s))) as [p1 E1].
  destruct (find_close_suffix 1 (skipn n s)) as [p2 E2].
  exists (firstn n s ++ p2 ++ p1).
  rewrite <- !app_assoc, <- E1, <- E2. symmetry. apply firstn_skipn.
Qed.

Lemma remove_loop_subseq (pattern : str) :
  forall s out, remove_loop pattern s = Ret out -> Subseq out s.
Proof.
  intros s. remember (List.length s) as n eqn:Hn. revert s Hn.
  induction n as [n IH] using lt_wf_ind. intros s Hn out H.
  destruct s as [|c s].
  - rewrite remove_loop_equation_1 in H. injection H as <-. constructor.
  - rewrite remove_loop_cons in H.
    destruct (re_match pattern (c :: s)) as [[mo|]|e|]; try discriminate.
    + destruct (after_block_suffix (m_end mo) (c :: s)) as [pre E].
      rewrite E at 1. apply Subseq_app_l.
      apply (IH (List.length (after_block (m_end mo) (c :: s))));
        [subst n; apply after_block_length | reflexivity | exact H].
    + destruct (remove_loop pattern s) as [rest| |] eqn:R; try discriminate.
      cbn [bind] in H. injection H as <-. apply Subseq_take.
      apply (IH (List.length s)); [subst n; simpl; lia | reflexivity | exact R].
Qed.

(** X20.  The Block Stripper only leaves characters out.  For every text and
    every tag made of characters that stand for themselves in a pattern,
    as [header] and [members] are, it returns a text, and that text is its
    input with some characters removed, the others in their order; so the
    result is never longer than the input. *)
Theorem remove_block_subsequence (content block_name : str) :
  Forall (fun c => literal_char c = true) block_name ->
  exists out,
    remove_block content block_name = Ret out
    /\ Subseq out content /\ List.length out <= List.length content.
Proof.
  intros Ht. destruct (remove_loop_total Ht content) as [out H].
  exists out. split; [exact H|].
  apply remove_loop_subseq in H. split; [exact H|].
  apply Subseq_length. exact H.
Qed.

Lemma remove_block_subsequence_witness :
  exists out,
    remove_block "grammar G;
@header { import a.{b}; }
r : 'a';" "header" = Ret out
    /\ Subseq out "grammar G;
@header { import a.{b}; }
r : 'a';"
    /\ List.length out <= List.length (of_string "grammar G;
@header { import a.{b}; }
r : 'a';").
Proof.
  apply (remove_block_subsequence "grammar G;
@header { import a.{b}; }
r : 'a';" "header"). repeat constructor.
Defined.

Lemma block_regex_head (tag : str) (c : ascii) (s : str) :
  c <> "@"%char -> match_at (block_regex tag) (c :: s) = None.
Proof.
  intros Hc. unfold match_at, block_regex, seq, lit. cbn [fold_right matcher charset_mem].
  apply Ascii.eqb_neq in Hc. rewrite Hc. reflexivity.
Qed.

(** X21.  A text without [@] has no region: the Block Stripper returns it
    unchanged, whatever the tag (made of characters that stand for
    themselves in a pattern). *)
Theorem remove_block_without_at (content block_name : str) :
  Forall (fun c => literal_char c = true) block_name ->
  ~ In "@"%char content ->
  remove_block content block_name = Ret content.
Proof.
  intros Ht Hat. unfold remove_block.
  rewrite <- (app_nil_r content) at 1.
  rewrite remove_loop_copy;
    [rewrite remove_loop_equation_1; cbn [bind]; rewrite app_nil_r; reflexivity
    | exact Ht |].
  intros i Hi. rewrite app_nil_r, (@re_match_block block_name _ Ht). f_equal.
  destruct (skipn i content) as [|c s] eqn:E.
  - apply (f_equal (@List.length ascii)) in E. rewrite length_skipn in E.
    simpl in E. lia.
  - apply block_regex_head. intros ->. apply Hat.
    rewrite <- (firstn_skipn i content), E. apply in_or_app. right. left. reflexivity.
Qed.

Lemma remove_block_without_at_witness :
  remove_block "parser grammar P; r : {x}? A ;" "members"
  = Ret (of_string "parser grammar P; r : {x}? A ;").
Proof.
  apply (remove_block_without_at "parser grammar P; r : {x}? A ;" "members").
  - repeat constructor.
  - vm_compute. intros H.
    repeat (destruct H as [H|H]; [discriminate H|]). exact H.
Defined.

(** *** Regions of any tag *)

(** What was shown for the tag [members] holds for every tag made of
    characters that stand for themselves in a pattern, [@] apart; the
    pipeline uses it with [header] too. *)

Definition TAIL : list regex := [Star CSpace; lit "{"].

Lemma block_regex_seq (tag : str) :
  block_regex tag = seq (map lit ("@"%char :: tag) ++ TAIL).
Proof. reflexivity. Qed.

Lemma det_block_regex (tag : str) : det (block_regex tag) None = true.
Proof. rewrite block_regex_seq, det_lits. vm_compute. reflexivity. Qed.

(** The opening of a region with the tag [tag]. *)
Definition opening (tag ws : str) : str := "@"%char :: tag ++ ws ++ ["{"%char].

Lemma match_opening (tag ws rest : str) :
  Forall (fun c => isspace c = true) ws ->
  match_at (block_regex tag) (opening tag ws ++ rest)
  = Some {| m_end := List.length (opening tag ws); m_groups := [] |}.
Proof.
  intros Hw. rewrite (match_at_det _ _ (det_block_regex tag)), block_regex_seq.
  unfold opening.
  replace (("@"%char :: tag ++ ws ++ ["{"%char]) ++ rest)
    with (("@"%char :: tag) ++ ws ++ "{"%char :: rest)
    by (cbn [app]; rewrite <- !app_assoc; reflexivity).
  rewrite dmatch_lits. unfold TAIL, seq. cbn [fold_right].
  rewrite (dmatch_cat_some _ _ _ _ ("{"%char :: rest) []).
  - unfold lit. rewrite (dmatch_cat_some _ _ _ _ _ _ (dmatch_lit "{" rest [])).
    cbn [dmatch]. f_equal. f_equal.
    change ("@"%char :: tag ++ ws ++ ["{"%char]) with (("@"%char :: tag) ++ ws ++ ["{"%char]).
    rewrite !length_app. cbn [List.length]. lia.
  - apply dmatch_star_run; [exact Hw | reflexivity].
Qed.

Lemma match_opening_shape (tag s : str) (mo : match_obj) :
  match_at (block_regex tag) s = Some mo ->
  exists ws rest,
    Forall (fun c => isspace c = true) ws
    /\ s = opening tag ws ++ rest
    /\ m_end mo = List.length (opening tag ws).
Proof.
  intros H.
  destruct (@match_at_sem _ s mo (det_block_regex tag) H) as (x & s' & -> & Hm & Hsem).
  rewrite block_regex_seq in Hsem.
  destruct (Sem_lits _ _ _ _ Hsem) as (y & gs' & -> & Hy).
  unfold TAIL, seq, lit in Hy. cbn [fold_right] in Hy. inv_sem.
  rewrite ?app_nil_r in *.
  match goal with Hx : Forall _ ?w |- _ => exists w, s'; split; [exact Hx|] end.
  unfold opening. split.
  - cbn [app]. rewrite <- !app_assoc. reflexivity.
  - rewrite Hm. reflexivity.
Qed.

Definition openings_of (tag s : str) : nat := count_matches (block_regex tag) s.

(** A region [@tag ws { body } trail]. *)
Definition region_text_of (tag : str) (r : region) : str :=
  opening tag (r_ws r) ++ r_body r ++ "}"%char :: r_trail r.

Fixpoint assemble_of (tag g0 : str) (rs : list (region * str)) : str :=
  match rs with
  | [] => g0
  | (r, g) :: rs' => g0 ++ region_text_of tag r ++ assemble_of tag g rs'
  end.

Lemma openings_of_zero (tag g : str) :
  openings_of tag g = 0 -> forall i, match_at (block_regex tag) (skipn i g) = None.
Proof.
  unfold openings_of. induction g as [|c g IH]; intros H i.
  - rewrite skipn_nil. reflexivity.
  - cbn [count_matches] in H.
    destruct (match_at (block_regex tag) (c :: g)) eqn:E; [discriminate|].
    destruct i as [|i]; [exact E|]. cbn [skipn]. apply IH. exact H.
Qed.

Lemma opening_no_at (tag ws : str) :
  ~ In "@"%char tag -> Forall (fun c => isspace c = true) ws ->
  ~ In "@"%char (tag ++ ws ++ ["{"%char]).
Proof.
  intros Ht Hws Hin. apply in_app_or in Hin. destruct Hin as [Hin|Hin]; [auto|].
  apply in_app_or in Hin. destruct Hin as [Hin|Hin].
  - rewrite Forall_forall in Hws. specialize (Hws _ Hin). discriminate.
  - cbn in Hin. destruct Hin as [Hin|[]]. discriminate.
Qed.

(** In a text without an opening, followed by nothing or by an [@], no
    opening begins. *)
Lemma gap_no_opening (tag g rest : str) :
  ~ In "@"%char tag ->
  openings_of tag g = 0 ->
  (rest = [] \/ exists rest', rest = "@"%char :: rest') ->
  forall i, i < List.length g ->
            match_at (block_regex tag) (skipn i (g ++ rest)) = None.
Proof.
  intros Hat Hg Hrest i Hi.
  pose proof (openings_of_zero tag g Hg i) as Hu.
  rewrite skipn_app. replace (i - List.length g) with 0 by lia. cbn [skipn].
  assert (Hne : skipn i g <> []).
  { intros E. apply (f_equal (@List.length ascii)) in E.
    rewrite length_skipn in E. simpl in E. lia. }
  set (u := skipn i g) in *. clearbody u.
  destruct (match_at (block_regex tag) (u ++ rest)) as [mo|] eqn:E; [|reflexivity].
  exfalso. destruct (match_opening_shape _ _ _ E) as (ws & rest0 & Hws & Ex & _).
  unfold opening in Ex. cbn [app] in Ex.
  destruct u as [|d u]; [contradiction|]. cbn [app] in Ex.
  injection Ex as -> Ex.
  apply app_eq_app in Ex. destruct Ex as (l & [[E1 E2]|[E1 E2]]).
  - subst u.
    change ("@"%char :: (tag ++ ws ++ ["{"%char]) ++ l)
      with (opening tag ws ++ l) in Hu.
    rewrite (match_opening tag ws l Hws) in Hu. discriminate.
  - destruct l as [|c l].
    + rewrite app_nil_r in E1. subst u.
      change ("@"%char :: tag ++ ws ++ ["{"%char]) with (opening tag ws) in Hu.
      rewrite <- (app_nil_r (opening tag ws)) in Hu.
      rewrite (match_opening tag ws [] Hws) in Hu. discriminate.
    + destruct Hrest as [->|(rest' & ->)]; [discriminate|].
      injection E2 as <- _.
      apply (opening_no_at tag ws Hat Hws). rewrite E1.
      apply in_or_app. right. left. reflexivity.
Qed.

Lemma assemble_of_head (tag g0 : str) (rs : list (region * str)) :
  exists rest, assemble_of tag g0 rs = g0 ++ rest
               /\ (rest = [] \/ exists rest', rest = "@"%char :: rest').
Proof.
  destruct rs as [|[r g] rs]; cbn [assemble_of].
  - exists []. rewrite app_nil_r. auto.
  - eexists. split; [reflexivity|]. right. eexists. reflexivity.
Qed.

Lemma remove_tagged_region (tag : str) (r : region) (g : str)
    (rs : list (region * str)) :
  Forall (fun c => literal_char c = true) tag ->
  region_ok r -> starts_blank g = false ->
  remove_loop (block_pattern tag) (region_text_of tag r ++ assemble_of tag g rs)
  = remove_loop (block_pattern tag) (assemble_of tag g rs).
Proof.
  intros Ht (Hws & Hb & Htr) Hg.
  set (rest := assemble_of tag g rs).
  assert (E : region_text_of tag r ++ rest
              = opening tag (r_ws r)
                ++ (r_body r ++ "}"%char :: r_trail r ++ rest)).
  { unfold region_text_of. rewrite <- !app_assoc. reflexivity. }
  rewrite E.
  pose proof (match_opening tag (r_ws r)
                (r_body r ++ "}"%char :: r_trail r ++ rest) Hws) as M.
  assert (L : remove_loop (block_pattern tag)
                (opening tag (r_ws r) ++ r_body r ++ "}"%char :: r_trail r ++ rest)
              = remove_loop (block_pattern tag)
                  (after_block (List.length (opening tag (r_ws r)))
                     (opening tag (r_ws r)
                      ++ r_body r ++ "}"%char :: r_trail r ++ rest))).
  { unfold opening at 1. cbn [app].
    rewrite remove_loop_cons, (@re_match_block tag _ Ht).
    change ("@"%char :: (tag ++ r_ws r ++ ["{"%char]) ++ ?z)
      with (opening tag (r_ws r) ++ z).
    rewrite M. reflexivity. }
  rewrite L. unfold after_block.
  rewrite skipn_app, Nat.sub_diag, skipn_all. cbn [skipn app].
  rewrite (find_close_balanced _ 0 _ Hb).
  assert (Hs : starts_blank rest = false).
  { unfold rest. destruct rs as [|[r' g'] rs]; cbn [assemble_of]; [exact Hg|].
    destruct g; [|exact Hg]. reflexivity. }
  rewrite (skip_ws_trail _ Htr Hs). reflexivity.
Qed.

Lemma remove_loop_tagged_regions (tag : str) (rs : list (region * str)) :
  Forall (fun c => literal_char c = true) tag ->
  ~ In "@"%char tag ->
  forall g0,
  openings_of tag g0 = 0 ->
  Forall (fun rg => region_ok (fst rg) /\ starts_blank (snd rg) = false
                    /\ openings_of tag (snd rg) = 0) rs ->
  remove_loop (block_pattern tag) (assemble_of tag g0 rs) = Ret (kept g0 rs).
Proof.
  intros Ht Hat. induction rs as [|[r g] rs IH]; intros g0 H0 Hrs.
  - cbn [assemble_of kept]. rewrite <- (app_nil_r g0) at 1.
    rewrite remove_loop_copy; [|exact Ht|].
    + rewrite remove_loop_equation_1. cbn [bind]. rewrite app_nil_r. reflexivity.
    + intros i Hi. rewrite (@re_match_block tag _ Ht). f_equal.
      apply gap_no_opening; auto.
  - inversion Hrs as [|? ? (Hr & Hg & Hog) Hrs']; subst. cbn [fst snd] in *.
    cbn [assemble_of kept].
    rewrite remove_loop_copy; [|exact Ht|].
    + rewrite (remove_tagged_region tag r g rs Ht Hr Hg), (IH g Hog Hrs').
      reflexivity.
    + intros i Hi. rewrite (@re_match_block tag _ Ht). f_equal.
      apply gap_no_opening; auto. right. eexists. reflexivity.
Qed.

(** X22.  For every tag made of characters that stand for themselves in a
    pattern, [@] apart (so for [header] as for [members]): a text made of
    regions [@tag ws { body } trail] (whitespace [ws], balanced braces in
    [body], all the blanks that follow in [trail]) and of the texts
    before, between and after them, none of which has an opening
    [@tag\s*\{] in it, loses exactly the regions: the Block Stripper
    returns the other texts in their order. *)
Theorem remove_block_strips_tagged_regions (tag g0 : str)
    (rs : list (region * str)) :
  Forall (fun c => literal_char c = true) tag ->
  ~ In "@"%char tag ->
  openings_of tag g0 = 0 ->
  Forall (fun rg => region_ok (fst rg) /\ starts_blank (snd rg) = false
                    /\ openings_of tag (snd rg) = 0) rs ->
  remove_block (assemble_of tag g0 rs) tag = Ret (g0 ++ flat_map snd rs).
Proof.
  intros Ht Hat H0 Hrs. unfold remove_block.
  rewrite (remove_loop_tagged_regions tag rs Ht Hat g0 H0 Hrs). f_equal.
  clear. revert g0. induction rs as [|[r g] rs IH]; intros g0; cbn.
  - rewrite app_nil_r. reflexivity.
  - rewrite IH. reflexivity.
Qed.

Definition header_region : region :=
  {| r_ws := " ";
     r_body := "
  import java.util.*;
  class T { int x; }
";
     r_trail := "

" |}.

Lemma remove_block_strips_tagged_regions_witness :
  remove_block
    (assemble_of "header" "grammar G;
" [(header_region, of_string "r : 'a';
")]) "header"
  = Ret ("grammar G;
" ++ flat_map snd [(header_region, of_string "r : 'a';
")]).
Proof.
  apply (remove_block_strips_tagged_regions "header").
  - repeat constructor.
  - intros H. cbn in H. repeat (destruct H as [H|H]; [discriminate H|]). exact H.
  - vm_compute. reflexivity.
  - constructor; [|constructor]. split; [|split].
    + split; [repeat constructor|]. split; [reflexivity | repeat constructor].
    + reflexivity.
    + vm_compute. reflexivity.
Defined.

(** * Names in snake case *)

(** [to_snake_case] (lines 63-66) is the one function of the script that
    the stages do not call.  Its first pattern has a dot, which the
    pattern language of [re_compile] leaves out; that pattern is given
    compiled, the dot as the class of all characters but the line feed.
    The replacement template [\1_\2] is the function that puts an
    underscore between the two groups. *)

(** [c.lower()] on the code points U+0000 to U+00FF: the ASCII capitals
    and the capitals of the Latin-1 supplement move up by 32.  On a text
    of these characters [str.lower] works character by character, which
    is how [lower] is defined; on other texts it does not (a capital sigma
    becomes one or the other small sigma by its place in the word), and
    names with other characters are outside the model. *)
Definition lower_char (c : ascii) : ascii :=
  if between 65 90 c || between 192 214 c || between 216 222 c
  then ascii_of_nat (ord c + 32) else c.

Definition lower (s : str) : str := map lower_char s.

Definition DOT : charset := CRanges [("000"%char, "009"%char); ("011"%char, "255"%char)].
Definition UPPER : charset := CRanges [("A"%char, "Z"%char)].
Definition LOWER : charset := CRanges [("a"%char, "z"%char)].
Definition LOWER_DIGIT : charset := CRanges [("a"%char, "z"%char); ("0"%char, "9"%char)].

(** [(.)([A-Z][a-z]+)] *)
Definition SNAKE1 : regex :=
  Cat (Group 1 (Cat (One DOT) Eps))
      (Cat (Group 2 (Cat (One UPPER) (Cat (Plus LOWER) Eps))) Eps).

(** [r'\1_\2'] *)
Definition underscore_between (m : match_obj) : str :=
  group_text m 1 ++ "_" ++ group_text m 2.

Definition to_snake_case (name : str) : outcome str :=
  let s1 := sub_compiled SNAKE1 underscore_between name in
  s2 <- re_sub "([a-z0-9])([A-Z])" underscore_between s1 ;;
  Ret (lower s2).

(** The first pattern with a letter in the place of the dot is parsed to
    the same shape. *)
Lemma SNAKE1_shape :
  re_compile "(x)([A-Z][a-z]+)"
  = Compiled (Cat (Group 1 (Cat (One (CChar "x")) Eps))
                  (Cat (Group 2 (Cat (One UPPER) (Cat (Plus LOWER) Eps))) Eps)).
Proof. vm_compute. reflexivity. Qed.

Definition SNAKE2 : regex := Eval vm_compute in pattern_of "([a-z0-9])([A-Z])".

Lemma compile_SNAKE2 : re_compile "([a-z0-9])([A-Z])" = Compiled SNAKE2.
Proof. vm_compute. reflexivity. Qed.

Lemma to_snake_case_eq (name : str) :
  to_snake_case name
  = Ret (lower (sub_compiled SNAKE2 underscore_between
                  (sub_compiled SNAKE1 underscore_between name))).
Proof.
  unfold to_snake_case, re_sub, with_pattern. rewrite compile_SNAKE2. reflexivity.
Qed.

Lemma det_SNAKE1 : det SNAKE1 None = true. Proof. vm_compute. reflexivity. Qed.
Lemma det_SNAKE2 : det SNAKE2 None = true. Proof. vm_compute. reflexivity. Qed.

(** *** Texts without capitals *)

Lemma sub_no_match (r : regex) (repl : match_obj -> str) (s : str) :
  (forall i, match_at r (skipn i s) = None) -> sub_compiled r repl s = s.
Proof.
  unfold sub_compiled. induction s as [|c s IH]; intros H.
  - pose proof (H 0) as H0. cbn [skipn] in H0. cbn [scan]. rewrite H0. reflexivity.
  - pose proof (H 0) as H0. cbn [skipn] in H0. cbn [scan]. rewrite H0.
    cbn [flat_map piece_text app]. f_equal.
    apply IH. intros i. exact (H (S i)).
Qed.

Definition no_capital (s : str) : Prop :=
  Forall (fun c => charset_mem UPPER c = false) s.

Lemma no_capital_skipn (i : nat) (s : str) : no_capital s -> no_capital (skipn i s).
Proof.
  intros H. unfold no_capital in *. rewrite Forall_forall in *.
  intros c Hc. apply H. rewrite <- (firstn_skipn i s). apply in_or_app. right. exact Hc.
Qed.

(** Both patterns want a capital as the second character of a match. *)
Definition second_not_capital (s : str) : Prop :=
  match s with
  | _ :: d :: _ => charset_mem UPPER d = false
  | _ => True
  end.

Lemma SNAKE1_second (s : str) : second_not_capital s -> match_at SNAKE1 s = None.
Proof.
  intros H. apply (match_at_none _ _ det_SNAKE1).
  destruct s as [|c [|d s]]; [reflexivity | |].
  - unfold SNAKE1. cbn [dmatch]. destruct (charset_mem DOT c); reflexivity.
  - cbn [second_not_capital] in H.
    unfold SNAKE1. cbn [dmatch]. destruct (charset_mem DOT c); [|reflexivity].
    rewrite H. reflexivity.
Qed.

Lemma SNAKE2_second (s : str) : second_not_capital s -> match_at SNAKE2 s = None.
Proof.
  intros H. apply (match_at_none _ _ det_SNAKE2).
  destruct s as [|c [|d s]]; [reflexivity | |].
  - unfold SNAKE2. cbn [dmatch]. destruct (charset_mem _ c); reflexivity.
  - cbn [second_not_capital] in H.
    change (charset_mem (CRanges [("A"%char, "Z"%char)]) d = false) in H.
    unfold SNAKE2. cbn [dmatch]. destruct (charset_mem _ c); [|reflexivity].
    rewrite H. reflexivity.
Qed.

Lemma no_capital_second (s : str) : no_capital s -> second_not_capital s.
Proof.
  intros H. destruct s as [|c [|d s]]; cbn; auto.
  inversion H as [|? ? _ H']; subst. inversion H'; subst. assumption.
Qed.

Lemma SNAKE1_needs_capital (s : str) : no_capital s -> match_at SNAKE1 s = None.
Proof. intros H. apply SNAKE1_second, no_capital_second, H. Qed.

Lemma SNAKE2_needs_capital (s : str) : no_capital s -> match_at SNAKE2 s = None.
Proof. intros H. apply SNAKE2_second, no_capital_second, H. Qed.

Definition fixed_by_lower (c : ascii) : bool := Ascii.eqb (lower_char c) c.

Lemma capital_not_fixed :
  forallb (fun c => implb (charset_mem UPPER c) (negb (fixed_by_lower c))) all_chars
  = true.
Proof. vm_compute. reflexivity. Qed.


Lemma fixed_no_capital (s : str) :
  Forall (fun c => lower_char c = c) s -> no_capital s.
Proof.
  intros H. unfold no_capital. induction H as [|c s Hc _ IH]; constructor; [|exact IH].
  pose proof capital_not_fixed as F. rewrite forallb_forall in F.
  specialize (F c (all_chars_complete c)).
  destruct (charset_mem UPPER c); [|reflexivity].
  cbn [implb] in F. unfold fixed_by_lower in F. rewrite Hc, Ascii.eqb_refl in F.
  discriminate.
Qed.


Lemma lower_id (s : str) : Forall (fun c => lower_char c = c) s -> lower s = s.
Proof.
  intros H. unfold lower. induction H as [|c s Hc _ IH]; [reflexivity|].
  cbn [map]. rewrite Hc, IH. reflexivity.
Qed.

Lemma to_snake_case_fixed (name : str) :
  Forall (fun c => lower_char c = c) name -> to_snake_case name = Ret name.
Proof.
  intros H. pose proof (fixed_no_capital name H) as N.
  rewrite to_snake_case_eq.
  rewrite (sub_no_match SNAKE1);
    [|intros i; apply SNAKE1_needs_capital, no_capital_skipn, N].
  rewrite (sub_no_match SNAKE2);
    [|intros i; apply SNAKE2_needs_capital, no_capital_skipn, N].
  rewrite (lower_id name H). reflexivity.
Qed.

(** X23.  A name without capital letters, such as a name that is in snake case
    already, is returned as it is. *)
Theorem to_snake_case_keeps_lower_case (name : str) :
  Forall (fun c => lower_char c = c) name -> to_snake_case name = Ret name.
Proof. exact (to_snake_case_fixed name). Qed.

Lemma to_snake_case_keeps_lower_case_witness :
  to_snake_case "is_valid_decimal" = Ret (of_string "is_valid_decimal").
Proof.
  apply (to_snake_case_keeps_lower_case "is_valid_decimal"). repeat constructor.
Defined.


(** *** Names in camel case *)

Lemma sub_nil (r : regex) (repl : match_obj -> str) :
  match_at r [] = None -> sub_compiled r repl [] = [].
Proof. intros H. unfold sub_compiled. cbn [scan]. rewrite H. reflexivity. Qed.

Lemma sub_cons_none (r : regex) (repl : match_obj -> str) (c : ascii) (s : str) :
  match_at r (c :: s) = None ->
  sub_compiled r repl (c :: s) = c :: sub_compiled r repl s.
Proof. intros H. unfold sub_compiled. cbn [scan]. rewrite H. reflexivity. Qed.

Lemma sub_hit (r : regex) (repl : match_obj -> str) (m rest : str) (mo : match_obj) :
  m <> [] -> match_at r (m ++ rest) = Some mo -> m_end mo = List.length m ->
  sub_compiled r repl (m ++ rest) = repl mo ++ sub_compiled r repl rest.
Proof.
  intros Hne H He. destruct m as [|c m]; [contradiction|].
  unfold sub_compiled. cbn [app scan]. cbn [app] in H. rewrite H, He.
  cbn [List.length flat_map piece_text]. rewrite scan_skip. reflexivity.
Qed.

(** Up to the last character of a text with no capital after its first
    character, a pattern that wants a capital second copies. *)
Lemma sub_copy_run (r : regex) (repl : match_obj -> str) :
  (forall s, second_not_capital s -> match_at r s = None) ->
  forall (p0 : str) (e : ascii) (rest : str),
    no_capital (tl (p0 ++ [e])) ->
    sub_compiled r repl (p0 ++ e :: rest) = p0 ++ sub_compiled r repl (e :: rest).
Proof.
  intros Hr p0. induction p0 as [|c p0 IH]; intros e rest H; [reflexivity|].
  cbn [app tl] in H. cbn [app].
  rewrite sub_cons_none.
  - f_equal. apply IH. destruct p0; [constructor|].
    cbn [app tl] in *. inversion H; assumption.
  - apply Hr. destruct p0 as [|d p0]; cbn [app second_not_capital] in *;
      inversion H; assumption.
Qed.

Lemma sub_last (r : regex) (repl : match_obj -> str) (e : ascii) :
  (forall s, second_not_capital s -> match_at r s = None) ->
  sub_compiled r repl [e] = [e].
Proof.
  intros Hr. rewrite sub_cons_none by (apply Hr; exact I).
  rewrite sub_nil by (apply Hr; exact I). reflexivity.
Qed.

(** A word of a camel-case name: a capital and the small letters after
    it, of which there is one at least. *)
Definition word : Type := (ascii * str)%type.

Definition word_text (w : word) : str := fst w :: snd w.

Definition word_ok (w : word) : Prop :=
  charset_mem UPPER (fst w) = true
  /\ snd w <> []
  /\ Forall (fun c => charset_mem LOWER c = true) (snd w).

Definition camel (ws : list word) : str := flat_map word_text ws.

Lemma upper_not_lower : disjoint (charset_mem UPPER) (charset_mem LOWER) = true.
Proof. vm_compute. reflexivity. Qed.

Lemma lower_not_upper : disjoint (charset_mem LOWER) (charset_mem UPPER) = true.
Proof. vm_compute. reflexivity. Qed.

Lemma upper_not_lower_digit :
  disjoint (charset_mem UPPER) (charset_mem LOWER_DIGIT) = true.
Proof. vm_compute. reflexivity. Qed.

Lemma lower_digit_not_upper :
  disjoint (charset_mem LOWER_DIGIT) (charset_mem UPPER) = true.
Proof. vm_compute. reflexivity. Qed.

Lemma lower_is_lower_digit :
  subset (charset_mem LOWER) (charset_mem LOWER_DIGIT) = true.
Proof. vm_compute. reflexivity. Qed.

Lemma lower_digit_is_dot : subset (charset_mem LOWER_DIGIT) (charset_mem DOT) = true.
Proof. vm_compute. reflexivity. Qed.

Lemma camel_stop (ws : list word) :
  Forall word_ok ws -> drop_while LOWER (camel ws) = camel ws.
Proof.
  intros H. destruct H as [|[u ls] ws (Hu & _) _]; [reflexivity|].
  cbn [camel flat_map word_text fst snd app drop_while].
  rewrite (disjoint_spec _ _ u upper_not_lower Hu). reflexivity.
Qed.

Lemma length_consumed (x rest : str) :
  List.length (x ++ rest) - List.length rest = List.length x.
Proof. rewrite length_app. lia. Qed.

(** The first pattern on the last character before a word. *)
Lemma SNAKE1_hit (e u : ascii) (ls rest : str) :
  charset_mem DOT e = true -> charset_mem UPPER u = true ->
  ls <> [] -> Forall (fun c => charset_mem LOWER c = true) ls ->
  drop_while LOWER rest = rest ->
  match_at SNAKE1 ((e :: u :: ls) ++ rest)
  = Some {| m_end := List.length (e :: u :: ls);
            m_groups := [(2, u :: ls); (1, [e])] |}.
Proof.
  intros He Hu Hne Hls Hrest.
  rewrite (match_at_det _ _ det_SNAKE1).
  assert (E : dmatch SNAKE1 ((e :: u :: ls) ++ rest) []
              = Some (rest, [(2, u :: ls); (1, [e])])).
  { unfold SNAKE1.
    rewrite (dmatch_cat_some _ _ _ _ ((u :: ls) ++ rest) [(1, [e])]).
    - rewrite (dmatch_cat_some _ _ _ _ rest [(2, u :: ls); (1, [e])]); [reflexivity|].
      apply (@dmatch_group 2 _ (u :: ls) rest).
      cbn [app]. rewrite (dmatch_cat_some _ _ _ _ _ _ (dmatch_one_hit UPPER u _ _ Hu)).
      rewrite (dmatch_cat_some _ _ _ _ rest [(1, [e])]); [reflexivity|].
      apply dmatch_plus_run; assumption.
    - apply (@dmatch_group 1 _ [e] ((u :: ls) ++ rest)).
      cbn [app]. rewrite (dmatch_cat_some _ _ _ _ _ _ (dmatch_one_hit DOT e _ _ He)).
      reflexivity. }
  rewrite E, length_consumed. reflexivity.
Qed.

(** The second pattern on a small letter or digit before a capital. *)
Lemma SNAKE2_hit (e u : ascii) (rest : str) :
  charset_mem LOWER_DIGIT e = true -> charset_mem UPPER u = true ->
  match_at SNAKE2 ([e; u] ++ rest)
  = Some {| m_end := 2; m_groups := [(2, [u]); (1, [e])] |}.
Proof.
  intros He Hu. rewrite (match_at_det _ _ det_SNAKE2).
  assert (E : dmatch SNAKE2 ([e; u] ++ rest) [] = Some (rest, [(2, [u]); (1, [e])])).
  { unfold SNAKE2.
    rewrite (dmatch_cat_some _ _ _ _ ([u] ++ rest) [(1, [e])]).
    - rewrite (dmatch_cat_some _ _ _ _ rest [(2, [u]); (1, [e])]); [reflexivity|].
      apply (@dmatch_group 2 _ [u] rest).
      cbn [app]. rewrite (dmatch_cat_some _ _ _ _ _ _ (dmatch_one_hit _ u _ _ Hu)).
      reflexivity.
    - apply (@dmatch_group 1 _ [e] ([u] ++ rest)).
      cbn [app]. rewrite (dmatch_cat_some _ _ _ _ _ _ (dmatch_one_hit _ e _ _ He)).
      reflexivity. }
  rewrite E, length_consumed. reflexivity.
Qed.

(** What the first pass makes of the words after a text: an underscore
    before every other word. *)
Fixpoint out1 (ws : list word) : str :=
  match ws with
  | [] => []
  | w :: ws' =>
      "_" ++ word_text w
      ++ match ws' with
         | [] => []
         | w' :: ws'' => word_text w' ++ out1 ws''
         end
  end.

(** What both passes make of them: an underscore before every word. *)
Definition out2 (ws : list word) : str := flat_map (fun w => "_" ++ word_text w) ws.

Lemma list_ind2 (A : Type) (P : list A -> Prop) :
  P [] -> (forall a, P [a]) -> (forall a b l, P l -> P (a :: b :: l)) ->
  forall l, P l.
Proof.
  intros H0 H1 H2.
  assert (H : forall l, P l /\ forall a, P (a :: l)).
  { induction l as [|b l [IH1 IH2]]; [split; auto|].
    split; [apply IH2|]. intros a. apply H2. exact IH1. }
  intros l. apply H.
Qed.

(** A text that ends a run: no capital after its first character, and a
    last character the dot matches. *)
Definition run1 (x : str) : Prop :=
  exists p0 e, x = p0 ++ [e] /\ no_capital (tl x) /\ charset_mem DOT e = true.

Lemma word_run1 (w : word) : word_ok w -> run1 (word_text w).
Proof.
  destruct w as [u ls]. intros (Hu & Hne & Hls). cbn [fst snd] in *.
  destruct (exists_last Hne) as (l0 & e & ->).
  exists (u :: l0), e. split; [reflexivity|]. split.
  - cbn [word_text fst snd tl]. unfold no_capital.
    apply Forall_forall. intros c Hc. rewrite Forall_forall in Hls.
    apply (disjoint_spec _ _ c lower_not_upper (Hls c Hc)).
  - rewrite Forall_forall in Hls.
    apply (subset_spec _ _ e lower_digit_is_dot),
          (subset_spec _ _ e lower_is_lower_digit), Hls.
    apply in_or_app. right. left. reflexivity.
Qed.

Lemma pass1 (ws : list word) :
  Forall word_ok ws ->
  forall x, run1 x ->
  sub_compiled SNAKE1 underscore_between (x ++ camel ws) = x ++ out1 ws.
Proof.
  induction ws as [| w | w w' ws IH] using list_ind2; intros Hws x (p0 & e & -> & Hx & He).
  - cbn [camel flat_map out1]. rewrite !app_nil_r.
    rewrite (sub_copy_run _ _ SNAKE1_second p0 e [] Hx).
    rewrite (sub_last _ _ e SNAKE1_second). reflexivity.
  - inversion Hws as [|? ? Hw _]; subst. destruct w as [u ls].
    destruct Hw as (Hu & Hne & Hls). cbn [fst snd] in *.
    cbn [camel flat_map out1 word_text fst snd]. rewrite !app_nil_r.
    rewrite <- app_assoc. cbn [app].
    rewrite (sub_copy_run _ _ SNAKE1_second p0 e _ Hx).
    pose proof (sub_hit SNAKE1 underscore_between (e :: u :: ls) [] _
                  ltac:(discriminate)
                  (SNAKE1_hit e u ls [] He Hu Hne Hls eq_refl) eq_refl) as Hh.
    rewrite (sub_nil SNAKE1 underscore_between (SNAKE1_second [] I)) in Hh.
    rewrite !app_nil_r in Hh. change (word_text (u, ls)) with (u :: ls). rewrite Hh.
    unfold underscore_between, group_text, group.
    cbn [m_groups lookup Nat.eqb or_empty app of_string list_ascii_of_string].
    rewrite <- app_assoc. reflexivity.
  - inversion Hws as [|? ? Hw Hws']; subst.
    inversion Hws' as [|? ? Hw' Hws'']; subst.
    destruct w as [u ls]. destruct Hw as (Hu & Hne & Hls). cbn [fst snd] in *.
    cbn [camel flat_map out1]. fold (camel ws).
    change (word_text (u, ls)) with (u :: ls).
    rewrite <- !app_assoc. cbn [app].
    rewrite (sub_copy_run _ _ SNAKE1_second p0 e _ Hx).
    change (e :: u :: ls ++ word_text w' ++ camel ws)
      with ((e :: u :: ls) ++ camel (w' :: ws)).
    rewrite (sub_hit _ _ (e :: u :: ls) _ _ ltac:(discriminate)
               (SNAKE1_hit e u ls _ He Hu Hne Hls (camel_stop _ Hws')) eq_refl).
    cbn [camel flat_map]. fold (camel ws).
    rewrite (IH Hws'' (word_text w') (word_run1 w' Hw')).
    unfold underscore_between, group_text, group.
    cbn [m_groups lookup Nat.eqb or_empty app of_string list_ascii_of_string].
    rewrite <- ?app_assoc. reflexivity.
Qed.

(** A text with no capital after its first character that ends with a
    small letter or a digit. *)
Definition run2 (x : str) : Prop :=
  exists p0 e, x = p0 ++ [e] /\ no_capital (tl x)
               /\ charset_mem LOWER_DIGIT e = true.

Lemma lower_run2 (ls : str) :
  ls <> [] -> Forall (fun c => charset_mem LOWER c = true) ls -> run2 ls.
Proof.
  intros Hne Hls. destruct (exists_last Hne) as (l0 & e & ->).
  exists l0, e. split; [reflexivity|]. rewrite Forall_forall in Hls. split.
  - unfold no_capital. apply Forall_forall. intros c Hc.
    apply (disjoint_spec _ _ c lower_not_upper). apply Hls.
    destruct l0; [destruct Hc | right; exact Hc].
  - apply (subset_spec _ _ e lower_is_lower_digit), Hls.
    apply in_or_app. right. left. reflexivity.
Qed.

(** The second pass on a word and what follows it, after an underscore. *)
Lemma pass2_word (u : ascii) (ls rest : str) :
  charset_mem UPPER u = true ->
  Forall (fun c => charset_mem LOWER c = true) ls ->
  forall (l0 : str) (e : ascii), ls = l0 ++ [e] ->
  sub_compiled SNAKE2 underscore_between ("_"%char :: (u :: ls) ++ rest)
  = "_"%char :: (u :: l0) ++ sub_compiled SNAKE2 underscore_between (e :: rest).
Proof.
  intros Hu Hls l0 e ->.
  rewrite sub_cons_none by (apply (match_at_none _ _ det_SNAKE2); reflexivity).
  f_equal. cbn [app]. rewrite <- app_assoc. cbn [app].
  change (u :: l0 ++ e :: rest) with ((u :: l0) ++ e :: rest).
  apply (sub_copy_run _ _ SNAKE2_second (u :: l0) e rest).
  cbn [app tl]. unfold no_capital. apply Forall_forall. intros c Hc.
  rewrite Forall_forall in Hls. apply (disjoint_spec _ _ c lower_not_upper (Hls c Hc)).
Qed.

Lemma pass2 (ws : list word) :
  Forall word_ok ws ->
  forall x, run2 x ->
  sub_compiled SNAKE2 underscore_between (x ++ out1 ws) = x ++ out2 ws.
Proof.
  induction ws as [| w | w w' ws IH] using list_ind2;
    intros Hws x (p0 & e & -> & Hx & He).
  - cbn [out1 out2 flat_map]. rewrite !app_nil_r.
    rewrite (sub_copy_run _ _ SNAKE2_second p0 e [] Hx).
    rewrite (sub_last _ _ e SNAKE2_second). reflexivity.
  - inversion Hws as [|? ? Hw _]; subst. destruct w as [u ls].
    destruct Hw as (Hu & Hne & Hls). cbn [fst snd] in *.
    destruct (exists_last Hne) as (l0 & e' & El).
    cbn [out1 out2 flat_map]. change (word_text (u, ls)) with (u :: ls).
    rewrite !app_nil_r. cbn [app of_string list_ascii_of_string].
    assert (Hx' : no_capital (tl ((p0 ++ [e]) ++ ["_"%char]))).
    { destruct p0; cbn [app tl] in *; [repeat constructor|].
      apply Forall_app. split; [exact Hx | repeat constructor]. }
    rewrite (sub_copy_run _ _ SNAKE2_second (p0 ++ [e]) "_" _ Hx').
    pose proof (pass2_word u ls [] Hu Hls l0 e' El) as W.
    rewrite app_nil_r in W. rewrite W.
    rewrite (sub_last _ _ e' SNAKE2_second).
    rewrite El. cbn [app]. rewrite <- ?app_assoc. reflexivity.
  - inversion Hws as [|? ? Hw Hws']; subst.
    inversion Hws' as [|? ? Hw' Hws'']; subst.
    destruct w as [u ls]. destruct Hw as (Hu & Hne & Hls).
    destruct w' as [u' ls']. destruct Hw' as (Hu' & Hne' & Hls'). cbn [fst snd] in *.
    destruct (exists_last Hne) as (l0 & e' & El).
    cbn [out1 out2 flat_map]. fold (out2 ws).
    change (word_text (u, ls)) with (u :: ls).
    change (word_text (u', ls')) with (u' :: ls').
    change (of_string "_" ++ (u :: ls) ++ (u' :: ls') ++ out1 ws)
      with ("_"%char :: (u :: ls) ++ (u' :: ls') ++ out1 ws).
    assert (Hx' : no_capital (tl ((p0 ++ [e]) ++ ["_"%char]))).
    { destruct p0; cbn [app tl] in *; [repeat constructor|].
      apply Forall_app. split; [exact Hx | repeat constructor]. }
    rewrite (sub_copy_run _ _ SNAKE2_second (p0 ++ [e]) "_" _ Hx').
    rewrite (pass2_word u ls _ Hu Hls l0 e' El).
    change (e' :: (u' :: ls') ++ out1 ws) with ([e'; u'] ++ ls' ++ out1 ws).
    assert (He' : charset_mem LOWER_DIGIT e' = true).
    { rewrite Forall_forall in Hls.
      apply (subset_spec _ _ e' lower_is_lower_digit), Hls. rewrite El.
      apply in_or_app. right. left. reflexivity. }
    rewrite (sub_hit _ _ [e'; u'] _ _ ltac:(discriminate)
               (SNAKE2_hit e' u' _ He' Hu') eq_refl).
    rewrite (IH Hws'' ls' (lower_run2 ls' Hne' Hls')).
    unfold underscore_between, group_text, group.
    cbn [m_groups lookup Nat.eqb or_empty app of_string list_ascii_of_string].
    rewrite El, <- ?app_assoc. cbn [app]. rewrite <- ?app_assoc. reflexivity.
Qed.

Lemma lower_digit_fixed :
  forallb (fun c => implb (charset_mem LOWER_DIGIT c) (fixed_by_lower c)) all_chars
  = true.
Proof. vm_compute. reflexivity. Qed.

Lemma lower_digit_lower (s : str) :
  Forall (fun c => charset_mem LOWER_DIGIT c = true) s -> lower s = s.
Proof.
  intros H. apply lower_id. induction H as [|c s Hc _ IH]; constructor; [|exact IH].
  pose proof lower_digit_fixed as F. rewrite forallb_forall in F.
  specialize (F c (all_chars_complete c)). rewrite Hc in F.
  apply Ascii.eqb_eq in F. exact F.
Qed.

Lemma lower_app (a b : str) : lower (a ++ b) = lower a ++ lower b.
Proof. apply map_app. Qed.

Lemma lower_out2 (ws : list word) :
  lower (out2 ws) = flat_map (fun w => "_" ++ lower (word_text w)) ws.
Proof.
  unfold out2. induction ws as [|w ws IH]; [reflexivity|].
  cbn [flat_map]. rewrite lower_app, IH. reflexivity.
Qed.

(** X25.  A name in camel case, a first word of small letters and digits and
    then words of a capital and small letters, becomes the words in small
    letters with an underscore before each but the first. *)
Theorem to_snake_case_camel (first : str) (ws : list word) :
  first <> [] ->
  Forall (fun c => charset_mem LOWER_DIGIT c = true) first ->
  Forall word_ok ws ->
  to_snake_case (first ++ camel ws)
  = Ret (first ++ flat_map (fun w => "_" ++ lower (word_text w)) ws).
Proof.
  intros Hne Hf Hws.
  destruct (exists_last Hne) as (p0 & e & E).
  assert (Hn : no_capital (tl first)).
  { unfold no_capital. apply Forall_forall. intros c Hc.
    rewrite Forall_forall in Hf.
    apply (disjoint_spec _ _ c lower_digit_not_upper), Hf.
    destruct first; [destruct Hc | right; exact Hc]. }
  assert (He : charset_mem LOWER_DIGIT e = true).
  { rewrite Forall_forall in Hf. apply Hf. rewrite E.
    apply in_or_app. right. left. reflexivity. }
  assert (R1 : run1 first).
  { exists p0, e. split; [exact E|]. split; [exact Hn|].
    apply (subset_spec _ _ e lower_digit_is_dot), He. }
  assert (R2 : run2 first).
  { exists p0, e. split; [exact E|]. split; [exact Hn | exact He]. }
  rewrite to_snake_case_eq, (pass1 ws Hws first R1), (pass2 ws Hws first R2).
  rewrite lower_app, (lower_digit_lower first Hf), lower_out2. reflexivity.
Qed.

Lemma to_snake_case_camel_witness :
  to_snake_case ("is" ++ camel [("V"%char, of_string "alid");
                                ("D"%char, of_string "ecimal")])
  = Ret ("is" ++ flat_map (fun w => "_" ++ lower (word_text w))
                   [("V"%char, of_string "alid"); ("D"%char, of_string "ecimal")]).
Proof.
  apply (to_snake_case_camel "is").
  - discriminate.
  - repeat constructor.
  - repeat constructor; discriminate.
Defined.

(** *** What is kept of a name *)

(** A text without its underscores. *)
Definition without_underscores (s : str) : str :=
  filter (fun c => negb (Ascii.eqb c "_")) s.

Lemma without_app (a b : str) :
  without_underscores (a ++ b) = without_underscores a ++ without_underscores b.
Proof. apply filter_app. Qed.

(** A pass that puts underscores into what it matches, and nothing else. *)
Definition adds_underscores (r : regex) (repl : match_obj -> str) : Prop :=
  forall s mo, match_at r s = Some mo ->
    1 <= m_end mo <= List.length s
    /\ without_underscores (repl mo) = without_underscores (firstn (m_end mo) s).

Lemma scan_adds_underscores (r : regex) (repl : match_obj -> str) :
  adds_underscores r repl ->
  forall s skip, skip <= List.length s ->
    without_underscores (flat_map (piece_text repl) (scan r skip s))
    = without_underscores (skipn skip s).
Proof.
  intros H. induction s as [|c s IH]; intros skip Hs.
  - cbn [List.length] in Hs. replace skip with 0 by lia. cbn [scan skipn].
    destruct (match_at r []) as [mo|] eqn:E; [|reflexivity].
    destruct (H _ _ E) as [[H1 H2] _]. cbn [List.length] in H2. lia.
  - destruct skip as [|k]; cbn [scan skipn].
    + destruct (match_at r (c :: s)) as [mo|] eqn:E.
      * destruct (H _ _ E) as [[H1 H2] H3]. cbn [List.length] in H2.
        destruct (m_end mo) as [|k] eqn:Ek; [lia|].
        cbn [flat_map piece_text]. rewrite without_app, H3, (IH k) by lia.
        rewrite <- without_app. cbn [firstn app].
        change (c :: firstn k s ++ skipn k s) with ([c] ++ firstn k s ++ skipn k s).
        rewrite firstn_skipn. reflexivity.
      * cbn [flat_map piece_text]. rewrite without_app, (IH 0) by lia.
        cbn [skipn]. rewrite <- without_app. reflexivity.
    + apply IH. cbn [List.length] in Hs. lia.
Qed.

Lemma sub_adds_underscores (r : regex) (repl : match_obj -> str) (s : str) :
  adds_underscores r repl ->
  without_underscores (sub_compiled r repl s) = without_underscores s.
Proof.
  intros H. unfold sub_compiled.
  rewrite (scan_adds_underscores r repl H s 0) by lia. reflexivity.
Qed.

Lemma SNAKE1_adds : adds_underscores SNAKE1 underscore_between.
Proof.
  intros s mo H.
  destruct (@match_at_sem SNAKE1 s mo det_SNAKE1 H) as (x & s' & -> & Hm & Hsem).
  destruct mo as [e g]. cbn [m_end m_groups] in *. subst e.
  unfold SNAKE1 in Hsem. inv_sem. rewrite ?app_nil_r in *. clear H. split.
  - rewrite !length_app. cbn [List.length]. lia.
  - rewrite firstn_app, Nat.sub_diag, firstn_all. cbn [firstn].
    unfold underscore_between, group_text, group.
    cbn [m_groups lookup Nat.eqb or_empty app of_string list_ascii_of_string].
    rewrite ?app_nil_r.
    match goal with
    | |- without_underscores (?a :: "_"%char :: ?b) = _ =>
        change (a :: "_"%char :: b) with ([a] ++ ["_"%char] ++ b)
    end.
    rewrite !without_app.
    match goal with
    | |- _ = without_underscores (?a :: ?b) => change (a :: b) with ([a] ++ b)
    end.
    rewrite without_app. reflexivity.
Qed.

Lemma SNAKE2_adds : adds_underscores SNAKE2 underscore_between.
Proof.
  intros s mo H.
  destruct (@match_at_sem SNAKE2 s mo det_SNAKE2 H) as (x & s' & -> & Hm & Hsem).
  destruct mo as [e g]. cbn [m_end m_groups] in *. subst e.
  unfold SNAKE2 in Hsem. inv_sem. rewrite ?app_nil_r in *. clear H. split.
  - rewrite !length_app. cbn [List.length]. lia.
  - rewrite firstn_app, Nat.sub_diag, firstn_all. cbn [firstn].
    unfold underscore_between, group_text, group.
    cbn [m_groups lookup Nat.eqb or_empty app of_string list_ascii_of_string].
    rewrite ?app_nil_r.
    match goal with
    | |- without_underscores (?a :: "_"%char :: ?b) = _ =>
        change (a :: "_"%char :: b) with ([a] ++ ["_"%char] ++ b)
    end.
    rewrite !without_app.
    match goal with
    | |- _ = without_underscores (?a :: ?b) => change (a :: b) with ([a] ++ b)
    end.
    rewrite without_app. reflexivity.
Qed.

Lemma lower_underscore :
  forallb (fun c => Bool.eqb (Ascii.eqb (lower_char c) "_") (Ascii.eqb c "_")) all_chars
  = true.
Proof. vm_compute. reflexivity. Qed.

Lemma without_lower (s : str) :
  without_underscores (lower s) = lower (without_underscores s).
Proof.
  unfold without_underscores, lower. induction s as [|c s IH]; [reflexivity|].
  cbn [map filter].
  pose proof lower_underscore as F. rewrite forallb_forall in F.
  specialize (F c (all_chars_complete c)). apply eqb_prop in F. rewrite F.
  destruct (Ascii.eqb c "_"); cbn [negb map]; rewrite IH; reflexivity.
Qed.

(** X26.  On a name of characters from U+0000 to U+00FF, the names the
    model covers, ASCII names among them, [to_snake_case] only puts
    underscores in and makes letters small: without its underscores, the
    result is the name without its underscores, in small letters.  No
    character is lost or moved. *)
Theorem to_snake_case_keeps_characters (name : str) :
  exists result,
    to_snake_case name = Ret result
    /\ without_underscores result = lower (without_underscores name).
Proof.
  eexists. split; [apply to_snake_case_eq|].
  rewrite without_lower.
  rewrite (sub_adds_underscores _ _ _ SNAKE2_adds),
    (sub_adds_underscores _ _ _ SNAKE1_adds). reflexivity.
Qed.

(** *** The catalogue *)

(** The two tables at the head of the script (lines 29-60). *)
Module LEXER_PREDICATES.
Definition methods : list (str * str) :=
  [ (of_string "isValidDecimal", of_string "is_valid_decimal");
    (of_string "isHint", of_string "is_hint");
    (of_string "isShiftRightOperator", of_string "is_shift_right_operator") ].
Definition actions : list (str * str) :=
  [ (of_string "incComplexTypeLevelCounter", of_string "inc_complex_type_level_counter");
    (of_string "decComplexTypeLevelCounter", of_string "dec_complex_type_level_counter");
    (of_string "markUnclosedComment", of_string "mark_unclosed_comment") ].
Definition special : list (str * str) :=
  [ (of_string "tags.push(getText())", of_string "push_dollar_tag");
    (of_string "getText().equals(tags.peek())", of_string "matches_dollar_tag");
    (of_string "tags.pop()", of_string "pop_dollar_tag") ].
End LEXER_PREDICATES.

Module PARSER_PREDICATES.
Definition config_flags : list (str * bool) :=
  [ (of_string "legacy_setops_precedence_enabled", false);
    (of_string "legacy_exponent_literal_as_decimal_enabled", false);
    (of_string "SQL_standard_keyword_behavior", false);
    (of_string "double_quoted_identifiers", false);
    (of_string "parameter_substitution_enabled", true);
    (of_string "legacy_identifier_clause_only", false);
    (of_string "single_character_pipe_operator_enabled", true) ].
Definition methods : list (str * str) :=
  [ (of_string "isOperatorPipeStart", of_string "is_operator_pipe_start") ].
End PARSER_PREDICATES.

(** X27.  The snake-case names of the catalogue are what [to_snake_case] makes
    of the names they are paired with; those of the three special forms
    are what it makes of the names the verifier requires for them. *)
Theorem catalogue_snake_names :
  (forall camel_name snake_name,
     In (camel_name, snake_name)
        (LEXER_PREDICATES.methods ++ LEXER_PREDICATES.actions
         ++ PARSER_PREDICATES.methods) ->
     to_snake_case camel_name = Ret snake_name)
  /\ (forall form snake_name,
        In (form, snake_name) LEXER_PREDICATES.special ->
        exists name, In name required_lexer_predicates
                     /\ to_snake_case name = Ret snake_name).
Proof.
  split.
  - intros c s H. cbn in H.
    repeat (destruct H as [H|H]; [injection H as <- <-; vm_compute; reflexivity|]).
    contradiction.
  - intros f s H. cbn in H. destruct H as [H|[H|[H|[]]]]; injection H as <- <-.
    + exists (of_string "pushDollarTag"). split; [cbn; tauto | vm_compute; reflexivity].
    + exists (of_string "matchesDollarTag"). split; [cbn; tauto | vm_compute; reflexivity].
    + exists (of_string "popDollarTag"). split; [cbn; tauto | vm_compute; reflexivity].
Qed.

Definition js_bool (b : bool) : str := if b then "true" else "false".

(** X28.  The catalogue, the verifier and the injected parser block agree: the
    verifier requires the catalogue's methods, actions and flags, in
    their order, and the block gives each flag the default the catalogue
    gives it. *)
Theorem catalogue_agrees :
  firstn 6 required_lexer_predicates
  = map fst (LEXER_PREDICATES.methods ++ LEXER_PREDICATES.actions)
  /\ required_parser_predicates = map fst PARSER_PREDICATES.methods
  /\ required_parser_flags = map fst PARSER_PREDICATES.config_flags
  /\ (forall flag default,
        In (flag, default) PARSER_PREDICATES.config_flags ->
        contains ("SqlBaseParser.prototype." ++ flag ++ " = " ++ js_bool default ++ ";")
                 parser_predicates_js = true).
Proof.
  split; [reflexivity|]. split; [reflexivity|]. split; [reflexivity|].
  intros f b H. cbn in H.
  repeat (destruct H as [H|H]; [injection H as <- <-; vm_compute; reflexivity|]).
  contradiction.
Qed.

(** ** Running the transform stage again *)

Lemma files_write_twice (w : world) (p : path) (c : str) (q : path) :
  files w p = Some (Utf8 c) -> files (snd (write_text p c w)) q = files w q.
Proof.
  intros H. cbn [write_text snd files].
  destruct (path_eqb q p) eqn:E; [|reflexivity].
  apply path_eqb_eq in E. subst q. symmetry. exact H.
Qed.

(** X29.  The Grammar Transform Stage can be run again: on the files it
    has left it returns what it returned before and leaves every file
    with the content it had (the injection stage, which appends, is
    different). *)
Theorem transform_grammar_rerun (w w1 : world) (b : bool) :
  transform_grammar w = (Ret b, w1) ->
  exists w2,
    transform_grammar w1 = (Ret b, w2)
    /\ forall p, files w2 p = files w1 p.
Proof.
  intros H. pose proof (transform_grammar_cases w) as C.
  destruct (files w (source_of lexer_g4)) as [[l|]|] eqn:El;
    [destruct (files w (source_of parser_g4)) as [[p|]|] eqn:Ep| |].
  - destruct C as (l' & p' & Tl & Tp & C). rewrite C in H.
    assert (Hb : b = true) by congruence.
    apply (f_equal snd) in H. cbn [snd] in H. subst b w1.
    match goal with |- context [transform_grammar ?x] => set (w1 := x) end.
    assert (El1 : files w1 (source_of lexer_g4) = Some (Utf8 l)).
    { unfold w1. rewrite !files_write_other by discriminate. exact El. }
    assert (Ep1 : files w1 (source_of parser_g4) = Some (Utf8 p)).
    { unfold w1. rewrite !files_write_other by discriminate. exact Ep. }
    pose proof (transform_grammar_cases w1) as C1. rewrite El1, Ep1 in C1.
    destruct C1 as (l'' & p'' & Tl' & Tp' & C1).
    rewrite (transformed_unique _ l'' l' Tl' Tl),
      (transformed_unique _ p'' p' Tp' Tp) in C1.
    eexists. split; [exact C1|]. intros q.
    rewrite files_write_twice.
    + apply files_write_twice. unfold w1.
      rewrite files_write_other by discriminate. apply files_write_same.
    + rewrite files_write_other by discriminate. unfold w1. apply files_write_same.
  - destruct C as (l' & _ & C). rewrite C in H. discriminate H.
  - destruct C as (l' & Tl & C). rewrite C in H.
    assert (Hb : b = false) by congruence.
    apply (f_equal snd) in H. cbn [snd] in H. subst b w1.
    match goal with |- context [transform_grammar ?x] => set (w1 := x) end.
    assert (El1 : files w1 (source_of lexer_g4) = Some (Utf8 l)).
    { unfold w1. rewrite !files_write_other by discriminate. exact El. }
    assert (Ep1 : files w1 (source_of parser_g4) = None).
    { unfold w1. rewrite !files_write_other by discriminate. exact Ep. }
    pose proof (transform_grammar_cases w1) as C1. rewrite El1, Ep1 in C1.
    destruct C1 as (l'' & Tl' & C1).
    rewrite (transformed_unique _ l'' l' Tl' Tl) in C1.
    eexists. split; [exact C1|]. intros q.
    apply files_write_twice. unfold w1. apply files_write_same.
  - rewrite C in H. discriminate H.
  - rewrite C in H.
    assert (Hb : b = false) by congruence.
    apply (f_equal snd) in H. cbn [snd] in H. subst b w1.
    pose proof (transform_grammar_cases w) as C1. rewrite El in C1.
    exists w. split; [exact C1 | reflexivity].
Qed.

Definition sample_sources : world :=
  {| files := grammar_sources sample_lexer_grammar sample_parser_grammar;
     subprocess_run := no_tool |}.

Lemma transform_grammar_rerun_witness :
  exists w2,
    transform_grammar (snd (transform_grammar sample_sources)) = (Ret true, w2)
    /\ forall p, files w2 p = files (snd (transform_grammar sample_sources)) p.
Proof.
  apply (transform_grammar_rerun sample_sources).
  assert (F : fst (transform_grammar sample_sources) = Ret true)
    by (vm_compute; reflexivity).
  destruct (transform_grammar sample_sources) as [r w1].
  cbn [fst snd] in *. rewrite F. reflexivity.
Defined.
